(** * legal-ease: the message-tree consistency engine

    A shallow embedding of the message store, the traversal, selection,
    deletion and generation-persistence code of the backend
    (app/models.py, app/crud.py, app/api/routes/web_app.py,
    app/api/routes/tree_generation.py), and the properties of the
    specification that are about them. *)

From stdpp Require Import gmap strings list sorting pretty.

Open Scope Z_scope.

(** ** Data model (app/models.py) *)

(** The columns of the [message] table other than its primary key.  The
    primary key [id] is the key of the table below; a loaded [Message] object
    is the pair of its id and its columns.  [role] is declared as the
    [MessageRole] enumeration and stored as text; the code passes strings. *)
Record Message := mkMessage {
  content : string;
  role : string;
  selected : bool;
  simulation_id : Z;
  parent_id : option Z
}.

Global Instance Message_eq_dec : EqDecision Message.
Proof. solve_decision. Defined.

(** A row as the ORM hands it out: [msg.id] is the first component. *)
Abbreviation Row := (Z * Message)%type.
Abbreviation table := (gmap Z Message).

Definition id (msg : Row) : Z := msg.1.

Definition set_selected (b : bool) (m : Message) : Message :=
  mkMessage (content m) (role m) b (simulation_id m) (parent_id m).

(** Values of [MessageRole]. *)
Definition MessageRole : list string := ["user"; "assistant"; "system"; "A"; "B"].

(** ** Sessions, exceptions

    A SQLAlchemy [Session] over the message table: [durable] is what has been
    committed, [view] is what the open transaction sees (committed rows plus
    pending adds and deletes), [seq] is the next value of the auto-increment
    primary key, and [outages] says, for the commits still to come, which of
    them the database fails ([true] = this commit raises); when the list is
    exhausted every commit succeeds. *)
Record Session := mkSession {
  durable : table;
  view : table;
  seq : Z;
  outages : list bool
}.

(** The persistent part: what is left when the request's session is closed. *)
Record Database := mkDatabase {
  messages : table;
  message_id_seq : Z;
  faults : list bool
}.

Definition open_session (d : Database) : Session :=
  mkSession (messages d) (messages d) (message_id_seq d) (faults d).

Definition close_session (s : Session) : Database :=
  mkDatabase (durable s) (seq s) (outages s).

Inductive exn :=
  | HTTPException (status_code : Z) (detail : string)
  | ValueError (msg : string)
  | SQLAlchemyError.

(** [str(e)] *)
Definition str_exn (e : exn) : string :=
  match e with
  | HTTPException c d => pretty c +:+ ": " +:+ d
  | ValueError m => m
  | SQLAlchemyError => "SQLAlchemyError"
  end.

(** What running a piece of code gives: a value, a raised exception, or no
    result at all (the code does not terminate). *)
Inductive outcome (A : Type) :=
  | Return (a : A)
  | Raise (e : exn)
  | Diverge.
Arguments Return {A} a.
Arguments Raise {A} e.
Arguments Diverge {A}.

Definition M (A : Type) : Type := Session → outcome A * Session.

Definition ret {A} (a : A) : M A := λ s, (Return a, s).
Definition raise {A} (e : exn) : M A := λ s, (Raise e, s).
Definition diverge {A} : M A := λ s, (Diverge, s).

Definition bind {A B} (m : M A) (k : A → M B) : M B := λ s,
  match m s with
  | (Return a, s') => k a s'
  | (Raise e, s') => (Raise e, s')
  | (Diverge, s') => (Diverge, s')
  end.

(** [try: m except Exception as e: h e] *)
Definition try_except {A} (m : M A) (h : exn → M A) : M A := λ s,
  match m s with
  | (Raise e, s') => h e s'
  | r => r
  end.

Declare Scope session_scope.
Delimit Scope session_scope with session.
Notation "'let*' x ':=' m 'in' k" := (bind m (λ x, k))
  (at level 10, x name, m at level 100, k at level 200) : session_scope.
Notation "m ;;; k" := (bind m (λ _, k))
  (at level 100, k at level 200, right associativity) : session_scope.
Open Scope session_scope.

(** [for x in l: f x], collecting what the body yields. *)
Fixpoint for_each {A B} (l : list A) (f : A → M B) : M (list B) :=
  match l with
  | [] => ret []
  | x :: l' => let* y := f x in let* ys := for_each l' f in ret (y :: ys)
  end.

(** Rows of a table in primary-key order, the order the store returns them
    in when a query has no ORDER BY. *)
Definition id_le : relation Row := λ a b, id a ≤ id b.

Global Instance id_le_dec : RelDecision id_le.
Proof. intros a b. unfold id_le. apply _. Defined.

Definition rows (t : table) : list Row := merge_sort id_le (map_to_list t).

(** [select(Message).where(P)] evaluated on a table. *)
Definition select_where (P : Row → Prop) `{!∀ r, Decision (P r)} (t : table) : list Row :=
  filter P (rows t).

(** [session.get(Message, k)] *)
Definition session_get (k : Z) : M (option Row) := λ s,
  (Return ((λ m, (k, m)) <$> view s !! k), s).

(** [session.exec(select(Message).where(P)).all()] *)
Definition session_exec (P : Row → Prop) `{!∀ r, Decision (P r)} : M (list Row) := λ s,
  (Return (select_where P (view s)), s).

(** [session.exec(select(Message).where(P)).first()] *)
Definition session_first (P : Row → Prop) `{!∀ r, Decision (P r)} : M (option Row) := λ s,
  (Return (head (select_where P (view s))), s).

(** [session.add(Message(...))] for a new object: the row gets the next id
    of the sequence.  The id is readable after [commit] and [refresh]. *)
Definition session_add (m : Message) : M Z := λ s,
  (Return (seq s),
   mkSession (durable s) (<[seq s := m]> (view s)) (seq s + 1) (outages s)).

(** [session.add(obj)] for a loaded object whose columns were assigned. *)
Definition session_update (k : Z) (m : Message) : M unit := λ s,
  (Return (), mkSession (durable s) (<[k := m]> (view s)) (seq s) (outages s)).

(** [session.delete(obj)] *)
Definition session_delete (k : Z) : M unit := λ s,
  (Return (), mkSession (durable s) (delete k (view s)) (seq s) (outages s)).

(** [session.exec(delete(Message).where(P))]: the bulk delete, yielding the
    result's [rowcount]. *)
Definition session_exec_delete (P : Row → Prop) `{!∀ r, Decision (P r)} : M Z := λ s,
  (Return (Z.of_nat (length (select_where P (view s)))),
   mkSession (durable s) (filter (λ r, ¬ P r) (view s)) (seq s) (outages s)).

(** [session.refresh(obj)]: reload the row of a persistent object. *)
Definition session_refresh (k : Z) : M Row := λ s,
  match view s !! k with
  | Some m => (Return (k, m), s)
  | None => (Raise SQLAlchemyError, s)
  end.

(** [session.commit()] *)
Definition session_commit : M unit := λ s,
  match outages s with
  | true :: rest => (Raise SQLAlchemyError, mkSession (durable s) (view s) (seq s) rest)
  | false :: rest => (Return (), mkSession (view s) (view s) (seq s) rest)
  | [] => (Return (), mkSession (view s) (view s) (seq s) [])
  end.

(** [session.rollback()] *)
Definition session_rollback : M unit := λ s,
  (Return (), mkSession (durable s) (durable s) (seq s) (outages s)).

(** A request handler: FastAPI opens a session for the request
    ([Depends(get_session)]), runs the handler and closes the session, which
    drops whatever was not committed. *)
Definition request {A} (m : M A) (d : Database) : outcome A * Database :=
  let '(r, s) := m (open_session d) in (r, close_session s).

(** ** Selection (app/crud.py, [update_message_selected]) *)

(** The [where] clause of [sibling_query]. *)
Definition sibling_query (message_id : Z) (message : Message) (r : Row) : Prop :=
  parent_id r.2 = parent_id message ∧ id r ≠ message_id ∧
  simulation_id r.2 = simulation_id message ∧ selected r.2 = true.

Global Instance sibling_query_dec message_id message r :
  Decision (sibling_query message_id message r).
Proof. unfold sibling_query. apply _. Defined.

Definition parent_not_selected : exn :=
  HTTPException 400 "Cannot select this message because its parent is not selected".

Definition sibling_already_selected (sibling : Z) : exn :=
  HTTPException 400
    ("Cannot select this message because sibling (id=" +:+ pretty sibling
       +:+ ") is already selected").

Definition update_message_selected (message_id : Z) : M Row :=
  let* message := session_get message_id in
  match message with
  | None => raise (HTTPException 404 "Message not found")
  | Some message =>
    match parent_id message.2 with
     | Some pid =>
       let* parent := session_get pid in
       match parent with
       | Some parent => if selected parent.2 then ret () else raise parent_not_selected
       | None => raise parent_not_selected
       end
     | None => ret ()
     end ;;;
    let* selected_sibling := session_first (sibling_query message_id message.2) in
    match selected_sibling with
    | Some sibling => raise (sibling_already_selected (id sibling))
    | None =>
      session_update message_id (set_selected true message.2) ;;;
      session_commit ;;;
      session_refresh message_id
    end
  end.

(** [PATCH /messages/{message_id}/select] *)
Definition select_message (message_id : Z) : Database → outcome Row * Database :=
  request (update_message_selected message_id).

(** ** Traversal (app/crud.py, [get_messages_by_tree], [get_tree]) *)

(** Path mode: the [while current_id is not None] loop.  [fuel] bounds the
    number of iterations; [None] stands for a loop that does not end. *)
Fixpoint walk_up (fuel : nat) (t : table) (current_id : option Z)
    (ordered : list Row) : option (list Row) :=
  match current_id with
  | None => Some ordered
  | Some cid =>
    match fuel with
    | O => None
    | S fuel' =>
      match t !! cid with
      | None => Some ordered
      | Some message => walk_up fuel' t (parent_id message) ((cid, message) :: ordered)
      end
    end
  end.

(** [children_map]: parent_id → list of children, each list sorted by id. *)
Definition children_map (msgs : list Row) : gmap (option Z) (list Row) :=
  let grouped :=
    foldl (λ cm msg,
             <[parent_id msg.2 := default [] (cm !! parent_id msg.2) ++ [msg]]> cm)
          ∅ msgs in
  merge_sort id_le <$> grouped.

(** The nested [dfs]; what it appends to [ordered] is what it returns here.
    [fuel] bounds the depth of the recursion. *)
Fixpoint dfs (fuel : nat) (cm : gmap (option Z) (list Row)) (parent : option Z)
    : option (list Row) :=
  match fuel with
  | O => None
  | S fuel' =>
    mjoin <$> mapM (λ msg, (msg ::.) <$> dfs fuel' cm (Some (id msg)))
                    (default [] (cm !! parent))
  end.

(** The list [ordered] that [get_messages_by_tree] builds. *)
Definition ordered_messages (t : table) (tree_id : Z) (message_id : option Z)
    : option (list Row) :=
  match message_id with
  | Some message_id => walk_up (S (size t)) t (Some message_id) []
  | None =>
    let msgs := select_where (λ r, simulation_id r.2 = tree_id) t in
    dfs (S (length msgs)) (children_map msgs) None
  end.

Record ConversationTurn := mkConversationTurn { party : string; statement : string }.

Record MessageDict := mkMessageDict {
  dict_id : Z;
  dict_parent_id : option Z;
  dict_role : string;
  dict_content : string;
  dict_simulation_id : Z
}.

Inductive traversal :=
  | Conversation (turns : list ConversationTurn)
  | Dicts (l : list MessageDict).

(** app/schemas.py *)
Definition messages_to_conversation (msgs : list Row) : list ConversationTurn :=
  (λ msg, mkConversationTurn (role msg.2) (content msg.2)) <$> msgs.

Definition message_dict (msg : Row) : MessageDict :=
  mkMessageDict (id msg) (parent_id msg.2) (role msg.2) (content msg.2)
                (simulation_id msg.2).

Definition get_messages_by_tree (tree_id : Z) (message_id : option Z)
    (to_conversation : bool) : M traversal := λ s,
  match ordered_messages (view s) tree_id message_id with
  | None => (Diverge, s)
  | Some ordered =>
    if to_conversation
    then (Return (Conversation (messages_to_conversation ordered)), s)
    else (Return (Dicts (message_dict <$> ordered)), s)
  end.

(** [GET /trees/{simulation_id}/messages/traversal] *)
Definition get_messages_by_tree_endpoint (simulation_id : Z) (message_id : option Z)
    : Database → outcome traversal * Database :=
  request (get_messages_by_tree simulation_id message_id false).

Definition get_tree (tree_id : Z) : M (list Row) := λ s,
  let msgs := select_where (λ r, simulation_id r.2 = tree_id) (view s) in
  match msgs with
  | [] => (Return [], s)
  | _ =>
    match dfs (S (length msgs)) (children_map msgs) None with
    | None => (Diverge, s)
    | Some ordered => (Return (merge_sort id_le ordered), s)
    end
  end.

(** ** Deletion (app/crud.py) *)

Fixpoint delete_descendants (fuel : nat) (message_id : Z) : M bool :=
  match fuel with
  | O => diverge
  | S fuel' =>
    let* children := session_exec (λ r, parent_id r.2 = Some message_id) in
    for_each children (λ child,
      delete_descendants fuel' (id child) ;;;
      session_delete (id child)) ;;;
    try_except (session_commit ;;; ret true)
               (λ _, session_rollback ;;; ret false)
  end.

(** The recursion of [delete_messages_including_children] is [delete_descendants];
    its depth is bounded by the number of rows unless the parent links have a
    cycle. *)
Definition delete_messages_including_children (message_id : Z) : M bool := λ s,
  delete_descendants (S (size (view s))) message_id s.

(** [max(child.id for child in children)] for a non-empty list. *)
Definition max_id (first : Row) (others : list Row) : Z :=
  foldl (λ acc child, Z.max acc (id child)) (id first) others.

Definition delete_messages_after_children (message_id : Z) : M Z :=
  let* target := session_get message_id in
  match target with
  | None => raise (ValueError ("Message with id=" +:+ pretty message_id +:+ " not found"))
  | Some target =>
    let* children := session_exec (λ r, parent_id r.2 = Some message_id) in
    let last_child_id :=
      match children with
      | child :: others => max_id child others
      | [] => message_id
      end in
    let* rowcount :=
      session_exec_delete
        (λ r, simulation_id r.2 = simulation_id target.2 ∧ last_child_id < id r) in
    session_commit ;;;
    ret rowcount
  end.

(** [DELETE /messages/trim-after/{message_id}] *)
Definition trim_messages_after_children (message_id : Z)
    : Database → outcome string * Database :=
  request
    (let* deleted_count :=
       try_except (delete_messages_after_children message_id)
         (λ e, match e with
               | ValueError _ => raise (HTTPException 404 (str_exn e))
               | _ => raise e
               end) in
     ret ("Deleted " +:+ pretty deleted_count +:+ " messages after message "
            +:+ pretty message_id +:+ " and its children.")).

(** ** Manual creation (app/api/routes/web_app.py) *)

(** [db.add(obj); db.commit(); db.refresh(obj)] *)
Definition add_commit_refresh (m : Message) : M Row :=
  let* k := session_add m in
  session_commit ;;;
  session_refresh k.

(** [POST /messages/create] *)
Definition create_message (simulation : Z) (parent : option Z) (text speaker_role : string)
    : Database → outcome Row * Database :=
  request (add_commit_refresh (mkMessage text speaker_role true simulation parent)).

(** ** Generation (app/schemas.py, app/api/routes/tree_generation.py) *)

Unset Elimination Schemes.
Inductive TreeNode := mkTreeNode {
  speaker : string;
  line : string;
  level : Z;
  reflects_personality : string;
  responses : list TreeNode
}.
Set Elimination Schemes.

(** The dictionary [create_tree] returns. *)
Record TreeData := mkTreeData {
  error : option string;
  raw_response : option string;
  scenarios_tree : TreeNode
}.

Definition error_tree : TreeData :=
  mkTreeData
    (Some "All 3 parallel attempts failed to generate valid response")
    (Some "Failed to parse JSON from all 3 API calls")
    (mkTreeNode "A" "Error: Could not generate proper dialogue tree" 1
                "System error occurred" []).

(** The loop over [as_completed(futures)]: the first result that is not
    [None] is returned. *)
Fixpoint first_valid (results : list (option TreeData)) : option TreeData :=
  match results with
  | [] => None
  | Some result :: _ => Some result
  | None :: rest => first_valid rest
  end.

(** [create_tree].  [api_key_configured] decides whether [get_boson_client]
    returns; [attempt i] is what the i-th submitted [_create_tree_single]
    returns ([None] when the call, the parsing or the validation of its reply
    failed); [completion_order] is the order in which the three futures
    complete. *)
Definition create_tree (api_key_configured : bool)
    (attempt : nat → option TreeData) (completion_order : list nat)
    : outcome TreeData :=
  if api_key_configured then
    match first_valid (attempt <$> completion_order) with
    | Some result => Return result
    | None => Return error_tree
    end
  else
    Raise (HTTPException 500
      ("Error creating tree: " +:+
       str_exn (HTTPException 500
         "BOSON_API_KEY not configured. Please set it in environment variables."))).

(** The level-2 and level-3 part of [save_messages_to_tree], which its two
    branches share word for word. *)
Definition save_responses (scenarios : TreeNode) (existing_tree_id : Z)
    (level1_msg : Row) : M unit :=
  let level2_responses := responses scenarios in
  let* level2_messages :=
    for_each level2_responses (λ level2_response,
      add_commit_refresh
        (mkMessage (line level2_response) (speaker level2_response) false
                   existing_tree_id (Some (id level1_msg)))) in
  for_each (imap (λ i r, (i, r)) level2_responses) (λ '(i, level2_response),
    match level2_messages !! i with
    | Some level2_msg =>
      for_each (responses level2_response) (λ level3_response,
        session_add
          (mkMessage (line level3_response) (speaker level3_response) false
                     existing_tree_id (Some (id level2_msg)))) ;;;
      ret ()
    | None => ret ()
    end) ;;;
  ret ().

Definition save_messages_to_tree (tree_data : TreeData) (existing_tree_id : Z)
    (last_message_id : option Z) : M bool :=
  try_except
    (let scenarios := scenarios_tree tree_data in
     match last_message_id with
     | None =>
       let* level1_msg :=
         add_commit_refresh
           (mkMessage (line scenarios) (speaker scenarios) true existing_tree_id None) in
       save_responses scenarios existing_tree_id level1_msg
     | Some last_message_id =>
       let* last_message := session_get last_message_id in
       match last_message with
       | None =>
         raise (HTTPException 404
                  ("Message with id " +:+ pretty last_message_id +:+ " not found"))
       | Some last_message => save_responses scenarios existing_tree_id last_message
       end
     end ;;;
     session_commit ;;;
     ret true)
    (λ e,
       session_rollback ;;;
       raise (HTTPException 500 ("Error saving messages to tree: " +:+ str_exn e))).

(** ** Specification predicates for selection *)

(** The two conditions [update_message_selected] checks on an existing
    message [m] with id [k]. *)
Definition parent_is_selected (t : table) (m : Message) : Prop :=
  ∀ p, parent_id m = Some p → ∃ pm, t !! p = Some pm ∧ selected pm = true.

Definition no_selected_sibling (t : table) (k : Z) (m : Message) : Prop :=
  ∀ k' m', t !! k' = Some m' → k' ≠ k → parent_id m' = parent_id m →
           simulation_id m' = simulation_id m → selected m' = false.

(** When [select] is legal on message [k] of table [t]. *)
Definition may_select (t : table) (k : Z) : Prop :=
  ∃ m, t !! k = Some m ∧ parent_is_selected t m ∧ no_selected_sibling t k m.

Definition commit_works (s : Session) : Prop := head (outages s) ≠ Some true.

(** The active-path invariant on the selected messages of a table: within a
    sibling group (same [parent_id], same simulation) at most one message is
    selected, and a selected message with a parent has that parent selected. *)
Definition active_path (t : table) : Prop :=
  (∀ k1 m1 k2 m2, t !! k1 = Some m1 → t !! k2 = Some m2 →
      selected m1 = true → selected m2 = true →
      parent_id m1 = parent_id m2 → simulation_id m1 = simulation_id m2 →
      k1 = k2) ∧
  (∀ k m p, t !! k = Some m → selected m = true → parent_id m = Some p →
      ∃ pm, t !! p = Some pm ∧ selected pm = true).

(** A sequence of [select] calls, each of which succeeds. *)
Fixpoint select_messages (ks : list Z) (d : Database) : option Database :=
  match ks with
  | [] => Some d
  | k :: ks' =>
    match select_message k d with
    | (Return _, d') => select_messages ks' d'
    | _ => None
    end
  end.

(** ** Specification predicates for trim-after *)

(** The cutoff of trim-after: the greatest id among the direct children of
    [n], or [n] when it has none. *)
Definition is_cutoff (t : table) (n c : Z) : Prop :=
  (∃ m, t !! c = Some m ∧ parent_id m = Some n ∧
        ∀ k' m', t !! k' = Some m' → parent_id m' = Some n → k' ≤ c) ∨
  ((∀ k' m', t !! k' = Some m' → parent_id m' ≠ Some n) ∧ c = n).

(** [last_child_id] as [delete_messages_after_children] computes it. *)
Definition cutoff (t : table) (n : Z) : Z :=
  match select_where (λ r, parent_id r.2 = Some n) t with
  | child :: others => max_id child others
  | [] => n
  end.

(** The rows the bulk delete of trim-after removes. *)
Definition doomed (target : Message) (c : Z) (r : Row) : Prop :=
  simulation_id r.2 = simulation_id target ∧ c < id r.

Global Instance doomed_dec target c r : Decision (doomed target c r).
Proof. unfold doomed. apply _. Defined.

(** ** Specification predicates for path mode *)

(** Parents were created before their children: a [parent_id] is smaller
    than the id of the row that carries it. *)
Definition well_ordered (t : table) : Prop :=
  map_Forall (λ k m, from_option (λ p, p < k) True (parent_id m)) t.

Global Instance well_ordered_dec t : Decision (well_ordered t).
Proof.
  unfold well_ordered. apply map_Forall_dec. intros k m.
  destruct (parent_id m); simpl; apply _.
Defined.

(** The path collected by walking the [parent_id] references up from
    [current], root end first: the walk ends at a root ([parent_id] null) or,
    silently, at an id that is not in the table. *)
Inductive climbs (t : table) : option Z → list Row → Prop :=
  | climbs_root : climbs t None []
  | climbs_missing k : t !! k = None → climbs t (Some k) []
  | climbs_step k m path :
      t !! k = Some m → climbs t (parent_id m) path →
      climbs t (Some k) (path ++ [(k, m)]).

(** ** Specification of the depth-first order *)

(** The sibling group under [parent] in simulation [tree]: the rows with
    that [parent_id], ascending by id. *)
Definition siblings (t : table) (tree : Z) (parent : option Z) : list Row :=
  merge_sort id_le
    (filter (λ r : Row, parent_id r.2 = parent)
            (select_where (λ r, simulation_id r.2 = tree) t)).

(** [depth_first t tree group out]: [out] lists the rows of [group] in
    order, each followed at once by the depth-first listing of its own sibling
    group, before the next row of [group]. *)
Inductive depth_first (t : table) (tree : Z) : list Row → list Row → Prop :=
  | depth_first_nil : depth_first t tree [] []
  | depth_first_cons kid rest branch out :
      depth_first t tree (siblings t tree (Some (id kid))) branch →
      depth_first t tree rest out →
      depth_first t tree (kid :: rest) (kid :: branch ++ out).

(** [descends t tree a k]: row [k] of simulation [tree] is a proper
    descendant of [a], through rows of that simulation. *)
Inductive descends (t : table) (tree : Z) : Z → Z → Prop :=
  | descends_child a k m :
      t !! k = Some m → simulation_id m = tree → parent_id m = Some a →
      descends t tree a k
  | descends_up a q k m :
      t !! k = Some m → simulation_id m = tree → parent_id m = Some q →
      descends t tree a q → descends t tree a k.

(** A list of rows of the sibling group under [p], ascending by id. *)
Definition group_ok (t : table) (tree : Z) (p : option Z) (group : list Row) : Prop :=
  StronglySorted (λ a b, id a < id b) group ∧
  ∀ g, g ∈ group → g ∈ siblings t tree p.

(** The selected rows of a simulation lie on one path: of two of them, the
    older is an ancestor of the newer. *)
Definition selected_chain (t : table) : Prop :=
  ∀ ka ma kb mb, t !! ka = Some ma → t !! kb = Some mb →
    selected ma = true → selected mb = true →
    simulation_id ma = simulation_id mb → ka < kb →
    descends t (simulation_id ma) ka kb.

(** [x] comes before [y] in [l]. *)
Definition precedes {A} (l : list A) (x y : A) : Prop :=
  ∃ l1 l2 l3, l = l1 ++ x :: l2 ++ y :: l3.

(** The measure that bounds the depth of [dfs]: the rows of the simulation
    whose id lies above that of [p]. *)
Definition id_above (p : option Z) (k : Z) : Prop :=
  match p with Some a => a < k | None => True end.

Global Instance id_above_dec p k : Decision (id_above p k).
Proof. destruct p; simpl; apply _. Defined.

Definition above (t : table) (tree : Z) (p : option Z) : table :=
  filter (λ r : Row, simulation_id r.2 = tree ∧ id_above p r.1) t.

(** Every [parent_id] refers to a row of the same simulation. *)
Definition parents_in_tree (t : table) : Prop :=
  map_Forall (λ _ m,
    match parent_id m with
    | Some p => simulation_id <$> t !! p = Some (simulation_id m)
    | None => True
    end) t.

Global Instance parents_in_tree_dec t : Decision (parents_in_tree t).
Proof.
  unfold parents_in_tree. apply map_Forall_dec. intros k m.
  destruct (parent_id m); apply _.
Defined.

(** ** Specification of the rows a generation call persists *)

(** Rows [ms] stored under consecutive ids from [sq] on. *)
Fixpoint insert_rows (sq : Z) (ms : list Message) (t : table) : table :=
  match ms with
  | [] => t
  | m :: ms' => insert_rows (sq + 1) ms' (<[sq := m]> t)
  end.

(** The row of a generated node under parent [parent] in simulation [tree]. *)
Definition response_row (tree : Z) (parent : Z) (node : TreeNode) : Message :=
  mkMessage (line node) (speaker node) false tree (Some parent).

(** The level-2 rows of a generated tree, children of [level1]. *)
Definition level2_rows (tree level1 : Z) (scenarios : TreeNode) : list Message :=
  response_row tree level1 <$> responses scenarios.

(** Its level-3 rows, when the level-2 rows got the ids [base], [base + 1], ... *)
Definition level3_rows (tree base : Z) (scenarios : TreeNode) : list Message :=
  mjoin (imap (λ i level2, response_row tree (base + Z.of_nat i) <$> responses level2)
              (responses scenarios)).

(** The number of level-2 and level-3 nodes of a generated tree. *)
Definition generated_count (scenarios : TreeNode) : nat :=
  length (responses scenarios)
  + sum_list_with (λ level2, length (responses level2)) (responses scenarios).

(** What persisting the responses of [scenarios] under the level-1 row
    [level1] turns table [t] into, the level-2 rows getting the ids [base],
    [base + 1], ...: the rows of [t] are kept; exactly the level-2 and level-3
    nodes are added; each level-2 row is a child of [level1] with a greater id;
    each level-3 row is a child of its level-2 row with a greater id. *)
Definition persisted_under (t t' : table) (tree level1 base : Z)
    (scenarios : TreeNode) : Prop :=
  (∀ k m, t !! k = Some m → t' !! k = Some m) ∧
  size t' = (size t + generated_count scenarios)%nat ∧
  (∀ i level2, responses scenarios !! i = Some level2 →
     level1 < base + Z.of_nat i ∧
     t !! (base + Z.of_nat i) = None ∧
     t' !! (base + Z.of_nat i) = Some (response_row tree level1 level2) ∧
     ∀ level3, level3 ∈ responses level2 →
       ∃ k3, base + Z.of_nat i < k3 ∧ t !! k3 = None ∧
             t' !! k3 = Some (response_row tree (base + Z.of_nat i) level3)) ∧
  (∀ k m, t' !! k = Some m → t !! k = None →
     (∃ i level2, responses scenarios !! i = Some level2 ∧ k = base + Z.of_nat i ∧
                  m = response_row tree level1 level2) ∨
     (∃ i level2 level3, responses scenarios !! i = Some level2 ∧
                  level3 ∈ responses level2 ∧ base + Z.of_nat i < k ∧
                  m = response_row tree (base + Z.of_nat i) level3)).

(** No row has an id the sequence has yet to hand out. *)
Definition fresh_ids (d : Database) : Prop :=
  map_Forall (λ k _, k < message_id_seq d) (messages d).

Global Instance fresh_ids_dec d : Decision (fresh_ids d).
Proof. unfold fresh_ids. apply _. Defined.

(** ** Example stores *)

Definition ex_message (sel : bool) (parent : option Z) : Message :=
  mkMessage "text" "A" sel 1 parent.

(** A simulation with root 1 and its replies 2, 3 and 4; the root and reply 2
    are selected. *)
Definition ex_table : table :=
  list_to_map [(1, ex_message true None); (2, ex_message true (Some 1));
               (3, ex_message false (Some 1)); (4, ex_message false (Some 1))].

Definition ex_db : Database := mkDatabase ex_table 5 [].

(** A chain 1 ← 2 ← 3. *)
Definition ex_chain : table :=
  list_to_map [(1, ex_message false None); (2, ex_message false (Some 1));
               (3, ex_message false (Some 2))].

(** A generated tree with one level-2 response and one level-3 follow-up. *)
Definition ex_tree : TreeData :=
  mkTreeData None None
    (mkTreeNode "A" "opening" 1 "firm"
       [mkTreeNode "B" "reply" 2 "wary" [mkTreeNode "A" "follow-up" 3 "firm" []]]).

(** A forest: roots 1 and 6; 2 and 3 under 1; 4 and 7 under 2; 5 under 3. *)
Definition ex_forest : table :=
  list_to_map [(1, ex_message false None); (2, ex_message false (Some 1));
               (3, ex_message false (Some 1)); (4, ex_message false (Some 2));
               (5, ex_message false (Some 3)); (6, ex_message false None);
               (7, ex_message false (Some 2))].

(** ** Further queries (app/crud.py, app/api/routes/web_app.py) *)

(** [get_selected_messages_between]; [order_by(Message.id)] is the sort. *)
Definition get_selected_messages_between (start_id end_id : Z) : M (list Row) := λ s,
  (Return (merge_sort id_le
             (select_where (λ r, selected r.2 = true ∧ start_id ≤ id r ∧ id r ≤ end_id)
                           (view s))), s).

(** [GET /messages/selected-path].  The dictionaries it returns hold the id
    and every column of a row, so a row stands for its dictionary. *)
Definition get_selected_messages_path (start_id end_id : Z)
    : Database → outcome (list Row) * Database :=
  request
    (if decide (end_id < start_id)
     then raise (HTTPException 400 "start_id must be <= end_id")
     else
       let* msgs := get_selected_messages_between start_id end_id in
       match msgs with
       | [] => raise (HTTPException 404 "No selected messages found in this range")
       | _ => ret msgs
       end).

(** [get_message_children] *)
Definition get_message_children (message_id : Z) : M (list Row) :=
  session_exec (λ r, parent_id r.2 = Some message_id).

(** [GET /messages/{message_id}/children] *)
Definition get_children (message_id : Z) : Database → outcome (list Row) * Database :=
  request (get_message_children message_id).

(** ** Further specification predicates *)

(** [same_columns m m']: [m'] is [m] up to its [selected] flag. *)
Definition same_columns (m m' : Message) : Prop :=
  content m' = content m ∧ role m' = role m ∧
  simulation_id m' = simulation_id m ∧ parent_id m' = parent_id m.

(** [t'] has the rows of [t], with the same columns, and no flag cleared. *)
Definition flags_raised (t t' : table) : Prop :=
  (∀ k, is_Some (t' !! k) ↔ is_Some (t !! k)) ∧
  (∀ k m, t !! k = Some m →
     ∃ m', t' !! k = Some m' ∧ same_columns m m' ∧
           (selected m = true → selected m' = true)).

(** [below t a k]: row [k] is a proper descendant of [a] through the
    [parent_id] references, whatever the simulations of the rows. *)
Inductive below (t : table) : Z → Z → Prop :=
  | below_child a k m :
      t !! k = Some m → parent_id m = Some a → below t a k
  | below_up a q k m :
      t !! k = Some m → parent_id m = Some q → below t a q → below t a k.

(** ** The nested tree ([get_tree_messages_endpoint]) *)

(** An entry of the JSON hierarchy: [id], [role], [content], [children]. *)
Unset Elimination Schemes.
Inductive TreeJson := mkTreeJson {
  json_id : Z;
  json_role : string;
  json_content : string;
  json_children : list TreeJson
}.
Set Elimination Schemes.

(** The nested [build_tree]; [fuel] bounds the depth of the recursion. *)
Fixpoint build_tree (fuel : nat) (by_parent : gmap (option Z) (list Row))
    (parent : option Z) : option (list TreeJson) :=
  match fuel with
  | O => None
  | S fuel' =>
    mapM (λ msg, mkTreeJson (id msg) (role msg.2) (content msg.2)
                   <$> build_tree fuel' by_parent (Some (id msg)))
         (default [] (by_parent !! parent))
  end.

(** [GET /trees/{simulation_id}/messages]; [by_parent] is built and sorted
    as [children_map] is. *)
Definition get_tree_messages_endpoint (simulation : Z)
    : Database → outcome (list TreeJson) * Database :=
  request
    (let* msgs := get_tree simulation in
     match msgs with
     | [] => raise (HTTPException 404 "No messages found for this simulation_id")
     | _ => λ s,
       match build_tree (S (length msgs)) (children_map msgs) None with
       | Some tree_json => (Return tree_json, s)
       | None => (Diverge, s)
       end
     end).

(** The entries of a hierarchy in document order: an entry, then what its
    [children] hold, then the entries after it. *)
Fixpoint document_order (j : TreeJson) : list (Z * string * string) :=
  (json_id j, json_role j, json_content j)
    :: (fix go (l : list TreeJson) :=
          match l with
          | [] => []
          | c :: l' => document_order c ++ go l'
          end) (json_children j).

Definition document_order_list (l : list TreeJson) : list (Z * string * string) :=
  mjoin (document_order <$> l).

Definition entry (msg : Row) : Z * string * string :=
  (id msg, role msg.2, content msg.2).

(** Strictly ascending ids. *)
Definition id_lt : relation Row := λ a b, id a < id b.

(** ** What a traversal shows of a generated tree *)

(** The speaker and the line of a generated node, and of a stored row. *)
Definition node_turn (node : TreeNode) : string * string := (speaker node, line node).

Definition row_turn (msg : Row) : string * string := (role msg.2, content msg.2).

(** The first three levels of a generated tree, each level-2 response
    followed at once by its own responses. *)
Definition three_levels (scenarios : TreeNode) : list (string * string) :=
  node_turn scenarios
    :: mjoin ((λ level2, node_turn level2 :: (node_turn <$> responses level2))
                <$> responses scenarios).

(** The rows [save_messages_to_tree] stores for a new conversation when the
    sequence stands at [sq]: the root, the level-2 rows, the level-3 rows. *)
Definition saved_messages (tree sq : Z) (scenarios : TreeNode) : list Message :=
  mkMessage (line scenarios) (speaker scenarios) true tree None
    :: level2_rows tree sq scenarios ++ level3_rows tree (sq + 1) scenarios.

Definition saved_rows (tree sq : Z) (scenarios : TreeNode) : list Row :=
  imap (λ j m, (sq + Z.of_nat j, m)) (saved_messages tree sq scenarios).

(** * Properties *)

(** ** Queries *)

Lemma elem_of_rows (t : table) (r : Row) : r ∈ rows t ↔ t !! r.1 = Some r.2.
Proof.
  unfold rows. rewrite merge_sort_Permutation. destruct r as [k m].
  apply elem_of_map_to_list.
Qed.

Lemma elem_of_select_where (P : Row → Prop) `{!∀ r, Decision (P r)} (t : table) (r : Row) :
  r ∈ select_where P t ↔ P r ∧ t !! r.1 = Some r.2.
Proof. unfold select_where. by rewrite list_elem_of_filter, elem_of_rows. Qed.

Lemma head_select_where_None (P : Row → Prop) `{!∀ r, Decision (P r)} (t : table) :
  head (select_where P t) = None ↔ ∀ k m, t !! k = Some m → ¬ P (k, m).
Proof.
  rewrite head_None. split.
  - intros E k m Hk HP.
    assert (Hin : (k, m) ∈ select_where P t) by (apply elem_of_select_where; done).
    rewrite E in Hin. by apply not_elem_of_nil in Hin.
  - intros Hall. destruct (select_where P t) as [|[k m] l] eqn:E; [done|].
    assert (Hin : (k, m) ∈ select_where P t) by (rewrite E; left).
    apply elem_of_select_where in Hin as [HP Hk]. by destruct (Hall k m Hk).
Qed.

Lemma head_select_where_Some (P : Row → Prop) `{!∀ r, Decision (P r)} (t : table) r :
  head (select_where P t) = Some r → P r ∧ t !! r.1 = Some r.2.
Proof.
  intros Hhd. rewrite <- elem_of_select_where. apply head_Some in Hhd as [l ->]. left.
Qed.

(** ** Selection *)

Section update_message_selected.
Variables (s : Session) (k : Z).

Lemma update_message_selected_missing :
  view s !! k = None →
  update_message_selected k s = (Raise (HTTPException 404 "Message not found"), s).
Proof.
  intros Hk. unfold update_message_selected, bind, session_get. simpl.
  by rewrite Hk.
Qed.

Lemma update_message_selected_parent m :
  view s !! k = Some m → ¬ parent_is_selected (view s) m →
  update_message_selected k s = (Raise parent_not_selected, s).
Proof.
  intros Hk Hpar. unfold update_message_selected, bind, session_get. simpl.
  rewrite Hk. simpl. destruct (parent_id m) as [p|] eqn:Hp.
  - simpl. destruct (view s !! p) as [pm|] eqn:Hpm; simpl; [|done].
    destruct (selected pm) eqn:Hsel; [|done].
    destruct Hpar. intros p' Hp'. rewrite Hp in Hp'. injection Hp' as <-. eauto.
  - destruct Hpar. intros p' Hp'. congruence.
Qed.

Lemma parent_check_passes m :
  parent_is_selected (view s) m →
  match parent_id m with
  | Some pid =>
     let* parent := session_get pid in
     match parent with
     | Some parent => if selected parent.2 then ret () else raise parent_not_selected
     | None => raise parent_not_selected
     end
  | None => ret ()
  end s = (Return (), s).
Proof.
  intros Hpar. destruct (parent_id m) as [p|] eqn:Hp; [|done].
  destruct (Hpar p Hp) as (pm & Hpm & Hsel).
  unfold bind, session_get. simpl. rewrite Hpm. simpl. by rewrite Hsel.
Qed.

Lemma update_message_selected_sibling m :
  view s !! k = Some m → parent_is_selected (view s) m →
  ¬ no_selected_sibling (view s) k m →
  ∃ k' m', view s !! k' = Some m' ∧ sibling_query k m (k', m') ∧
    update_message_selected k s = (Raise (sibling_already_selected k'), s).
Proof.
  intros Hk Hpar Hsib. unfold update_message_selected.
  unfold bind at 1. unfold session_get at 1. simpl. rewrite Hk. simpl.
  unfold bind at 1. rewrite (parent_check_passes m Hpar).
  unfold bind, session_first. simpl.
  destruct (head (select_where (sibling_query k m) (view s))) as [[k' m']|] eqn:Hh.
  - apply head_select_where_Some in Hh as [Hq Hk']. eauto.
  - destruct Hsib. intros k' m' Hk' Hne Hp Hs.
    rewrite head_select_where_None in Hh.
    destruct (selected m') eqn:Hsel; [|done].
    destruct (Hh k' m' Hk'). done.
Qed.

Lemma update_message_selected_ok m :
  view s !! k = Some m → parent_is_selected (view s) m →
  no_selected_sibling (view s) k m → commit_works s →
  update_message_selected k s =
    (Return (k, set_selected true m),
     let t' := <[k := set_selected true m]> (view s) in
     mkSession t' t' (seq s) (tail (outages s))).
Proof.
  intros Hk Hpar Hsib Hc. unfold update_message_selected.
  unfold bind at 1. unfold session_get at 1. simpl. rewrite Hk. simpl.
  unfold bind at 1. rewrite (parent_check_passes m Hpar).
  unfold bind, session_first. simpl.
  rewrite (proj2 (head_select_where_None _ (view s))).
  2:{ intros k' m' Hk' (Hp & Hne & Hs & Hsel). simpl in *.
      rewrite (Hsib k' m') in Hsel; done. }
  unfold session_commit, session_refresh. simpl.
  unfold commit_works in Hc.
  destruct (outages s) as [|[] o]; simpl in *; try done;
    by rewrite lookup_insert_eq.
Qed.
Lemma update_message_selected_commit_fails m :
  view s !! k = Some m → parent_is_selected (view s) m →
  no_selected_sibling (view s) k m → ¬ commit_works s →
  ∃ s', update_message_selected k s = (Raise SQLAlchemyError, s') ∧
        durable s' = durable s.
Proof.
  intros Hk Hpar Hsib Hc. unfold update_message_selected.
  unfold bind at 1. unfold session_get at 1. simpl. rewrite Hk. simpl.
  unfold bind at 1. rewrite (parent_check_passes m Hpar).
  unfold bind, session_first. simpl.
  rewrite (proj2 (head_select_where_None _ (view s))).
  2:{ intros k' m' Hk' (Hp & Hne & Hs & Hsel). simpl in *.
      rewrite (Hsib k' m') in Hsel; done. }
  unfold session_commit, session_refresh. simpl.
  unfold commit_works in Hc.
  destruct (outages s) as [|[] o]; simpl in *;
    [by destruct Hc | by eexists | by destruct Hc].
Qed.
End update_message_selected.

Global Instance parent_is_selected_dec t m : Decision (parent_is_selected t m).
Proof.
  unfold parent_is_selected. destruct (parent_id m) as [p|].
  - destruct (t !! p) as [pm|] eqn:Hp.
    + destruct (selected pm) eqn:Hsel.
      * left. intros ? [= <-]. eauto.
      * right. intros Hall. destruct (Hall p eq_refl) as (pm' & ? & ?). congruence.
    + right. intros Hall. destruct (Hall p eq_refl) as (pm' & ? & ?). congruence.
  - left. intros ? [=].
Defined.

Global Instance no_selected_sibling_dec t k m : Decision (no_selected_sibling t k m).
Proof.
  destruct (head (select_where (sibling_query k m) t)) as [r|] eqn:Hh.
  - right. apply head_select_where_Some in Hh as [(Hp & Hne & Hs & Hsel) Hr].
    intros Hno. rewrite (Hno r.1 r.2) in Hsel; done.
  - left. rewrite head_select_where_None in Hh. intros k' m' Hk' Hne Hp Hs.
    destruct (selected m') eqn:Hsel; [|done]. by destruct (Hh k' m' Hk').
Defined.

Global Instance may_select_dec t k : Decision (may_select t k).
Proof.
  unfold may_select. destruct (t !! k) as [m|] eqn:Hk.
  - destruct (decide (parent_is_selected t m ∧ no_selected_sibling t k m)) as [Hy|Hn].
    + left. eauto.
    + right. intros (m' & [= <-] & ?). done.
  - right. intros (m' & [=] & _).
Defined.

Lemma update_message_selected_Return s k r s' :
  update_message_selected k s = (Return r, s') →
  ∃ m, view s !! k = Some m ∧ parent_is_selected (view s) m ∧
       no_selected_sibling (view s) k m ∧ r = (k, set_selected true m) ∧
       view s' = <[k := set_selected true m]> (view s) ∧ durable s' = view s' ∧
       seq s' = seq s.
Proof.
  intros Hr. destruct (view s !! k) as [m|] eqn:Hk.
  2:{ by rewrite (update_message_selected_missing s k Hk) in Hr. }
  destruct (decide (parent_is_selected (view s) m)) as [Hpar|Hpar].
  2:{ by rewrite (update_message_selected_parent s k m Hk Hpar) in Hr. }
  destruct (decide (no_selected_sibling (view s) k m)) as [Hsib|Hsib].
  2:{ destruct (update_message_selected_sibling s k m Hk Hpar Hsib)
        as (k' & m' & _ & _ & E). by rewrite E in Hr. }
  destruct (decide (commit_works s)) as [Hc|Hc].
  2:{ destruct (update_message_selected_commit_fails s k m Hk Hpar Hsib Hc)
        as (s'' & E & _). by rewrite E in Hr. }
  rewrite (update_message_selected_ok s k m Hk Hpar Hsib Hc) in Hr.
  injection Hr as <- <-. exists m. done.
Qed.

(** C1.  On a database whose next commit is not failed by the store,
    [select_message k] returns (the message, now selected and committed)
    exactly when message [k] exists, its parent, if it has one, is selected,
    and no other message with the same parent and simulation is selected.
    Otherwise it raises and the database is what it was: 404 when the message
    is missing, else 400 either saying that the parent is not selected or
    naming the id of a selected sibling. *)
Theorem select_message_spec (d : Database) (k : Z) :
  head (faults d) ≠ Some true →
  (may_select (messages d) k ↔ ∃ r, (select_message k d).1 = Return r) ∧
  (∀ m, may_select (messages d) k → messages d !! k = Some m →
     select_message k d =
       (Return (k, set_selected true m),
        mkDatabase (<[k := set_selected true m]> (messages d))
                   (message_id_seq d) (tail (faults d)))) ∧
  (¬ may_select (messages d) k →
     ∃ e, select_message k d = (Raise e, d) ∧
       (messages d !! k = None → e = HTTPException 404 "Message not found") ∧
       (∀ m, messages d !! k = Some m →
          (e = parent_not_selected ∧ ¬ parent_is_selected (messages d) m) ∨
          (∃ k' m', e = sibling_already_selected k' ∧
                messages d !! k' = Some m' ∧ k' ≠ k ∧ parent_id m' = parent_id m ∧
                simulation_id m' = simulation_id m ∧ selected m' = true))).
Proof.
  intros Hf.
  assert (Hok : ∀ m, may_select (messages d) k → messages d !! k = Some m →
     select_message k d =
       (Return (k, set_selected true m),
        mkDatabase (<[k := set_selected true m]> (messages d))
                   (message_id_seq d) (tail (faults d)))).
  { intros m (m' & Hk' & Hpar & Hsib) Hk. rewrite Hk in Hk'. injection Hk' as <-.
    unfold select_message, request.
    rewrite (update_message_selected_ok (open_session d) k m); done. }
  assert (Hbad : ¬ may_select (messages d) k →
     ∃ e, select_message k d = (Raise e, d) ∧
       (messages d !! k = None → e = HTTPException 404 "Message not found") ∧
       (∀ m, messages d !! k = Some m →
          (e = parent_not_selected ∧ ¬ parent_is_selected (messages d) m) ∨
          (∃ k' m', e = sibling_already_selected k' ∧
                messages d !! k' = Some m' ∧ k' ≠ k ∧ parent_id m' = parent_id m ∧
                simulation_id m' = simulation_id m ∧ selected m' = true))).
  { intros Hno. unfold select_message, request.
    assert (Hcl : close_session (open_session d) = d) by by destruct d.
    destruct (messages d !! k) as [m|] eqn:Hk.
    - destruct (decide (parent_is_selected (messages d) m)) as [Hpar|Hpar].
      + destruct (decide (no_selected_sibling (messages d) k m)) as [Hsib|Hsib].
        { destruct Hno. exists m. done. }
        destruct (update_message_selected_sibling (open_session d) k m Hk Hpar Hsib)
          as (k' & m' & Hk' & (Hp & Hne & Hs & Hsel) & E).
        rewrite E, Hcl. eexists. split; [done|]. split; [done|].
        intros ? [= <-]. right. exists k', m'. done.
      + rewrite (update_message_selected_parent (open_session d) k m Hk Hpar), Hcl.
        eexists. split; [done|]. split; [done|]. intros ? [= <-]. by left.
    - rewrite (update_message_selected_missing (open_session d) k Hk), Hcl.
      eexists. split; [done|]. split; done. }
  split_and!; [|done..].
  split.
  - intros Hy. destruct (Hy) as (m & Hk & _). rewrite (Hok m Hy Hk). eauto.
  - intros [r Hr]. destruct (decide (may_select (messages d) k)) as [|Hn]; [done|].
    destruct (Hbad Hn) as (e & E & _). by rewrite E in Hr.
Qed.

Lemma select_message_spec_witness :
  select_message 3 (mkDatabase ex_chain 4 []) =
    (Raise parent_not_selected, mkDatabase ex_chain 4 []) ∧
  select_message 1 (mkDatabase ex_chain 4 []) =
    (Return (1, ex_message true None),
     mkDatabase (<[1 := ex_message true None]> ex_chain) 4 []).
Proof.
  destruct (select_message_spec (mkDatabase ex_chain 4 []) 3) as (_ & _ & Hbad); [done|].
  destruct (select_message_spec (mkDatabase ex_chain 4 []) 1) as (_ & Hok & _); [done|].
  split.
  - destruct Hbad as (e & E & _ & He).
    { apply (bool_decide_unpack (¬ may_select ex_chain 3)). by vm_compute. }
    destruct (He (ex_message false (Some 2)) eq_refl) as [[-> _]|(k' & m' & _ & Hk' & _ & _ & _ & Hsel)].
    + exact E.
    + exfalso. revert Hk' Hsel. cbn [messages].
      assert (Hall : map_Forall (λ _ m, selected m = false) ex_chain)
        by (apply (bool_decide_unpack _); by vm_compute).
      intros Hk' Hsel. rewrite (Hall k' m' Hk') in Hsel. done.
  - apply (Hok (ex_message false None)); [|done].
    apply (bool_decide_unpack (may_select ex_chain 1)). by vm_compute.
Defined.

(** ** The active path *)

Lemma select_message_Return d k r d' :
  select_message k d = (Return r, d') →
  ∃ m, messages d !! k = Some m ∧ parent_is_selected (messages d) m ∧
       no_selected_sibling (messages d) k m ∧
       messages d' = <[k := set_selected true m]> (messages d).
Proof.
  unfold select_message, request.
  destruct (update_message_selected k (open_session d)) as [o s'] eqn:E.
  intros [= -> <-]. apply update_message_selected_Return in E
    as (m & Hk & Hpar & Hsib & _ & Hv & Hd & _).
  exists m. simpl in *. by rewrite Hd, Hv.
Qed.

Lemma active_path_select t k m :
  t !! k = Some m → parent_is_selected t m → no_selected_sibling t k m →
  active_path t → active_path (<[k := set_selected true m]> t).
Proof.
  intros Hk Hpar Hsib [Huniq Hconn]. split.
  - intros k1 m1 k2 m2 H1 H2 S1 S2 Hp Hs.
    destruct (decide (k1 = k)) as [->|N1]; destruct (decide (k2 = k)) as [->|N2];
      [done|..].
    + rewrite lookup_insert_eq in H1. rewrite lookup_insert_ne in H2 by done.
      injection H1 as <-. simpl in *.
      rewrite (Hsib k2 m2) in S2; done.
    + rewrite lookup_insert_eq in H2. rewrite lookup_insert_ne in H1 by done.
      injection H2 as <-. simpl in *.
      rewrite (Hsib k1 m1) in S1; done.
    + rewrite lookup_insert_ne in H1, H2 by done. eauto.
  - intros k1 m1 p H1 S1 Hp.
    assert (∃ pm, t !! p = Some pm ∧ selected pm = true) as (pm & Hpm & Spm).
    { destruct (decide (k1 = k)) as [->|N1].
      - rewrite lookup_insert_eq in H1. injection H1 as <-. simpl in *. eauto.
      - rewrite lookup_insert_ne in H1 by done. eauto. }
    destruct (decide (p = k)) as [->|Np].
    + rewrite lookup_insert_eq. eauto.
    + rewrite lookup_insert_ne by done. eauto.
Qed.

Lemma active_path_alt (t : table) :
  active_path t ↔
  map_Forall (λ k1 m1, map_Forall (λ k2 m2,
      selected m1 = true → selected m2 = true → parent_id m1 = parent_id m2 →
      simulation_id m1 = simulation_id m2 → k1 = k2) t) t ∧
  map_Forall (λ k m, selected m = true →
      from_option (λ p, selected <$> t !! p = Some true) True (parent_id m)) t.
Proof.
  unfold active_path, map_Forall. split; intros [Hu Hc]; split.
  - intros k1 m1 H1 k2 m2 H2. eauto.
  - intros k m Hk Hs. destruct (parent_id m) as [p|] eqn:Hp; simpl; [|done].
    destruct (Hc k m p Hk Hs Hp) as (pm & -> & Hpm). simpl. by rewrite Hpm.
  - intros k1 m1 k2 m2 H1 H2. by apply Hu.
  - intros k m p Hk Hs Hp. specialize (Hc k m Hk Hs). rewrite Hp in Hc. simpl in Hc.
    destruct (t !! p) as [pm|]; [|done]. injection Hc as Hc. eauto.
Qed.

Global Instance active_path_dec (t : table) : Decision (active_path t).
Proof.
  assert (Hdec : Decision (
    map_Forall (λ k1 m1, map_Forall (λ k2 m2,
        selected m1 = true → selected m2 = true → parent_id m1 = parent_id m2 →
        simulation_id m1 = simulation_id m2 → k1 = k2) t) t ∧
    map_Forall (λ k m, selected m = true →
        from_option (λ p, selected <$> t !! p = Some true) True (parent_id m)) t)).
  { apply and_dec; [apply _|].
    apply map_Forall_dec. intros k m. apply impl_dec; [apply _|].
    destruct (parent_id m); simpl; apply _. }
  destruct Hdec as [Hy|Hn]; [left|right]; by rewrite active_path_alt.
Defined.

(** ** Trim *)

Lemma NoDup_rows (t : table) : NoDup (rows t).
Proof. unfold rows. rewrite merge_sort_Permutation. apply NoDup_map_to_list. Qed.

Lemma length_select_where (P : Row → Prop) `{!∀ r, Decision (P r)} (t : table) :
  length (select_where P t) = size (filter P t).
Proof.
  rewrite <- length_map_to_list. apply Permutation_length, NoDup_Permutation.
  - apply NoDup_filter, NoDup_rows.
  - apply NoDup_map_to_list.
  - intros [k m]. rewrite elem_of_select_where, elem_of_map_to_list,
      map_lookup_filter_Some. simpl. tauto.
Qed.

Lemma size_filter_complement (P : Row → Prop) `{!∀ r, Decision (P r)} (t : table) :
  (size (filter P t) + size (filter (λ r, ¬ P r) t) = size t)%nat.
Proof.
  rewrite <- (map_filter_union_complement P t) at 3.
  rewrite map_size_disj_union; [done|].
  apply map_disjoint_filter_complement.
Qed.

Lemma max_id_spec (first : Row) (others : list Row) :
  (∃ r, r ∈ first :: others ∧ id r = max_id first others) ∧
  (∀ r, r ∈ first :: others → id r ≤ max_id first others).
Proof.
  unfold max_id. revert first.
  induction others as [|x l IH]; intros first; simpl.
  - split; [exists first; split; [left|done]|].
    intros r ->%list_elem_of_singleton. lia.
  - set (acc := Z.max (id first) (id x)).
    assert (Hacc : ∃ a : Row, a ∈ [first; x] ∧ id a = acc).
    { destruct (Z.max_spec (id first) (id x)) as [[? E]|[? E]]; fold acc in E.
      - exists x. split; [right; left|done].
      - exists first. split; [left|done]. }
    destruct Hacc as (a & Ha & Hida).
    destruct (IH a) as [(r & Hr & Er) Hle]. rewrite Hida in Er, Hle.
    split.
    + exists r. split; [|done].
      apply elem_of_cons in Hr as [->|Hr]; [|by do 2 right].
      apply elem_of_cons in Ha as [->|Ha]; [left|].
      apply list_elem_of_singleton in Ha as ->. right; left.
    + intros r' Hr'.
      assert (id a ≤ foldl (λ acc child, Z.max acc (id child)) acc l)
        by (apply Hle; left).
      assert (id first ≤ acc ∧ id x ≤ acc) as [? ?] by (unfold acc; lia).
      apply elem_of_cons in Hr' as [->|[->|Hr']%elem_of_cons]; [lia..|].
      apply Hle. by right.
Qed.

Lemma cutoff_is_cutoff (t : table) (n : Z) : is_cutoff t n (cutoff t n).
Proof.
  unfold cutoff, is_cutoff.
  destruct (select_where (λ r, parent_id r.2 = Some n) t) as [|c o] eqn:E.
  - right. split; [|done]. intros k m Hk Hp.
    assert (Hin : (k, m) ∈ select_where (λ r, parent_id r.2 = Some n) t)
      by (by apply elem_of_select_where).
    rewrite E in Hin. by apply not_elem_of_nil in Hin.
  - left. destruct (max_id_spec c o) as [(r & Hr & Er) Hle].
    rewrite <- E in Hr. apply elem_of_select_where in Hr as [Hp Hk].
    exists r.2. rewrite <- Er. split_and!; [done..|].
    intros k m Hkm Hpm. rewrite Er. apply (Hle (k, m)). rewrite <- E.
    by apply elem_of_select_where.
Qed.

Lemma is_cutoff_unique (t : table) (n c1 c2 : Z) :
  is_cutoff t n c1 → is_cutoff t n c2 → c1 = c2.
Proof.
  intros [(m1 & H1 & P1 & L1)|[N1 ->]] [(m2 & H2 & P2 & L2)|[N2 ->]].
  - specialize (L1 _ _ H2 P2). specialize (L2 _ _ H1 P1). lia.
  - by destruct (N2 _ _ H1).
  - by destruct (N1 _ _ H2).
  - done.
Qed.

Lemma delete_messages_after_children_ok (s : Session) (n : Z) (target : Message) :
  view s !! n = Some target → commit_works s →
  delete_messages_after_children n s =
    (Return (Z.of_nat (size (filter (doomed target (cutoff (view s) n)) (view s)))),
     let t' := filter (λ r, ¬ doomed target (cutoff (view s) n) r) (view s) in
     mkSession t' t' (seq s) (tail (outages s))).
Proof.
  intros Hn Hc. unfold delete_messages_after_children, bind, session_get. simpl.
  rewrite Hn. simpl. unfold session_commit. simpl. fold (cutoff (view s) n).
  unfold doomed. simpl. rewrite length_select_where.
  unfold commit_works in Hc. by destruct (outages s) as [|[] o].
Qed.

Lemma delete_messages_after_children_missing (s : Session) (n : Z) :
  view s !! n = None →
  delete_messages_after_children n s =
    (Raise (ValueError ("Message with id=" +:+ pretty n +:+ " not found")), s).
Proof.
  intros Hn. unfold delete_messages_after_children, bind, session_get. simpl.
  by rewrite Hn.
Qed.

Lemma is_cutoff_bounds (t : table) (n c : Z) :
  is_cutoff t n c →
  (∀ k m, t !! k = Some m → parent_id m = Some n → k ≤ c) ∧
  ((∀ k m, t !! k = Some m → parent_id m = Some n → n < k) → n ≤ c).
Proof.
  intros [(m & Hc & Hp & Hle)|[Hno ->]]; split.
  - done.
  - intros Hlt. specialize (Hlt c m Hc Hp). lia.
  - intros k m Hk Hp. by destruct (Hno k m Hk).
  - lia.
Qed.

(** C3.  [trim-after] on an existing message [n]: the cutoff is the
    greatest id among the direct children of [n], or [n] itself when it has
    none; exactly the rows of the target's simulation with an id above the
    cutoff are deleted and every other row is kept as it was; the number of
    deleted rows is returned; the direct children survive, and so does [n]
    when its children were created after it.  On a missing message the
    operation fails with a 404 and changes nothing. *)
Theorem trim_after_spec (d : Database) (n : Z) :
  head (faults d) ≠ Some true →
  (messages d !! n = None →
     trim_messages_after_children n d =
       (Raise (HTTPException 404 ("Message with id=" +:+ pretty n +:+ " not found")), d)) ∧
  (∀ target, messages d !! n = Some target →
     ∃ c d',
       is_cutoff (messages d) n c ∧
       request (delete_messages_after_children n) d =
         (Return (Z.of_nat (size (messages d) - size (messages d'))), d') ∧
       trim_messages_after_children n d =
         (Return ("Deleted " +:+ pretty (Z.of_nat (size (messages d) - size (messages d')))
                    +:+ " messages after message " +:+ pretty n +:+ " and its children."),
          d') ∧
       (∀ k m, messages d' !! k = Some m ↔
               messages d !! k = Some m ∧
               ¬ (simulation_id m = simulation_id target ∧ c < k)) ∧
       (∀ k m, messages d !! k = Some m → parent_id m = Some n →
               messages d' !! k = Some m) ∧
       ((∀ k m, messages d !! k = Some m → parent_id m = Some n → n < k) →
        messages d' !! n = Some target)).
Proof.
  intros Hf. split.
  - intros Hn. unfold trim_messages_after_children, request, bind, try_except.
    rewrite (delete_messages_after_children_missing (open_session d) n Hn).
    simpl. by destruct d.
  - intros target Hn.
    set (c := cutoff (messages d) n).
    set (t' := filter (λ r, ¬ doomed target c r) (messages d)).
    exists c, (mkDatabase t' (message_id_seq d) (tail (faults d))).
    pose proof (cutoff_is_cutoff (messages d) n) as Hc. fold c in Hc.
    destruct (is_cutoff_bounds _ _ _ Hc) as [Hkids Hself].
    assert (Hcount : size (filter (doomed target c) (messages d))
                     = (size (messages d) - size t')%nat).
    { pose proof (size_filter_complement (doomed target c) (messages d)) as Hsz.
      fold t' in Hsz. lia. }
    assert (Hlook : ∀ k m, t' !! k = Some m ↔
               messages d !! k = Some m ∧
               ¬ (simulation_id m = simulation_id target ∧ c < k)).
    { intros k m. unfold t'. rewrite map_lookup_filter_Some. unfold doomed. simpl.
      tauto. }
    split_and!; simpl.
    + done.
    + unfold request.
      rewrite (delete_messages_after_children_ok (open_session d) n target Hn Hf).
      simpl. fold c. fold t'. by rewrite Hcount.
    + unfold trim_messages_after_children, request, bind, try_except.
      rewrite (delete_messages_after_children_ok (open_session d) n target Hn Hf).
      simpl. fold c. fold t'. by rewrite Hcount.
    + done.
    + intros k m Hk Hp. apply Hlook. split; [done|].
      specialize (Hkids k m Hk Hp). lia.
    + intros Hafter. apply Hlook. split; [done|]. specialize (Hself Hafter). lia.
Qed.

Lemma trim_after_spec_witness :
  trim_messages_after_children 9 ex_db =
    (Raise (HTTPException 404 "Message with id=9 not found"), ex_db) ∧
  ∃ c d',
    is_cutoff ex_chain 1 c ∧
    trim_messages_after_children 1 (mkDatabase ex_chain 4 []) =
      (Return "Deleted 1 messages after message 1 and its children.", d') ∧
    messages d' !! 1 = Some (ex_message false None) ∧
    messages d' !! 2 = Some (ex_message false (Some 1)) ∧
    messages d' !! 3 = None.
Proof.
  split.
  - apply (trim_after_spec ex_db 9); done.
  - destruct (trim_after_spec (mkDatabase ex_chain 4 []) 1) as [_ Hex]; [done|].
    destruct (Hex (ex_message false None) eq_refl)
      as (c & d' & Hc & Hcount & Hmsg & Hiff & Hkids & Hself).
    assert (c = 2) as ->.
    { apply (is_cutoff_unique ex_chain 1); [done|]. left.
      exists (ex_message false (Some 1)). split_and!; [done..|].
      assert (Hall : map_Forall (λ k m, parent_id m = Some 1 → k ≤ 2) ex_chain)
        by (apply (bool_decide_unpack _); by vm_compute).
      intros k' m' Hk'. by apply (Hall k' m'). }
    exists 2, d'. split_and!.
    + done.
    + rewrite Hmsg. f_equal.
      assert (Hsz : size (messages d') = 2%nat).
      { assert (Hd' : messages d' = delete 3 ex_chain).
        { apply map_eq. intros k. apply option_eq. intros m. rewrite Hiff.
          cbn [messages]. destruct (decide (k = 3)) as [->|Hne].
          - rewrite lookup_delete_eq. split; [|done]. intros [Hk Hn].
            vm_compute in Hk. injection Hk as <-. destruct Hn. by vm_compute.
          - rewrite lookup_delete_ne by done. split; [by intros [? _]|].
            intros Hk. split; [done|]. intros [_ Hlt].
            assert (Hall : map_Forall (λ k _, k ≤ 3) ex_chain)
              by (apply (bool_decide_unpack _); by vm_compute).
            specialize (Hall k m Hk). simpl in Hall. lia. }
        rewrite Hd'. by vm_compute. }
      rewrite Hsz. by vm_compute.
    + apply Hself. intros k m Hk Hp.
      assert (Hall : map_Forall (λ k m, parent_id m = Some 1 → 1 < k) ex_chain)
        by (apply (bool_decide_unpack _); by vm_compute).
      by apply (Hall k m).
    + by apply Hkids.
    + destruct (messages d' !! 3) as [m|] eqn:E; [|done].
      apply Hiff in E as [E Hn]. vm_compute in E. injection E as <-.
      destruct Hn. by vm_compute.
Defined.

(** ** Path-mode traversal *)

Lemma walk_up_climbs (t : table) (fuel : nat) (current : option Z) (acc out : list Row) :
  walk_up fuel t current acc = Some out →
  ∃ path, climbs t current path ∧ out = path ++ acc.
Proof.
  revert current acc. induction fuel as [|fuel IH]; intros current acc; simpl.
  - destruct current as [k|]; [done|]. intros [= <-]. exists []. split; [constructor|done].
  - destruct current as [k|].
    + destruct (t !! k) as [m|] eqn:Hk.
      * intros (path & Hc & ->)%IH. exists (path ++ [(k, m)]).
        split; [by constructor|]. by rewrite <- app_assoc.
      * intros [= <-]. exists []. split; [by constructor|done].
    + intros [= <-]. exists []. split; [constructor|done].
Qed.

Lemma walk_up_terminates (t : table) (fuel : nat) (k : Z) (acc : list Row) :
  well_ordered t →
  (size (filter (λ r : Row, (r.1 ≤ k)%Z) t) < fuel)%nat →
  is_Some (walk_up fuel t (Some k) acc).
Proof.
  intros Hwo. revert k acc. induction fuel as [|fuel IH]; intros k acc Hsz; [lia|].
  simpl. destruct (t !! k) as [m|] eqn:Hk; [|done].
  destruct (parent_id m) as [p|] eqn:Hp; [|by destruct fuel].
  apply IH. pose proof (Hwo k m Hk) as Hlt. simpl in Hlt. rewrite Hp in Hlt. simpl in Hlt.
  assert (Hsub : filter (λ r : Row, r.1 ≤ p) t ⊂ filter (λ r : Row, r.1 ≤ k) t).
  { apply map_subset_alt. split.
    - apply map_filter_strong_subseteq_ext. intros i x [Hi Hx]. simpl in *.
      split; [lia|done].
    - exists k. split.
      + apply map_lookup_filter_None. right. intros x _. simpl. lia.
      + eexists. apply map_lookup_filter_Some. split; [done|]. simpl. lia. }
  apply map_subset_size in Hsub. lia.
Qed.

Lemma climbs_rows t current path r :
  climbs t current path → r ∈ path → t !! r.1 = Some r.2.
Proof.
  induction 1 as [|k Hk|k m path Hk Hc IH]; [by intros ?%not_elem_of_nil..|].
  intros [Hin| ->%list_elem_of_singleton]%elem_of_app; [by apply IH|done].
Qed.

Lemma climbs_last t k path :
  climbs t (Some k) path → last path = (λ m, (k, m)) <$> t !! k.
Proof.
  inversion 1 as [|k' Hk|k' m path' Hk Hc]; subst.
  - by rewrite Hk.
  - by rewrite last_snoc, Hk.
Qed.

Lemma climbs_links t current path i a b :
  climbs t current path → path !! i = Some a → path !! S i = Some b →
  parent_id b.2 = Some (id a).
Proof.
  intros Hc. revert i a b.
  induction Hc as [|k Hk|k m path Hk Hc IH]; intros i a b Ha Hb; [done..|].
  apply lookup_snoc_Some in Hb as [[Hlt Hb]|[Hlen <-]].
  - apply lookup_snoc_Some in Ha as [[_ Ha]|[Hlen _]]; [by eapply IH|lia].
  - apply lookup_snoc_Some in Ha as [[_ Ha]|[Hlen' _]]; [|lia]. simpl.
    destruct (parent_id m) as [p|] eqn:Hp.
    + apply climbs_last in Hc. rewrite last_lookup, <- Hlen in Hc. simpl in Hc.
      rewrite Ha in Hc. destruct (t !! p); [|done]. by injection Hc as ->.
    + inversion Hc; subst. done.
Qed.

Lemma climbs_head t current path h :
  climbs t current path → head path = Some h →
  parent_id h.2 = None ∨ ∃ p, parent_id h.2 = Some p ∧ t !! p = None.
Proof.
  induction 1 as [|k Hk|k m path Hk Hc IH]; [done..|].
  destruct path as [|x path]; simpl.
  - intros [= <-]. simpl.
    inversion Hc as [Hp|k' Hk' Hp|k' m' path' Hk' Hc' Hp E]; [by left| |by destruct path'].
    right. exists k'. done.
  - intros [= <-]. by apply IH.
Qed.

Lemma ordered_messages_path_missing (t : table) (tree_id k : Z) :
  t !! k = None → ordered_messages t tree_id (Some k) = Some [].
Proof. intros Hk. unfold ordered_messages. simpl. by rewrite Hk. Qed.

Lemma ordered_messages_path (t : table) (tree_id k : Z) :
  well_ordered t →
  ∃ path, ordered_messages t tree_id (Some k) = Some path ∧ climbs t (Some k) path.
Proof.
  intros Hwo. unfold ordered_messages.
  destruct (walk_up_terminates t (S (size t)) k [] Hwo) as [out Hout].
  { pose proof (map_size_filter (λ r : Row, r.1 ≤ k) t). lia. }
  exists out. split; [done|].
  apply walk_up_climbs in Hout as (path & Hc & ->). by rewrite app_nil_r.
Qed.

Lemma get_messages_by_tree_endpoint_unfold (d : Database) (tree_id : Z) (message_id : option Z) :
  get_messages_by_tree_endpoint tree_id message_id d =
    match ordered_messages (messages d) tree_id message_id with
    | None => (Diverge, d)
    | Some ordered => (Return (Dicts (message_dict <$> ordered)), d)
    end.
Proof.
  destruct d as [t sq fl].
  unfold get_messages_by_tree_endpoint, request, get_messages_by_tree, open_session.
  cbn [view messages message_id_seq faults].
  by destruct (ordered_messages t tree_id message_id).
Qed.

(** C5, as the code has it.  Path-mode traversal never raises.  When the
    starting id is not in the store it returns the empty path.  Otherwise (in
    a store where parents were created before their children, so that the walk
    ends) it returns the rows met while walking the parent references, root
    end first and the target last, each row the parent of the next; the walk
    stops at a root or, without any error, at the row whose parent is
    missing. *)
Theorem path_mode_spec (d : Database) (tree_id k : Z) :
  (∀ e, (get_messages_by_tree_endpoint tree_id (Some k) d).1 ≠ Raise e) ∧
  (messages d !! k = None →
     get_messages_by_tree_endpoint tree_id (Some k) d = (Return (Dicts []), d)) ∧
  (well_ordered (messages d) →
     ∃ path,
       get_messages_by_tree_endpoint tree_id (Some k) d
         = (Return (Dicts (message_dict <$> path)), d) ∧
       climbs (messages d) (Some k) path ∧
       (∀ r, r ∈ path → messages d !! r.1 = Some r.2) ∧
       last path = (λ m, (k, m)) <$> messages d !! k ∧
       (∀ i a b, path !! i = Some a → path !! S i = Some b →
                 parent_id b.2 = Some (id a)) ∧
       (∀ h, head path = Some h →
             parent_id h.2 = None ∨
             ∃ p, parent_id h.2 = Some p ∧ messages d !! p = None)).
Proof.
  rewrite get_messages_by_tree_endpoint_unfold. split_and!.
  - intros e. by destruct (ordered_messages (messages d) tree_id (Some k)).
  - intros Hk. by rewrite (ordered_messages_path_missing _ _ _ Hk).
  - intros Hwo. destruct (ordered_messages_path _ tree_id k Hwo) as (path & E & Hc).
    exists path. rewrite E. split_and!; [done..| | | |].
    + intros r. by eapply climbs_rows.
    + by apply climbs_last.
    + intros i a b. by eapply climbs_links.
    + intros h. by eapply climbs_head.
Qed.

Lemma path_mode_spec_witness :
  get_messages_by_tree_endpoint 1 (Some 9) ex_db = (Return (Dicts []), ex_db) ∧
  ∃ path,
    get_messages_by_tree_endpoint 1 (Some 3) (mkDatabase ex_chain 4 [])
      = (Return (Dicts (message_dict <$> path)), mkDatabase ex_chain 4 []) ∧
    last path = Some (3, ex_message false (Some 2)).
Proof.
  split.
  - apply (path_mode_spec ex_db 1 9). done.
  - destruct (path_mode_spec (mkDatabase ex_chain 4 []) 1 3) as (_ & _ & Hpath).
    destruct Hpath as (path & E & _ & _ & Hlast & _).
    { apply (bool_decide_unpack (well_ordered ex_chain)). by vm_compute. }
    exists path. split; [exact E|exact Hlast].
Defined.

(** C5 as stated fails: on a store without message 1, path mode from id 1
    returns the empty list and raises nothing. *)
Lemma path_mode_missing_start_no_error :
  messages (mkDatabase ∅ 1 []) !! 1 = None ∧
  get_messages_by_tree_endpoint 1 (Some 1) (mkDatabase ∅ 1 [])
    = (Return (Dicts []), mkDatabase ∅ 1 []) ∧
  ¬ ∃ e, (get_messages_by_tree_endpoint 1 (Some 1) (mkDatabase ∅ 1 [])).1 = Raise e.
Proof.
  split_and!; [done|by vm_compute|]. intros [e He]. vm_compute in He. done.
Qed.

(** ** Generation: the soft failure *)

Lemma first_valid_None (results : list (option TreeData)) :
  (∀ r, r ∈ results → r = None) → first_valid results = None.
Proof.
  induction results as [|r results IH]; [done|]. intros Hall.
  rewrite (Hall r) by left. simpl. apply IH. intros r' Hr'. apply Hall. by right.
Qed.

(** C7.  When the three generation attempts all come back invalid
    (whatever the order in which they complete), [create_tree] does not raise:
    it returns the sentinel, whose [scenarios_tree] is one level-1 node marked
    as a system error with no responses. *)
Theorem create_tree_all_attempts_fail (attempt : nat → option TreeData)
    (completion_order : list nat) :
  completion_order ≡ₚ [0; 1; 2]%nat →
  attempt 0%nat = None → attempt 1%nat = None → attempt 2%nat = None →
  create_tree true attempt completion_order = Return error_tree ∧
  level (scenarios_tree error_tree) = 1 ∧
  responses (scenarios_tree error_tree) = [] ∧
  reflects_personality (scenarios_tree error_tree) = "System error occurred" ∧
  is_Some (error error_tree).
Proof.
  intros Hperm H0 H1 H2. unfold create_tree.
  rewrite first_valid_None; [by split_and!|].
  intros r (i & -> & Hi)%list_elem_of_fmap. rewrite Hperm in Hi.
  repeat (apply elem_of_cons in Hi as [->|Hi]; [done|]).
  by apply not_elem_of_nil in Hi.
Qed.

Lemma create_tree_all_attempts_fail_witness :
  create_tree true (λ _, None) [2; 0; 1]%nat = Return error_tree.
Proof.
  apply (create_tree_all_attempts_fail (λ _, None) [2; 0; 1]%nat); [|done..].
  by apply (Permutation_cons_append [0; 1]%nat 2%nat).
Defined.

(** ** Manual creation *)

Lemma add_commit_refresh_ok (s : Session) (m : Message) :
  commit_works s →
  add_commit_refresh m s =
    (Return (seq s, m),
     let t' := <[seq s := m]> (view s) in
     mkSession t' t' (seq s + 1) (tail (outages s))).
Proof.
  intros Hc. unfold add_commit_refresh, bind, session_add, session_commit. simpl.
  unfold commit_works in Hc. unfold session_refresh.
  destruct (outages s) as [|[] o]; simpl in *; [|done|]; by rewrite lookup_insert_eq.
Qed.

(** C9.  [create_message] looks at no other row: whatever the store holds,
    the new row is inserted with [selected = true].  From a store that
    satisfies the active-path invariant, with reply 2 of root 1 selected,
    creating another reply to root 1 leaves two selected siblings (2 and the
    new row 5), and a later [select] of their sibling 3 is rejected. *)
Theorem create_message_no_validation :
  (∀ d simulation parent text speaker_role,
     head (faults d) ≠ Some true →
     create_message simulation parent text speaker_role d =
       (Return (message_id_seq d, mkMessage text speaker_role true simulation parent),
        mkDatabase
          (<[message_id_seq d := mkMessage text speaker_role true simulation parent]>
             (messages d))
          (message_id_seq d + 1) (tail (faults d)))) ∧
  (∃ r d',
     active_path (messages ex_db) ∧
     create_message 1 (Some 1) "custom" "A" ex_db = (Return r, d') ∧
     id r = 5 ∧
     (∃ m2 m5, messages d' !! 2 = Some m2 ∧ messages d' !! 5 = Some m5 ∧
               selected m2 = true ∧ selected m5 = true ∧
               parent_id m2 = parent_id m5 ∧ simulation_id m2 = simulation_id m5) ∧
     ¬ active_path (messages d') ∧
     select_message 3 d' = (Raise (sibling_already_selected 2), d')).
Proof.
  split.
  - intros d simulation parent text speaker_role Hf.
    unfold create_message, request.
    by rewrite (add_commit_refresh_ok (open_session d)).
  - destruct (create_message 1 (Some 1) "custom" "A" ex_db) as [o d'] eqn:E.
    vm_compute in E. injection E as <- <-. eexists _, _.
    split_and!; [|reflexivity|reflexivity| | |by vm_compute].
    + apply (bool_decide_unpack _). by vm_compute.
    + eexists _, _. split_and!; [by vm_compute|by vm_compute|done..].
    + intros [Huniq _].
      specialize (Huniq 2 (ex_message true (Some 1)) 5 (mkMessage "custom" "A" true 1 (Some 1))).
      assert (2 = 5) by (apply Huniq; done). done.
Qed.

Lemma create_message_no_validation_witness :
  create_message 1 (Some 1) "custom" "A" ex_db =
    (Return (5, mkMessage "custom" "A" true 1 (Some 1)),
     mkDatabase (<[5 := mkMessage "custom" "A" true 1 (Some 1)]> ex_table) 6 []).
Proof.
  apply (proj1 create_message_no_validation ex_db 1 (Some 1) "custom" "A"). simpl. done.
Defined.

(** ** Multi-step mutations under a failing commit *)

(** C6, evaluated.  [save_messages_to_tree] for a new tree, when the store
    fails the second commit (the one of the level-2 row): the call raises a
    500, and the level-1 row committed by the first step is still there.
    [delete_messages_including_children] on the chain 1 ← 2 ← 3 from message
    1, when the store fails the third commit: the call returns [False], and
    row 3, whose deletion an inner call had committed, is gone while row 2 is
    still there. *)
Theorem multi_step_mutations_not_atomic :
  request (save_messages_to_tree ex_tree 7 None) (mkDatabase ∅ 1 [false; true]) =
    (Raise (HTTPException 500 "Error saving messages to tree: SQLAlchemyError"),
     mkDatabase {[1 := mkMessage "opening" "A" true 7 None]} 3 []) ∧
  request (delete_messages_including_children 1)
          (mkDatabase ex_chain 4 [false; false; true]) =
    (Return false, mkDatabase (delete 3 ex_chain) 4 []) ∧
  delete 3 ex_chain ≠ ex_chain.
Proof.
  split_and!; [by vm_compute|by vm_compute|].
  intros E. assert (H3 : delete 3 ex_chain !! 3 = ex_chain !! 3) by by rewrite E.
  vm_compute in H3. done.
Qed.

(** ** Persisting a generated tree *)

Lemma insert_rows_app sq ms1 ms2 t :
  insert_rows sq (ms1 ++ ms2) t
  = insert_rows (sq + Z.of_nat (length ms1)) ms2 (insert_rows sq ms1 t).
Proof.
  revert sq t. induction ms1 as [|m ms1 IH]; intros sq t; simpl.
  - by rewrite Z.add_0_r.
  - rewrite IH. f_equal. lia.
Qed.

Lemma lookup_insert_rows sq ms t k :
  insert_rows sq ms t !! k =
    if decide (sq ≤ k < sq + Z.of_nat (length ms))
    then ms !! Z.to_nat (k - sq) else t !! k.
Proof.
  revert sq t. induction ms as [|m ms IH]; intros sq t; simpl.
  - case_decide; [lia|done].
  - rewrite IH. destruct (decide (k = sq)) as [->|Hne].
    + rewrite decide_False by lia. rewrite decide_True by lia.
      rewrite lookup_insert_eq. by replace (sq - sq) with 0 by lia.
    + rewrite lookup_insert_ne by done.
      destruct (decide (sq + 1 ≤ k < sq + 1 + Z.of_nat (length ms))).
      * rewrite decide_True by lia.
        replace (Z.to_nat (k - sq)) with (S (Z.to_nat (k - (sq + 1)))) by lia. done.
      * by rewrite decide_False by lia.
Qed.

Lemma for_each_add_commit_refresh {A} (f : A → Message) (l : list A) (s : Session) :
  outages s = [] → durable s = view s →
  for_each l (λ x, add_commit_refresh (f x)) s =
    (Return (imap (λ i x, (seq s + Z.of_nat i, f x)) l),
     let t' := insert_rows (seq s) (f <$> l) (view s) in
     mkSession t' t' (seq s + Z.of_nat (length l)) []).
Proof.
  revert s. induction l as [|x l IH]; intros s Ho Hd.
  - simpl. unfold ret. destruct s; simpl in *. subst.
    by rewrite Z.add_0_r.
  - simpl. unfold bind at 1.
    rewrite add_commit_refresh_ok by (unfold commit_works; by rewrite Ho).
    unfold bind at 1. rewrite IH by (simpl; by rewrite ?Ho).
    unfold bind, ret. simpl. rewrite Z.add_0_r. f_equal.
    + do 2 f_equal. apply imap_ext. intros i y _. simpl. f_equal. lia.
    + f_equal. lia.
Qed.

Lemma for_each_session_add {A} (f : A → Message) (l : list A) (s : Session) :
  ∃ ids,
  for_each l (λ x, session_add (f x)) s =
    (Return ids,
     mkSession (durable s) (insert_rows (seq s) (f <$> l) (view s))
               (seq s + Z.of_nat (length l)) (outages s)).
Proof.
  revert s. induction l as [|x l IH]; intros s.
  - exists []. simpl. unfold ret. destruct s; simpl. by rewrite Z.add_0_r.
  - destruct (IH (mkSession (durable s) (<[seq s := f x]> (view s)) (seq s + 1) (outages s)))
      as [ids E].
    exists (seq s :: ids). simpl. unfold bind at 1. unfold session_add at 1.
    unfold bind at 1. rewrite E. unfold bind, ret. simpl. do 2 f_equal. lia.
Qed.

Lemma level3_loop (tree base : Z) (level2_messages : list Row) (rs : list TreeNode)
    (n : nat) (s : Session) :
  (∀ i r, rs !! i = Some r →
     ∃ m, level2_messages !! (n + i)%nat = Some (base + Z.of_nat (n + i), m)) →
  let added :=
    mjoin (imap (λ i level2, response_row tree (base + Z.of_nat (n + i)) <$> responses level2)
                rs) in
  ∃ us,
  for_each (imap (λ i r, ((n + i)%nat, r)) rs) (λ '(i, level2_response),
    match level2_messages !! i with
    | Some level2_msg =>
      for_each (responses level2_response) (λ level3_response,
        session_add
          (mkMessage (line level3_response) (speaker level3_response) false
                     tree (Some (id level2_msg)))) ;;;
      ret ()
    | None => ret ()
    end) s =
  (Return us,
   mkSession (durable s) (insert_rows (seq s) added (view s))
             (seq s + Z.of_nat (length added)) (outages s)).
Proof.
  revert n s. induction rs as [|r rs IH]; intros n s Hl2.
  - exists []. simpl. unfold ret. destruct s; simpl. by rewrite Z.add_0_r.
  - simpl. destruct (Hl2 0%nat r eq_refl) as [m Hm].
    destruct (for_each_session_add (response_row tree (base + Z.of_nat (n + 0))) (responses r) s)
      as [ids Eids].
    set (s1 := mkSession (durable s)
                 (insert_rows (seq s) (response_row tree (base + Z.of_nat (n + 0)) <$> responses r)
                    (view s))
                 (seq s + Z.of_nat (length (responses r))) (outages s)) in *.
    destruct (IH (S n) s1) as [us Eus].
    { intros i r' Hi. destruct (Hl2 (S i) r' Hi) as [m' Hm'].
      exists m'. rewrite Nat.add_succ_r in Hm'. done. }
    exists (() :: us).
    unfold bind at 1. rewrite Hm. unfold bind at 1. simpl id.
    unfold response_row in Eids. rewrite Eids. unfold ret at 1.
    unfold bind at 1.
    rewrite (imap_ext _ (λ i r0, ((S n + i)%nat, r0))) by (intros; simpl; f_equal; lia).
    rewrite Eus. unfold ret. simpl.
    rewrite (imap_ext (_ ∘ S)
               (λ i level2, response_row tree (base + Z.of_nat (S n + i)) <$> responses level2))
      by (intros; simpl; do 3 f_equal; lia).
    rewrite insert_rows_app, length_app, !length_fmap. do 2 f_equal.
    cbn [Nat.add]. lia.
Qed.

Lemma save_responses_ok (scenarios : TreeNode) (tree : Z) (level1_msg : Row) (s : Session) :
  outages s = [] → durable s = view s →
  let added := level2_rows tree (id level1_msg) scenarios
               ++ level3_rows tree (seq s) scenarios in
  ∃ s', save_responses scenarios tree level1_msg s = (Return (), s') ∧
        view s' = insert_rows (seq s) added (view s) ∧
        seq s' = seq s + Z.of_nat (length added) ∧
        outages s' = [].
Proof.
  intros Ho Hd added. unfold save_responses. unfold bind at 1.
  rewrite (for_each_add_commit_refresh
             (λ r, mkMessage (line r) (speaker r) false tree (Some (id level1_msg)))) by done.
  cbv beta iota zeta. unfold bind at 1.
  match goal with |- context [for_each _ _ ?s1] => set (s2 := s1) end.
  destruct (level3_loop tree (seq s)
              (imap (λ i x, (seq s + Z.of_nat i,
                            mkMessage (line x) (speaker x) false tree (Some (id level1_msg))))
                    (responses scenarios))
              (responses scenarios) 0 s2) as [us Eus].
  { intros i r Hi. eexists. cbn [Nat.add]. rewrite list_lookup_imap, Hi. simpl. done. }
  match goal with
  | |- context [for_each ?l ?f s2] => change (for_each _ _ s2) with (for_each l f s2) in Eus
  end.
  rewrite Eus. unfold ret. eexists. split; [done|]. simpl.
  unfold added, level2_rows, level3_rows, response_row.
  rewrite insert_rows_app, length_app, !length_fmap. split_and!; [done| |done].
  lia.
Qed.

Lemma save_messages_to_tree_continue (d : Database) (tree_data : TreeData)
    (tree last_message_id : Z) (last_message : Message) :
  faults d = [] → messages d !! last_message_id = Some last_message →
  let scenarios := scenarios_tree tree_data in
  let added := level2_rows tree last_message_id scenarios
               ++ level3_rows tree (message_id_seq d) scenarios in
  request (save_messages_to_tree tree_data tree (Some last_message_id)) d =
    (Return true,
     mkDatabase (insert_rows (message_id_seq d) added (messages d))
                (message_id_seq d + Z.of_nat (length added)) []).
Proof.
  intros Hf Hl scenarios added.
  unfold request, save_messages_to_tree, try_except.
  unfold bind at 1. unfold bind at 1. unfold session_get at 1.
  cbn [view open_session]. rewrite Hl. cbn [fmap option_fmap option_map].
  destruct (save_responses_ok scenarios tree (last_message_id, last_message) (open_session d))
    as (s' & E & Hv & Hs & Ho); [done..|].
  fold scenarios. rewrite E. unfold bind, session_commit, ret. rewrite Ho.
  cbn [close_session durable seq outages view]. rewrite Hv, Hs. done.
Qed.

(** A prior message id that is not in the store: the 404 raised inside the
    [try] is caught by its own [except] and comes out as a 500; nothing is
    inserted. *)
Lemma save_messages_to_tree_missing_last_message (d : Database) (tree_data : TreeData)
    (tree last_message_id : Z) :
  messages d !! last_message_id = None →
  request (save_messages_to_tree tree_data tree (Some last_message_id)) d =
    (Raise (HTTPException 500
       ("Error saving messages to tree: 404: Message with id "
          +:+ pretty last_message_id +:+ " not found")), d).
Proof.
  intros Hl. destruct d as [t sq fl].
  unfold request, save_messages_to_tree, try_except, open_session.
  unfold bind at 1. unfold bind at 1. unfold session_get at 1.
  cbn [view messages] in *. rewrite Hl. by vm_compute.
Qed.

Lemma save_messages_to_tree_new (d : Database) (tree_data : TreeData) (tree : Z) :
  faults d = [] →
  let scenarios := scenarios_tree tree_data in
  let sq := message_id_seq d in
  let added := mkMessage (line scenarios) (speaker scenarios) true tree None
               :: level2_rows tree sq scenarios ++ level3_rows tree (sq + 1) scenarios in
  request (save_messages_to_tree tree_data tree None) d =
    (Return true,
     mkDatabase (insert_rows sq added (messages d)) (sq + Z.of_nat (length added)) []).
Proof.
  intros Hf scenarios sq added.
  unfold request, save_messages_to_tree, try_except.
  unfold bind at 1. unfold bind at 1. unfold bind at 1.
  rewrite add_commit_refresh_ok by (unfold commit_works; simpl; by rewrite Hf).
  cbv zeta. cbn [open_session seq view outages]. rewrite Hf. cbn [tail].
  match goal with |- context [save_responses _ _ _ ?s1] => set (s2 := s1) end.
  destruct (save_responses_ok scenarios tree
              (message_id_seq d, mkMessage (line scenarios) (speaker scenarios) true tree None) s2)
    as (s' & E & Hv & Hs & Ho); [done..|].
  fold scenarios. rewrite E. unfold bind, session_commit, ret. rewrite Ho.
  cbn [close_session durable seq outages view]. rewrite Hv, Hs.
  subst s2 added sq. unfold close_session.
  cbn [seq view length insert_rows id fst durable outages].
  do 2 f_equal. lia.
Qed.

Lemma size_insert_rows sq ms (t : table) :
  (∀ k, is_Some (t !! k) → k < sq) →
  size (insert_rows sq ms t) = (size t + length ms)%nat.
Proof.
  revert sq t. induction ms as [|m ms IH]; intros sq t Hfresh; simpl; [lia|].
  rewrite IH.
  - rewrite map_size_insert_None; [lia|].
    destruct (t !! sq) eqn:E; [|done]. assert (sq < sq) by eauto. lia.
  - intros k [x Hx]. destruct (decide (k = sq)) as [->|Hne]; [lia|].
    rewrite lookup_insert_ne in Hx by done. assert (k < sq) by eauto. lia.
Qed.

Lemma lookup_insert_rows_new sq ms (t : table) i m :
  ms !! i = Some m → insert_rows sq ms t !! (sq + Z.of_nat i) = Some m.
Proof.
  intros Hi. rewrite lookup_insert_rows. pose proof (lookup_lt_Some _ _ _ Hi).
  rewrite decide_True by lia.
  replace (Z.to_nat (sq + Z.of_nat i - sq)) with i by lia. done.
Qed.

Lemma lookup_insert_rows_inv sq ms (t : table) k m :
  insert_rows sq ms t !! k = Some m → t !! k = None →
  ∃ i, k = sq + Z.of_nat i ∧ ms !! i = Some m.
Proof.
  rewrite lookup_insert_rows. case_decide; [|congruence].
  intros Hm _. exists (Z.to_nat (k - sq)). split; [lia|done].
Qed.

Lemma elem_of_level3_rows tree base scenarios m :
  m ∈ level3_rows tree base scenarios ↔
  ∃ i level2 level3, responses scenarios !! i = Some level2 ∧
     level3 ∈ responses level2 ∧ m = response_row tree (base + Z.of_nat i) level3.
Proof.
  unfold level3_rows. rewrite list_elem_of_join. split.
  - intros (l & Hm & Hl). apply elem_of_lookup_imap in Hl as (i & level2 & -> & Hi).
    apply list_elem_of_fmap in Hm as (level3 & -> & H3). eauto 10.
  - intros (i & level2 & level3 & Hi & H3 & ->).
    exists (response_row tree (base + Z.of_nat i) <$> responses level2). split.
    + apply list_elem_of_fmap. eauto.
    + apply elem_of_lookup_imap. exists i, level2. done.
Qed.

Lemma length_level3_rows tree base scenarios :
  length (level3_rows tree base scenarios)
  = sum_list_with (λ level2, length (responses level2)) (responses scenarios).
Proof.
  unfold level3_rows. rewrite length_join.
  generalize (λ i : nat, base + Z.of_nat i). intros g.
  change (λ i level2, response_row tree (base + Z.of_nat i) <$> responses level2)
    with (λ i level2, response_row tree ((λ i : nat, base + Z.of_nat i) i) <$> responses level2).
  generalize (λ i : nat, base + Z.of_nat i) at 1. clear g. intros g.
  revert g. induction (responses scenarios) as [|r l IH]; intros g; simpl; [done|].
  rewrite length_fmap. f_equal. apply (IH (g ∘ S)).
Qed.

Lemma insert_rows_persisted (t : table) (tree level1 base : Z) (scenarios : TreeNode) :
  (∀ k, is_Some (t !! k) → k < base) → level1 < base →
  persisted_under t
    (insert_rows base (level2_rows tree level1 scenarios ++ level3_rows tree base scenarios) t)
    tree level1 base scenarios.
Proof.
  intros Hfresh Hl1.
  set (added := level2_rows tree level1 scenarios ++ level3_rows tree base scenarios).
  assert (Hnone : ∀ k, base ≤ k → t !! k = None).
  { intros k Hk. destruct (t !! k) eqn:E; [|done]. assert (k < base) by eauto. lia. }
  assert (Hlen2 : length (level2_rows tree level1 scenarios) = length (responses scenarios))
    by apply length_fmap.
  split_and!.
  - intros k m Hk. rewrite lookup_insert_rows. rewrite decide_False; [done|].
    assert (k < base) by eauto. lia.
  - rewrite size_insert_rows by done. unfold added, generated_count.
    by rewrite length_app, Hlen2, length_level3_rows.
  - intros i level2 Hi. split_and!.
    + lia.
    + apply Hnone. lia.
    + apply lookup_insert_rows_new. unfold added.
      rewrite lookup_app_l by (rewrite Hlen2; by eapply lookup_lt_Some).
      unfold level2_rows. by rewrite list_lookup_fmap, Hi.
    + intros level3 H3.
      assert (Hin : response_row tree (base + Z.of_nat i) level3
                    ∈ level3_rows tree base scenarios)
        by (apply elem_of_level3_rows; by exists i, level2, level3).
      apply list_elem_of_lookup in Hin as [n Hn].
      exists (base + Z.of_nat (length (level2_rows tree level1 scenarios) + n)).
      pose proof (lookup_lt_Some _ _ _ Hi). split_and!.
      * lia.
      * apply Hnone. lia.
      * apply lookup_insert_rows_new. unfold added.
        rewrite lookup_app_r by lia.
        replace (length (level2_rows tree level1 scenarios) + n
                 - length (level2_rows tree level1 scenarios))%nat with n by lia.
        done.
  - intros k m Hk Hold. apply lookup_insert_rows_inv in Hk as (n & -> & Hn); [|done].
    unfold added in Hn. apply lookup_app_Some in Hn as [Hn|[Hge Hn]].
    + left. unfold level2_rows in Hn. rewrite list_lookup_fmap in Hn.
      destruct (responses scenarios !! n) as [level2|] eqn:E; [|done].
      injection Hn as <-. eauto.
    + right. apply list_elem_of_lookup_2, elem_of_level3_rows in Hn
        as (i & level2 & level3 & Hi & H3 & ->).
      pose proof (lookup_lt_Some _ _ _ Hi). exists i, level2, level3.
      split_and!; [done..| |done]. lia.
Qed.

Lemma save_messages_to_tree_new_persisted (d : Database) (tree_data : TreeData)
    (tree : Z) :
  faults d = [] → fresh_ids d →
  ∃ d',
    request (save_messages_to_tree tree_data tree None) d = (Return true, d') ∧
    messages d !! message_id_seq d = None ∧
    messages d' !! message_id_seq d =
      Some (mkMessage (line (scenarios_tree tree_data))
                      (speaker (scenarios_tree tree_data)) true tree None) ∧
    persisted_under
      (<[message_id_seq d :=
           mkMessage (line (scenarios_tree tree_data))
                     (speaker (scenarios_tree tree_data)) true tree None]> (messages d))
      (messages d') tree (message_id_seq d) (message_id_seq d + 1)
      (scenarios_tree tree_data).
Proof.
  intros Hf Hfresh. eexists. split.
  { by apply (save_messages_to_tree_new d tree_data tree). }
  cbn [messages insert_rows].
  set (root := mkMessage _ _ true tree None).
  assert (Hnone : messages d !! message_id_seq d = None).
  { destruct (messages d !! message_id_seq d) as [m|] eqn:E; [|done].
    assert (message_id_seq d < message_id_seq d) by by eapply (Hfresh _ m). lia. }
  assert (Hp : persisted_under (<[message_id_seq d := root]> (messages d))
            (insert_rows (message_id_seq d + 1)
               (level2_rows tree (message_id_seq d) (scenarios_tree tree_data)
                ++ level3_rows tree (message_id_seq d + 1) (scenarios_tree tree_data))
               (<[message_id_seq d := root]> (messages d)))
            tree (message_id_seq d) (message_id_seq d + 1) (scenarios_tree tree_data)).
  { apply insert_rows_persisted; [|lia].
    intros k [x Hx]. destruct (decide (k = message_id_seq d)) as [->|Hne]; [lia|].
    rewrite lookup_insert_ne in Hx by done.
    assert (k < message_id_seq d) by by apply (Hfresh k x). lia. }
  split_and!; [done| |done].
  apply Hp. by rewrite lookup_insert_eq.
Qed.

(** C8.  On a store that answers, persisting a generated tree under a
    supplied prior message inserts no level-1 row: the rows of the store,
    the supplied message among them, are kept as they are, and exactly the
    level-2 and level-3 nodes are added, every level-2 row as a child of the
    supplied message and every level-3 row as a child of its level-2 row, a
    parent always having the smaller id.  Without a prior message the level-1
    node is first inserted as a root ([parent_id] null), and the responses
    are persisted under it in the same way. *)
Theorem save_messages_to_tree_parents (d : Database) (tree_data : TreeData) (tree : Z) :
  faults d = [] → fresh_ids d →
  (∀ last_message_id last_message,
     messages d !! last_message_id = Some last_message →
     ∃ d',
       request (save_messages_to_tree tree_data tree (Some last_message_id)) d
         = (Return true, d') ∧
       messages d' !! last_message_id = Some last_message ∧
       persisted_under (messages d) (messages d') tree last_message_id
                       (message_id_seq d) (scenarios_tree tree_data)) ∧
  (∃ d',
     request (save_messages_to_tree tree_data tree None) d = (Return true, d') ∧
     messages d !! message_id_seq d = None ∧
     messages d' !! message_id_seq d =
       Some (mkMessage (line (scenarios_tree tree_data))
                       (speaker (scenarios_tree tree_data)) true tree None) ∧
     persisted_under
       (<[message_id_seq d :=
            mkMessage (line (scenarios_tree tree_data))
                      (speaker (scenarios_tree tree_data)) true tree None]> (messages d))
       (messages d') tree (message_id_seq d) (message_id_seq d + 1)
       (scenarios_tree tree_data)).
Proof.
  intros Hf Hfresh. split.
  - intros lid last Hl. eexists. split.
    { by apply (save_messages_to_tree_continue d tree_data tree lid last). }
    cbn [messages].
    assert (Hp : persisted_under (messages d)
              (insert_rows (message_id_seq d)
                 (level2_rows tree lid (scenarios_tree tree_data)
                  ++ level3_rows tree (message_id_seq d) (scenarios_tree tree_data))
                 (messages d))
              tree lid (message_id_seq d) (scenarios_tree tree_data)).
    { apply insert_rows_persisted; [|by apply (Hfresh lid last)].
      intros k [x Hx]. by apply (Hfresh k x). }
    split; [|done]. by apply Hp.
  - by apply save_messages_to_tree_new_persisted.
Qed.

Lemma save_messages_to_tree_parents_witness :
  (∃ d',
     request (save_messages_to_tree ex_tree 1 (Some 3)) ex_db = (Return true, d') ∧
     messages d' !! 3 = Some (ex_message false (Some 1)) ∧
     persisted_under ex_table (messages d') 1 3 5 (scenarios_tree ex_tree)) ∧
  (∃ d',
     request (save_messages_to_tree ex_tree 1 None) ex_db = (Return true, d') ∧
     messages d' !! 5 = Some (mkMessage "opening" "A" true 1 None)).
Proof.
  destruct (save_messages_to_tree_parents ex_db ex_tree 1) as [Hcont Hnew].
  - done.
  - apply (bool_decide_unpack (fresh_ids ex_db)). by vm_compute.
  - split.
    + apply (Hcont 3 (ex_message false (Some 1))). done.
    + destruct Hnew as (d' & E & _ & Hroot & _). exists d'. split; [exact E|exact Hroot].
Defined.

(** C10.  On a store that answers, persisting a generated tree without a
    prior message inserts its level-1 row as a root with [selected = true],
    and every other row the call inserts (its level-2 and level-3 rows) with
    [selected = false]. *)
Theorem save_messages_to_tree_root_selected (d : Database) (tree_data : TreeData)
    (tree : Z) :
  faults d = [] → fresh_ids d →
  ∃ d',
    request (save_messages_to_tree tree_data tree None) d = (Return true, d') ∧
    messages d !! message_id_seq d = None ∧
    (∃ level1, messages d' !! message_id_seq d = Some level1 ∧
               selected level1 = true ∧ parent_id level1 = None) ∧
    size (messages d') = (size (messages d) + 1 + generated_count (scenarios_tree tree_data))%nat ∧
    (∀ k m, messages d' !! k = Some m → messages d !! k = None →
            k ≠ message_id_seq d → selected m = false).
Proof.
  intros Hf Hfresh.
  destruct (save_messages_to_tree_new_persisted d tree_data tree Hf Hfresh)
    as (d' & E & Hnone & Hroot & Hkept & Hsize & Hl2 & Hnew).
  exists d'. split_and!; [done|done|by eexists| |].
  - rewrite Hsize, map_size_insert_None by done. lia.
  - intros k m Hk Hold Hne.
    destruct (Hnew k m Hk) as [(i & level2 & _ & _ & ->)|(i & level2 & level3 & _ & _ & _ & ->)];
      [by rewrite lookup_insert_ne|done..].
Qed.

Lemma save_messages_to_tree_root_selected_witness :
  ∃ d',
    request (save_messages_to_tree ex_tree 1 None) ex_db = (Return true, d') ∧
    (∃ level1, messages d' !! 5 = Some level1 ∧ selected level1 = true ∧
               parent_id level1 = None) ∧
    size (messages d') = 7%nat ∧
    (∀ k m, messages d' !! k = Some m → ex_table !! k = None → k ≠ 5 →
            selected m = false).
Proof.
  destruct (save_messages_to_tree_root_selected ex_db ex_tree 1)
    as (d' & E & _ & Hroot & Hsize & Hrest).
  - done.
  - apply (bool_decide_unpack (fresh_ids ex_db)). by vm_compute.
  - exists d'. split_and!; [exact E|exact Hroot|exact Hsize|exact Hrest].
Defined.

(** The root that [save_messages_to_tree] inserts is selected whatever the
    store holds: in the example store, whose simulation 1 already has the
    selected root 1, the call leaves two selected roots. *)
Lemma save_messages_to_tree_second_selected_root :
  active_path (messages ex_db) ∧
  ∃ d', request (save_messages_to_tree ex_tree 1 None) ex_db = (Return true, d') ∧
        ¬ active_path (messages d').
Proof.
  split.
  - apply (bool_decide_unpack _). by vm_compute.
  - eexists. split; [by vm_compute|].
    apply (bool_decide_unpack (¬ active_path _)). by vm_compute.
Qed.

(** ** Full-tree traversal *)

Global Instance id_le_total : Total id_le.
Proof. intros a b. unfold id_le. lia. Qed.

Global Instance id_le_trans : Transitive id_le.
Proof. intros a b c. unfold id_le. lia. Qed.

Lemma merge_sort_nil {A} (R : relation A) `{!RelDecision R} : merge_sort R [] = [].
Proof. done. Qed.

Lemma children_map_grouped (msgs : list Row) (p : option Z) :
  default []
    (foldl (λ cm msg,
              <[parent_id msg.2 := default [] (cm !! parent_id msg.2) ++ [msg]]> cm)
           (∅ : gmap (option Z) (list Row)) msgs !! p)
  = filter (λ r : Row, parent_id r.2 = p) msgs.
Proof.
  induction msgs as [|msg msgs IH] using rev_ind; [done|].
  rewrite foldl_snoc, filter_app. destruct (decide (parent_id msg.2 = p)) as [<-|Hne].
  - rewrite lookup_insert_eq. simpl. rewrite IH. f_equal.
    by rewrite filter_cons_True.
  - rewrite lookup_insert_ne by done. rewrite IH.
    rewrite filter_cons_False by done. by rewrite app_nil_r.
Qed.

Lemma children_map_lookup (t : table) (tree : Z) (p : option Z) :
  default [] (children_map (select_where (λ r, simulation_id r.2 = tree) t) !! p)
  = siblings t tree p.
Proof.
  unfold children_map, siblings. rewrite lookup_fmap.
  rewrite <- children_map_grouped.
  by destruct (foldl _ _ _ !! p).
Qed.

Lemma elem_of_siblings (t : table) (tree : Z) (p : option Z) (r : Row) :
  r ∈ siblings t tree p ↔
  t !! r.1 = Some r.2 ∧ simulation_id r.2 = tree ∧ parent_id r.2 = p.
Proof.
  unfold siblings. rewrite merge_sort_Permutation, list_elem_of_filter,
    elem_of_select_where. tauto.
Qed.

Lemma NoDup_siblings (t : table) (tree : Z) (p : option Z) : NoDup (siblings t tree p).
Proof.
  unfold siblings. rewrite merge_sort_Permutation.
  apply NoDup_filter, NoDup_filter, NoDup_rows.
Qed.

Lemma row_eq (t : table) (a b : Row) :
  t !! a.1 = Some a.2 → t !! b.1 = Some b.2 → id a = id b → a = b.
Proof.
  destruct a as [ka ma], b as [kb mb]. unfold id. simpl. intros Ha Hb ->. congruence.
Qed.

(** Sibling groups are strictly ascending by id. *)
Lemma siblings_sorted (t : table) (tree : Z) (p : option Z) :
  StronglySorted (λ a b, id a < id b) (siblings t tree p).
Proof.
  assert (Hs : StronglySorted id_le (siblings t tree p))
    by (apply StronglySorted_merge_sort; apply _).
  pose proof (NoDup_siblings t tree p) as Hnd.
  assert (Hin : ∀ r, r ∈ siblings t tree p → t !! r.1 = Some r.2)
    by (intros r Hr; by apply elem_of_siblings in Hr as (? & _)).
  induction Hs as [|a l Hs IH Hall]; [constructor|].
  apply NoDup_cons in Hnd as [Ha Hnd]. constructor.
  - apply IH; [done|]. intros r Hr. apply Hin. by right.
  - apply Forall_forall. intros b Hb.
    rewrite Forall_forall in Hall. specialize (Hall b Hb). unfold id_le in Hall.
    destruct (decide (id a = id b)) as [E|]; [|lia].
    destruct Ha. rewrite (row_eq t a b); [done|..|done].
    + apply Hin. left.
    + apply Hin. by right.
Qed.

Lemma dfs_depth_first (t : table) (tree : Z) (fuel : nat) (p : option Z) (out : list Row) :
  dfs fuel (children_map (select_where (λ r, simulation_id r.2 = tree) t)) p = Some out →
  depth_first t tree (siblings t tree p) out.
Proof.
  revert p out. induction fuel as [|fuel IH]; intros p out; [done|].
  simpl. rewrite children_map_lookup. generalize (siblings t tree p). intros group.
  destruct (mapM _ group) as [ls|] eqn:E; [|done].
  intros [= <-]. apply mapM_Some_1 in E.
  induction E as [|kid l rest ls Hkid _ IHrest]; [constructor|].
  destruct (dfs fuel _ (Some (id kid))) as [branch|] eqn:Eb; [|done].
  injection Hkid as <-. simpl.
  constructor; [by apply IH|done].
Qed.

Lemma above_child (t : table) (tree : Z) (p : option Z) (kid : Row) :
  well_ordered t → kid ∈ siblings t tree p →
  (size (above t tree (Some (id kid))) < size (above t tree p))%nat.
Proof.
  intros Hwo (Hk & Hs & Hp)%elem_of_siblings. apply map_subset_size, map_subset_alt.
  assert (Hlt : id_above p kid.1).
  { specialize (Hwo _ _ Hk). simpl in Hwo. by rewrite Hp in Hwo. }
  split.
  - apply map_filter_strong_subseteq_ext. intros i x [[Hx Hi] Hix]. simpl in *.
    split; [|done]. split; [done|]. unfold id, id_above in *.
    destruct p as [a|]; simpl in *; [lia|done].
  - exists kid.1. split.
    + apply map_lookup_filter_None. right. intros x _ [_ Hx]. unfold id, id_above in Hx.
      simpl in *. lia.
    + exists kid.2. apply map_lookup_filter_Some. done.
Qed.

Lemma dfs_terminates (t : table) (tree : Z) (fuel : nat) (p : option Z) :
  well_ordered t → (size (above t tree p) < fuel)%nat →
  is_Some (dfs fuel (children_map (select_where (λ r, simulation_id r.2 = tree) t)) p).
Proof.
  intros Hwo. revert p. induction fuel as [|fuel IH]; intros p Hsz; [lia|].
  simpl. rewrite children_map_lookup. apply fmap_is_Some, mapM_is_Some, Forall_forall.
  intros kid Hkid. simpl. apply fmap_is_Some, IH.
  pose proof (above_child t tree p kid Hwo Hkid). lia.
Qed.

Lemma ordered_messages_full (t : table) (tree : Z) :
  well_ordered t →
  ∃ out, ordered_messages t tree None = Some out ∧
         depth_first t tree (siblings t tree None) out.
Proof.
  intros Hwo. unfold ordered_messages.
  destruct (dfs_terminates t tree
              (S (length (select_where (λ r, simulation_id r.2 = tree) t))) None Hwo)
    as [out E].
  { rewrite length_select_where. unfold above.
    assert (Hle : filter (λ r : Row, simulation_id r.2 = tree ∧ id_above None r.1) t
                  ⊆ filter (λ r : Row, simulation_id r.2 = tree) t).
    { apply map_filter_strong_subseteq_ext. intros i x [[Hx _] Hix]. done. }
    apply map_subseteq_size in Hle. simpl in *. lia. }
  exists out. split; [done|]. by eapply dfs_depth_first.
Qed.

(** *** The parent structure under [well_ordered] *)

Section descends.
Variables (t : table) (tree : Z).
Hypothesis Hwo : well_ordered t.

Lemma parent_lt k m a : t !! k = Some m → parent_id m = Some a → a < k.
Proof. intros Hk Hp. specialize (Hwo k m Hk). simpl in Hwo. by rewrite Hp in Hwo. Qed.

Lemma descends_lt a k : descends t tree a k → a < k.
Proof.
  induction 1 as [a k m Hk _ Hp|a q k m Hk _ Hp _ IH].
  - by eapply parent_lt.
  - pose proof (parent_lt k m q Hk Hp). lia.
Qed.

Lemma descends_trans a q k :
  descends t tree a q → descends t tree q k → descends t tree a k.
Proof.
  intros Haq. induction 1 as [q k m Hk Hs Hp|q q' k m Hk Hs Hp _ IH].
  - by eapply descends_up.
  - eapply descends_up; [done..|]. by apply IH.
Qed.

Lemma descends_left_inv a k :
  descends t tree a k →
  ∃ c m, t !! c = Some m ∧ simulation_id m = tree ∧ parent_id m = Some a ∧
         (c = k ∨ descends t tree c k).
Proof.
  induction 1 as [a k m Hk Hs Hp|a q k m Hk Hs Hp _ (c & mc & Hc & Hsc & Hpc & Hcq)].
  - exists k, m. eauto.
  - exists c, mc. split_and!; [done..|]. right.
    destruct Hcq as [->|Hcq]; [by eapply descends_child|by eapply descends_up].
Qed.

Lemma descends_parent a k :
  descends t tree a k →
  ∃ m q, t !! k = Some m ∧ simulation_id m = tree ∧ parent_id m = Some q ∧
         (q = a ∨ descends t tree a q).
Proof. destruct 1 as [a k m Hk Hs Hp|a q k m Hk Hs Hp Hq]; eauto 10. Qed.

(** A row is not a descendant of one of its siblings. *)
Lemma sibling_not_descendant kid mk g mg :
  t !! kid = Some mk → t !! g = Some mg → parent_id mg = parent_id mk →
  ¬ descends t tree kid g.
Proof.
  intros Hkid Hg Hpar (m & q & Hg' & _ & Hq & Hdq)%descends_parent.
  rewrite Hg in Hg'. injection Hg' as <-. rewrite Hq in Hpar.
  pose proof (parent_lt kid mk q Hkid (eq_sym Hpar)).
  destruct Hdq as [->|Hdq%descends_lt]; lia.
Qed.

(** Two different siblings have no common descendant. *)
Lemma no_common_descendant kid mk g mg x :
  t !! kid = Some mk → t !! g = Some mg → parent_id mg = parent_id mk → kid ≠ g →
  descends t tree kid x → descends t tree g x → False.
Proof.
  intros Hkid Hg Hpar Hne Hx. revert Hkid.
  induction Hx as [kid x m Hx Hs Hp|kid q x m Hx Hs Hp Hq IH]; intros Hkid Hgx.
  - apply descends_parent in Hgx as (m' & q' & Hx' & _ & Hq' & Hd).
    rewrite Hx in Hx'. injection Hx' as <-. rewrite Hp in Hq'. injection Hq' as <-.
    destruct Hd as [->|Hd]; [done|].
    eapply (sibling_not_descendant g mg kid mk); eauto.
  - apply descends_parent in Hgx as (m' & q' & Hx' & _ & Hq' & Hd).
    rewrite Hx in Hx'. injection Hx' as <-. rewrite Hp in Hq'. injection Hq' as <-.
    destruct Hd as [->|Hd]; [|by apply IH].
    eapply (sibling_not_descendant kid mk g mg); eauto.
Qed.
End descends.

(** *** Lists *)

Lemma precedes_app {A} (l0 l l1 : list A) (x y : A) :
  precedes l x y → precedes (l0 ++ l ++ l1) x y.
Proof.
  intros (l1' & l2' & l3' & ->). exists (l0 ++ l1'), l2', (l3' ++ l1).
  rewrite <- !app_assoc. simpl. by rewrite <- ?app_assoc.
Qed.

Lemma precedes_split {A} (l1 l2 : list A) (x y : A) :
  x ∈ l1 → y ∈ l2 → precedes (l1 ++ l2) x y.
Proof.
  intros (a & b & ->)%list_elem_of_split (c & e & ->)%list_elem_of_split.
  exists a, (b ++ c), e. rewrite <- !app_assoc. simpl. by rewrite <- ?app_assoc.
Qed.

(** *** What a depth-first listing contains, and in which order *)

Section depth_first.
Variables (t : table) (tree : Z).

Lemma branch_descends (kid x : Row) :
  t !! x.1 = Some x.2 →
  (∃ c, c ∈ siblings t tree (Some (id kid)) ∧ (x = c ∨ descends t tree (id c) (id x)))
  ↔ descends t tree (id kid) (id x).
Proof.
  intros Hx. split.
  - intros (c & (Hc & Hs & Hp)%elem_of_siblings & Hcx).
    assert (Hkc : descends t tree (id kid) (id c)) by by eapply descends_child.
    destruct Hcx as [->|Hcx]; [done|]. clear Hx.
    induction Hcx as [a k m Hk Hsk Hpk|a q k m Hk Hsk Hpk _ IH].
    + by eapply descends_up.
    + eapply descends_up; [done..|]. by apply IH.
  - intros Hd. remember (id kid) as a eqn:Ea. remember (id x) as k eqn:Ek.
    revert x Hx Ek. induction Hd as [a k m Hk Hs Hp|a q k m Hk Hs Hp Hq IH]; intros x Hx ->.
    + exists x. split; [|by left]. apply elem_of_siblings.
      unfold id in Hk. rewrite Hx in Hk. injection Hk as <-. done.
    + destruct (t !! q) as [mq|] eqn:Hmq.
      2:{ destruct Hq as [? ? ? Hq|? ? ? ? Hq]; congruence. }
      destruct (IH Ea (q, mq) Hmq eq_refl) as (c & Hc & Hcq).
      exists c. split; [done|]. right.
      destruct Hcq as [<-|Hcq].
      * by apply (descends_child t tree q (id x) m).
      * by apply (descends_up t tree (id c) q (id x) m).
Qed.

Lemma depth_first_elem_of (group out : list Row) :
  depth_first t tree group out →
  (∀ g, g ∈ group → t !! g.1 = Some g.2) →
  ∀ x, x ∈ out ↔
       t !! x.1 = Some x.2 ∧
       ∃ g, g ∈ group ∧ (x = g ∨ descends t tree (id g) (id x)).
Proof.
  induction 1 as [|kid rest branch out Hb IHb Ho IHo]; intros Hrows x.
  - split; [by intros ?%not_elem_of_nil|]. by intros (_ & g & ?%not_elem_of_nil & _).
  - assert (Hkid : t !! kid.1 = Some kid.2) by (apply Hrows; left).
    rewrite elem_of_cons, elem_of_app, IHb, IHo.
    2:{ intros g Hg. apply Hrows. by right. }
    2:{ intros g Hg. by apply elem_of_siblings in Hg as (? & _). }
    split.
    + intros [->|[[Hx Hd]|(Hx & g & Hg & Hgx)]].
      * split; [done|]. exists kid. split; [left|by left].
      * split; [done|]. exists kid. split; [left|]. right. by apply branch_descends.
      * split; [done|]. exists g. split; [by right|done].
    + intros (Hx & g & [->|Hg]%elem_of_cons & Hgx).
      * destruct Hgx as [->|Hd]; [by left|]. right; left. split; [done|].
        by apply branch_descends.
      * right; right. eauto.
Qed.
End depth_first.

Lemma precedes_app_l {A} (l0 l : list A) (x y : A) :
  precedes l x y → precedes (l0 ++ l) x y.
Proof.
  intros (l1 & l2 & l3 & ->). exists (l0 ++ l1), l2, l3. by rewrite <- app_assoc.
Qed.

Lemma precedes_app_r {A} (l l1 : list A) (x y : A) :
  precedes l x y → precedes (l ++ l1) x y.
Proof.
  intros (l1' & l2 & l3 & ->). exists l1', l2, (l3 ++ l1).
  rewrite <- !app_assoc. simpl. by rewrite <- ?app_assoc.
Qed.

Section depth_first_order.
Variables (t : table) (tree : Z).
Hypothesis Hwo : well_ordered t.

Lemma group_ok_siblings p : group_ok t tree p (siblings t tree p).
Proof. split; [apply siblings_sorted|done]. Qed.

Lemma group_ok_rest p kid rest : group_ok t tree p (kid :: rest) → group_ok t tree p rest.
Proof.
  intros [Hs Hin]. apply StronglySorted_inv in Hs as [Hs _].
  split; [done|]. intros g Hg. apply Hin. by right.
Qed.

Lemma depth_first_rows (group out : list Row) (p : option Z) (x : Row) :
  depth_first t tree group out → group_ok t tree p group → x ∈ out →
  t !! x.1 = Some x.2 ∧ simulation_id x.2 = tree.
Proof.
  intros Hdf [_ Hin] Hx.
  eapply depth_first_elem_of in Hx as (Hrow & g & Hg & Hgx); [|done|].
  2:{ intros g Hg. by apply Hin, elem_of_siblings in Hg as (? & _). }
  split; [done|]. destruct Hgx as [->|Hd].
  - by apply Hin, elem_of_siblings in Hg as (_ & ? & _).
  - apply descends_parent in Hd as (m & q & Hm & Hs & _). unfold id in Hm.
    rewrite Hrow in Hm. by injection Hm as <-.
Qed.

Section cons.
Variables (p : option Z) (kid : Row) (rest branch out : list Row).
Hypothesis Hgroup : group_ok t tree p (kid :: rest).
Hypothesis Hbranch : depth_first t tree (siblings t tree (Some (id kid))) branch.
Hypothesis Hout : depth_first t tree rest out.

Lemma kid_row :
  t !! kid.1 = Some kid.2 ∧ simulation_id kid.2 = tree ∧ parent_id kid.2 = p.
Proof. destruct Hgroup as [_ Hin]. apply elem_of_siblings, Hin. left. Qed.

Lemma rest_row g :
  g ∈ rest →
  t !! g.1 = Some g.2 ∧ simulation_id g.2 = tree ∧ parent_id g.2 = p ∧ id kid < id g.
Proof.
  intros Hg. destruct Hgroup as [Hs Hin].
  destruct (proj1 (elem_of_siblings t tree p g)) as (? & ? & ?); [apply Hin; by right|].
  split_and!; [done..|].
  apply StronglySorted_inv in Hs as [_ Hall]. rewrite Forall_forall in Hall. by apply Hall.
Qed.

Lemma elem_of_branch x :
  x ∈ branch ↔ t !! x.1 = Some x.2 ∧ descends t tree (id kid) (id x).
Proof.
  rewrite (depth_first_elem_of t tree _ _ Hbranch).
  2:{ intros g Hg. by apply elem_of_siblings in Hg as (? & _). }
  split; intros [Hx Hd]; (split; [done|]); by apply branch_descends.
Qed.

Lemma elem_of_out x :
  x ∈ out ↔
  t !! x.1 = Some x.2 ∧ ∃ g, g ∈ rest ∧ (x = g ∨ descends t tree (id g) (id x)).
Proof.
  apply (depth_first_elem_of t tree _ _ Hout).
  intros g Hg. by apply rest_row in Hg as (? & _).
Qed.

Lemma kid_not_in_branch : kid ∉ branch.
Proof. intros [_ Hd%(descends_lt t tree Hwo)]%elem_of_branch. lia. Qed.

Lemma sibling_not_in_branch b :
  t !! b.1 = Some b.2 → parent_id b.2 = p → b ∉ branch.
Proof.
  intros Hb Hp [_ Hd]%elem_of_branch. destruct kid_row as (Hk & _ & Hpk).
  eapply (sibling_not_descendant t tree Hwo (id kid) kid.2 (id b) b.2); eauto.
  by rewrite Hp, Hpk.
Qed.

Lemma kid_not_in_out : kid ∉ out.
Proof.
  intros (_ & g & Hg & Hgk)%elem_of_out.
  destruct (rest_row g Hg) as (Hgrow & _ & Hpg & Hlt). destruct kid_row as (Hk & _ & Hpk).
  destruct Hgk as [->|Hd]; [lia|].
  eapply (sibling_not_descendant t tree Hwo (id g) g.2 (id kid) kid.2); eauto.
  by rewrite Hpg, Hpk.
Qed.

Lemma branch_out_disjoint x : x ∈ branch → x ∈ out → False.
Proof.
  intros [Hx Hd]%elem_of_branch (_ & g & Hg & Hgx)%elem_of_out.
  destruct (rest_row g Hg) as (Hgrow & _ & Hpg & Hlt). destruct kid_row as (Hk & _ & Hpk).
  destruct Hgx as [->|Hdg].
  - eapply (sibling_not_descendant t tree Hwo (id kid) kid.2 (id g) g.2); eauto.
    by rewrite Hpg, Hpk.
  - eapply (no_common_descendant t tree Hwo (id kid) kid.2 (id g) g.2 (id x)); eauto.
    + by rewrite Hpg, Hpk.
    + lia.
Qed.
End cons.

Lemma depth_first_NoDup (group out : list Row) (p : option Z) :
  depth_first t tree group out → group_ok t tree p group → NoDup out.
Proof.
  intros Hdf. revert p.
  induction Hdf as [|kid rest branch out Hb IHb Ho IHo]; intros p Hg; [constructor|].
  apply NoDup_cons. split.
  - intros [Hin|Hin]%elem_of_app.
    + by apply (kid_not_in_branch kid branch Hb).
    + by apply (kid_not_in_out p kid rest branch out Hg Hb Ho).
  - apply NoDup_app. split_and!.
    + apply (IHb (Some (id kid))), group_ok_siblings.
    + intros x Hx1 Hx2. by apply (branch_out_disjoint p kid rest branch out Hg Hb Ho x).
    + apply (IHo p). by eapply group_ok_rest.
Qed.

(** For two rows of one sibling group, the one with the smaller id and all
    its descendants come before the other. *)
Lemma depth_first_siblings_order (group out : list Row) (p : option Z) :
  depth_first t tree group out → group_ok t tree p group →
  ∀ a b x, a ∈ out → b ∈ out → parent_id a.2 = parent_id b.2 → id a < id b →
    x = a ∨ (t !! x.1 = Some x.2 ∧ descends t tree (id a) (id x)) →
    precedes out x b.
Proof.
  intros Hdf. revert p.
  induction Hdf as [|kid rest branch out Hb IHb Ho IHo]; intros p Hg a b x Ha Hbin Hpar Hlt Hx.
  { by apply not_elem_of_nil in Ha. }
  pose proof (depth_first_cons t tree kid rest branch out Hb Ho) as Hall.
  destruct (depth_first_rows _ _ p a Hall Hg Ha) as [Harow Has].
  destruct (depth_first_rows _ _ p b Hall Hg Hbin) as [Hbrow Hbs].
  destruct (kid_row p kid rest Hg) as (Hkrow & Hks & Hkp).
  apply elem_of_cons in Ha as [->|[Ha|Ha]%elem_of_app].
  - (* a is the head of the group *)
    assert (Hbout : b ∈ out).
    { apply elem_of_cons in Hbin as [->|[Hbin|Hbin]%elem_of_app]; [lia| |done].
      destruct (sibling_not_in_branch p kid rest branch Hg Hb b); [done| |done].
      by rewrite <- Hpar. }
    destruct Hx as [->|[Hxrow Hxd]].
    + by apply (precedes_split [kid] (branch ++ out)); [left|apply elem_of_app; right].
    + apply (precedes_split (kid :: branch) out); [|done].
      right. by apply (elem_of_branch kid branch Hb).
  - (* a is in the branch of the head *)
    apply (elem_of_branch kid branch Hb) in Ha as Ha'. destruct Ha' as [_ Had].
    assert (Hbbr : b ∈ branch).
    { apply (elem_of_branch kid branch Hb). split; [done|].
      apply descends_parent in Had as (m & q & Hm & _ & Hq & Hkq).
      unfold id in Hm. rewrite Harow in Hm. injection Hm as <-.
      rewrite Hq in Hpar.
      destruct Hkq as [->|Hkq].
      - by apply (descends_child t tree (id kid) (id b) b.2).
      - by apply (descends_up t tree (id kid) q (id b) b.2). }
    apply (precedes_app_l [kid]), precedes_app_r.
    by apply (IHb (Some (id kid)) (group_ok_siblings _) a b x).
  - (* a is further on *)
    apply (elem_of_out p kid rest out Hg Ho) in Ha as Ha'.
    destruct Ha' as (_ & g & Hgin & Hga).
    destruct (rest_row p kid rest Hg g Hgin) as (Hgrow & _ & Hgp & Hkg).
    assert (Hbout : b ∈ out).
    { apply elem_of_cons in Hbin as [->|[Hbin|Hbin]%elem_of_app]; [| |done].
      - exfalso. destruct Hga as [->|Hd]; [lia|].
        eapply (sibling_not_descendant t tree Hwo (id g) g.2 (id a) a.2); eauto.
        by rewrite Hpar, Hgp, Hkp.
      - exfalso. apply (branch_out_disjoint p kid rest branch out Hg Hb Ho a); [|done].
        apply (elem_of_branch kid branch Hb). split; [done|].
        apply (elem_of_branch kid branch Hb) in Hbin as [_ Hbd].
        apply descends_parent in Hbd as (m & q & Hm & _ & Hq & Hkq).
        unfold id in Hm. rewrite Hbrow in Hm. injection Hm as <-.
        rewrite Hq in Hpar.
        destruct Hkq as [->|Hkq].
        + by apply (descends_child t tree (id kid) (id a) a.2).
        + by apply (descends_up t tree (id kid) q (id a) a.2). }
    apply (precedes_app_l (kid :: branch)).
    by apply (IHo p (group_ok_rest p kid rest Hg) a b x).
Qed.

(** A row comes before its descendants. *)
Lemma depth_first_preorder (group out : list Row) (p : option Z) :
  depth_first t tree group out → group_ok t tree p group →
  ∀ a x, a ∈ out → x ∈ out → descends t tree (id a) (id x) → precedes out a x.
Proof.
  intros Hdf. revert p.
  induction Hdf as [|kid rest branch out Hb IHb Ho IHo]; intros p Hg a x Ha Hx Hd.
  { by apply not_elem_of_nil in Ha. }
  pose proof (depth_first_cons t tree kid rest branch out Hb Ho) as Hall.
  destruct (depth_first_rows _ _ p x Hall Hg Hx) as [Hxrow _].
  apply elem_of_cons in Ha as [->|[Ha|Ha]%elem_of_app].
  - apply (precedes_split [kid] (branch ++ out)); [left|].
    apply elem_of_app. left. by apply (elem_of_branch kid branch Hb).
  - apply (elem_of_branch kid branch Hb) in Ha as Ha'. destruct Ha' as [_ Had].
    apply (precedes_app_l [kid]), precedes_app_r.
    apply (IHb (Some (id kid)) (group_ok_siblings _) a x); [done| |done].
    apply (elem_of_branch kid branch Hb). split; [done|].
    by apply (descends_trans t tree (id kid) (id a) (id x)).
  - apply (elem_of_out p kid rest out Hg Ho) in Ha as Ha'.
    destruct Ha' as (_ & g & Hgin & Hga).
    apply (precedes_app_l (kid :: branch)).
    apply (IHo p (group_ok_rest p kid rest Hg) a x); [done| |done].
    apply (elem_of_out p kid rest out Hg Ho). split; [done|].
    exists g. split; [done|]. right.
    destruct Hga as [->|Hga]; [done|].
    by apply (descends_trans t tree (id g) (id a) (id x)).
Qed.
End depth_first_order.

(** In a store whose parent references stay inside the simulation, every row
    of the simulation is a root or descends from one. *)
Lemma every_row_rooted (t : table) (tree : Z) :
  well_ordered t → parents_in_tree t →
  ∀ k m, t !! k = Some m → simulation_id m = tree →
    ∃ r, r ∈ siblings t tree None ∧ ((k, m) = r ∨ descends t tree (id r) k).
Proof.
  intros Hwo Hpt k.
  assert (Hind : ∀ (n : nat) (k : Z), (size (filter (λ r : Row, (r.1 ≤ k)%Z) t) < n)%nat →
    ∀ m, t !! k = Some m → simulation_id m = tree →
    ∃ r, r ∈ siblings t tree None ∧ ((k, m) = r ∨ descends t tree (id r) k)).
  { clear k. induction n as [|n IH]; intros k Hsz m Hk Hs; [lia|].
    destruct (parent_id m) as [p|] eqn:Hp.
    - pose proof (parent_lt t Hwo k m p Hk Hp) as Hlt.
      specialize (Hpt k m Hk). simpl in Hpt. rewrite Hp in Hpt.
      destruct (t !! p) as [pm|] eqn:Hpm; [|done]. injection Hpt as Hps.
      destruct (IH p) with (m := pm) as (r & Hr & Hrp); [|done|congruence|].
      + assert (Hsub : filter (λ r : Row, r.1 ≤ p) t ⊂ filter (λ r : Row, r.1 ≤ k) t).
        { apply map_subset_alt. split.
          - apply map_filter_strong_subseteq_ext. intros i x [Hi Hx]. simpl in *.
            split; [lia|done].
          - exists k. split.
            + apply map_lookup_filter_None. right. intros x _. simpl. lia.
            + exists m. apply map_lookup_filter_Some. split; [done|]. simpl. lia. }
        apply map_subset_size in Hsub. lia.
      + exists r. split; [done|]. right. destruct Hrp as [<-|Hrp].
        * by apply (descends_child t tree p k m).
        * by apply (descends_up t tree (id r) p k m).
    - exists (k, m). split; [|by left]. by apply elem_of_siblings. }
  apply (Hind (S (size t))).
  pose proof (map_size_filter (λ r : Row, r.1 ≤ k) t). lia.
Qed.

(** C4.  In a store where parents were created before their children,
    full-tree traversal of a simulation returns a list [out] which is its
    depth-first listing from the roots: it holds, once each, exactly the rows
    that are a root of the simulation or descend from one (all the rows of the
    simulation when the parent references stay inside it); of two rows with
    the same parent (two roots as well) the one with the smaller id comes
    first, and so do all its descendants, before the other; and a row comes
    before its descendants. *)
Theorem full_tree_depth_first (d : Database) (tree : Z) :
  well_ordered (messages d) →
  ∃ out,
    get_messages_by_tree_endpoint tree None d
      = (Return (Dicts (message_dict <$> out)), d) ∧
    depth_first (messages d) tree (siblings (messages d) tree None) out ∧
    NoDup out ∧
    (∀ x, x ∈ out ↔
          messages d !! x.1 = Some x.2 ∧
          ∃ r, (messages d !! r.1 = Some r.2 ∧ simulation_id r.2 = tree ∧
                parent_id r.2 = None) ∧
               (x = r ∨ descends (messages d) tree (id r) (id x))) ∧
    (parents_in_tree (messages d) →
     ∀ k m, messages d !! k = Some m → simulation_id m = tree → (k, m) ∈ out) ∧
    (∀ a b x, a ∈ out → b ∈ out → parent_id a.2 = parent_id b.2 → id a < id b →
        x = a ∨ (messages d !! x.1 = Some x.2 ∧ descends (messages d) tree (id a) (id x)) →
        precedes out x b) ∧
    (∀ a x, a ∈ out → x ∈ out → descends (messages d) tree (id a) (id x) →
        precedes out a x).
Proof.
  intros Hwo. destruct (ordered_messages_full (messages d) tree Hwo) as (out & E & Hdf).
  exists out. rewrite get_messages_by_tree_endpoint_unfold, E.
  assert (Hin : ∀ x, x ∈ out ↔
          messages d !! x.1 = Some x.2 ∧
          ∃ r, (messages d !! r.1 = Some r.2 ∧ simulation_id r.2 = tree ∧
                parent_id r.2 = None) ∧
               (x = r ∨ descends (messages d) tree (id r) (id x))).
  { intros x. rewrite (depth_first_elem_of (messages d) tree _ _ Hdf).
    - by setoid_rewrite elem_of_siblings.
    - intros g Hg. by apply elem_of_siblings in Hg as (? & _). }
  split_and!; [done|done| |done| | |].
  - by apply (depth_first_NoDup (messages d) tree Hwo _ _ None Hdf), group_ok_siblings.
  - intros Hpt k m Hk Hs. apply Hin. split; [done|].
    destruct (every_row_rooted (messages d) tree Hwo Hpt k m Hk Hs) as (r & Hr & Hrk).
    exists r. split; [by apply elem_of_siblings|done].
  - by apply (depth_first_siblings_order (messages d) tree Hwo _ _ None Hdf),
      group_ok_siblings.
  - by apply (depth_first_preorder (messages d) tree _ _ None Hdf), group_ok_siblings.
Qed.

Lemma full_tree_depth_first_witness :
  ∃ out,
    get_messages_by_tree_endpoint 1 None (mkDatabase ex_forest 8 [])
      = (Return (Dicts (message_dict <$> out)), mkDatabase ex_forest 8 []) ∧
    id <$> out = [1; 2; 4; 7; 3; 5; 6] ∧
    precedes out (7, ex_message false (Some 2)) (3, ex_message false (Some 1)).
Proof.
  destruct (full_tree_depth_first (mkDatabase ex_forest 8 []) 1)
    as (out & E & _ & _ & Hin & Hall & Hord & _).
  { apply (bool_decide_unpack (well_ordered ex_forest)). by vm_compute. }
  exists out. split; [exact E|]. split.
  - assert (Hc : get_messages_by_tree_endpoint 1 None (mkDatabase ex_forest 8 [])
               = (Return (Dicts (message_dict <$>
                    [(1, ex_message false None); (2, ex_message false (Some 1));
                     (4, ex_message false (Some 2)); (7, ex_message false (Some 2));
                     (3, ex_message false (Some 1)); (5, ex_message false (Some 3));
                     (6, ex_message false None)])), mkDatabase ex_forest 8 []))
      by by vm_compute.
    rewrite E in Hc. injection Hc as Hc.
    assert (Hids : dict_id <$> (message_dict <$> out) = id <$> out).
    { rewrite <- list_fmap_compose. by apply list_fmap_ext. }
    rewrite <- Hids, Hc. done.
  - assert (Hpt : parents_in_tree ex_forest)
      by (apply (bool_decide_unpack (parents_in_tree ex_forest)); by vm_compute).
    apply (Hord (2, ex_message false (Some 1)) (3, ex_message false (Some 1))).
    + by apply (Hall Hpt).
    + by apply (Hall Hpt).
    + done.
    + done.
    + right. split; [done|].
      by apply (descends_child _ _ 2 7 (ex_message false (Some 2))).
Defined.

(** [get_tree] runs the same traversal and then sorts its result by id: what
    it returns is in id order, which is not the depth-first order. *)
Lemma get_tree_sorted_by_id :
  ∃ ordered,
    (get_tree 1 (open_session (mkDatabase ex_forest 8 []))).1 = Return ordered ∧
    id <$> ordered = [1; 2; 3; 4; 5; 6; 7].
Proof. eexists. split; by vm_compute. Qed.

(** ** The active path is a path *)

Section selected_chain.
Variable t : table.
Hypothesis Hwo : well_ordered t.
Hypothesis Hpt : parents_in_tree t.
Hypothesis Hap : active_path t.

Lemma selected_parent k m q :
  t !! k = Some m → selected m = true → parent_id m = Some q →
  ∃ mq, t !! q = Some mq ∧ selected mq = true ∧ simulation_id mq = simulation_id m.
Proof.
  intros Hk Hs Hq. destruct Hap as [_ Hconn].
  destruct (Hconn k m q Hk Hs Hq) as (mq & Hmq & Hsq). exists mq. split_and!; [done..|].
  specialize (Hpt k m Hk). simpl in Hpt. rewrite Hq, Hmq in Hpt. by injection Hpt.
Qed.

(** The ancestors of a selected row are selected rows of its simulation. *)
Lemma selected_ancestor tree a k m :
  descends t tree a k → t !! k = Some m → selected m = true →
  ∃ ma, t !! a = Some ma ∧ selected ma = true ∧ simulation_id ma = tree.
Proof.
  induction 1 as [a k m' Hk Hs Hp|a q k m' Hk Hs Hp Hq IH] in m |- *; intros Hm Hsel.
  - rewrite Hk in Hm. injection Hm as ->.
    destruct (selected_parent k m a) as (ma & ? & ? & ?); [done..|].
    exists ma. split_and!; [done..|congruence].
  - rewrite Hk in Hm. injection Hm as ->.
    destruct (selected_parent k m q) as (mq & ? & ? & ?); [done..|].
    by apply (IH mq).
Qed.

Lemma selected_chain_aux (n : nat) :
  ∀ kb mb, (size (filter (λ r : Row, (r.1 ≤ kb)%Z) t) < n)%nat →
    t !! kb = Some mb → selected mb = true →
    ∀ ka ma, t !! ka = Some ma → selected ma = true →
      simulation_id ma = simulation_id mb → ka < kb →
      descends t (simulation_id mb) ka kb.
Proof.
  induction n as [|n IH]; intros kb mb Hsz Hb Hsb ka ma Ha Hsa Hsim Hlt; [lia|].
  assert (Hshrink : ∀ k, k < kb → t !! kb = Some mb →
            (size (filter (λ r : Row, (r.1 ≤ k)%Z) t) < n)%nat).
  { intros k Hk _.
    assert (Hsub : filter (λ r : Row, r.1 ≤ k) t ⊂ filter (λ r : Row, r.1 ≤ kb) t).
    { apply map_subset_alt. split.
      - apply map_filter_strong_subseteq_ext. intros i x [Hi Hx]. simpl in *.
        split; [lia|done].
      - exists kb. split.
        + apply map_lookup_filter_None. right. intros x _. simpl. lia.
        + exists mb. apply map_lookup_filter_Some. split; [done|]. simpl. lia. }
    apply map_subset_size in Hsub. lia. }
  destruct (parent_id mb) as [q|] eqn:Hq.
  - (* b has the selected parent q *)
    destruct (selected_parent kb mb q Hb Hsb Hq) as (mq & Hmq & Hsq & Hsimq).
    pose proof (parent_lt t Hwo kb mb q Hb Hq) as Hqb.
    destruct (decide (ka = q)) as [->|Hne].
    { by apply (descends_child t _ q kb mb). }
    destruct (decide (ka < q)) as [Hlt'|Hge].
    { apply (descends_up t _ ka q kb mb); [done..|].
      rewrite <- Hsimq.
      apply (IH q mq (Hshrink q Hqb Hb) Hmq Hsq ka ma); [done|done|congruence|done]. }
    (* q < ka < kb: a descends from q, through a selected child of q, which is b *)
    exfalso. assert (Hqa : descends t (simulation_id ma) q ka).
    { apply (IH ka ma (Hshrink ka Hlt Hb) Ha Hsa q mq); [done|done|congruence|lia]. }
    apply descends_left_inv in Hqa as (c & mc & Hc & Hsc & Hpc & Hca).
    assert (Hselc : selected mc = true).
    { destruct Hca as [->|Hca]; [congruence|].
      destruct (selected_ancestor _ c ka ma Hca Ha Hsa) as (mc' & Hc' & ? & _).
      congruence. }
    assert (c = kb).
    { destruct Hap as [Huniq _]. apply (Huniq c mc kb mb); [done..|congruence|congruence]. }
    subst c. destruct Hca as [->|Hca%(descends_lt t _ Hwo)]; lia.
  - (* b is a selected root: so is the root above a *)
    exfalso.
    destruct (every_row_rooted t (simulation_id ma) Hwo Hpt ka ma Ha eq_refl)
      as ([kr mr] & Hroot & Hra).
    apply elem_of_siblings in Hroot as (Hr & Hsr & Hpr). simpl in *.
    assert (selected mr = true ∧ kr ≤ ka) as [Hselr Hle].
    { destruct Hra as [[= <- <-]|Hra]; [split; [done|lia]|].
      destruct (selected_ancestor _ kr ka ma Hra Ha Hsa) as (mr' & Hr' & ? & _).
      apply (descends_lt t _ Hwo) in Hra. unfold id in Hra. simpl in Hra.
      split; [congruence|lia]. }
    assert (kr = kb).
    { destruct Hap as [Huniq _]. apply (Huniq kr mr kb mb); [done..|congruence|congruence]. }
    lia.
Qed.

Lemma active_path_selected_chain : selected_chain t.
Proof.
  intros ka ma kb mb Ha Hb Hsa Hsb Hsim Hlt. rewrite Hsim.
  assert (Hsz : (size (filter (λ r : Row, (r.1 ≤ kb)%Z) t) < S (size t))%nat).
  { pose proof (map_size_filter (λ r : Row, r.1 ≤ kb) t). lia. }
  by apply (selected_chain_aux _ kb mb Hsz Hb Hsb ka ma).
Qed.
End selected_chain.

Lemma select_messages_ind (P : table → Prop) :
  (∀ t k m, t !! k = Some m → parent_is_selected t m → no_selected_sibling t k m →
            P t → P (<[k := set_selected true m]> t)) →
  ∀ ks d d', P (messages d) → select_messages ks d = Some d' → P (messages d').
Proof.
  intros Hstep ks. induction ks as [|k ks IH]; intros d d' HP; simpl.
  - by intros [= <-].
  - destruct (select_message k d) as [[r| |] d1] eqn:E; [|done..].
    apply select_message_Return in E as (m & Hk & Hpar & Hsib & Hm).
    apply IH. rewrite Hm. by apply Hstep.
Qed.

Lemma well_ordered_set_selected (t : table) k m b :
  t !! k = Some m → well_ordered t → well_ordered (<[k := set_selected b m]> t).
Proof. intros Hk Hwo. apply map_Forall_insert_2; [|done]. by apply (Hwo k m). Qed.

Lemma parents_in_tree_set_selected (t : table) k m b :
  t !! k = Some m → parents_in_tree t → parents_in_tree (<[k := set_selected b m]> t).
Proof.
  intros Hk Hpt.
  assert (Hlook : ∀ p s, simulation_id <$> t !! p = Some s →
            simulation_id <$> <[k := set_selected b m]> t !! p = Some s).
  { intros p s Hp. destruct (decide (p = k)) as [->|Hne].
    - rewrite lookup_insert_eq. rewrite Hk in Hp. done.
    - by rewrite lookup_insert_ne. }
  intros k' m' Hk'. destruct (decide (k' = k)) as [->|Hne].
  - rewrite lookup_insert_eq in Hk'. injection Hk' as <-. simpl.
    specialize (Hpt k m Hk). simpl in Hpt.
    destruct (parent_id m); [by apply Hlook|done].
  - rewrite lookup_insert_ne in Hk' by done. specialize (Hpt k' m' Hk'). simpl in Hpt.
    destruct (parent_id m'); [by apply Hlook|done].
Qed.

(** C2.  The active-path invariant (at most one selected message per
    sibling group, and the parent of every selected message is selected) is
    kept by every sequence of [select] calls that all succeed.  In a store
    whose parent references point to older rows of the same simulation, the
    selected rows of a simulation then lie on one path from a root: of two of
    them the older is an ancestor of the newer. *)
Theorem select_messages_active_path (ks : list Z) (d d' : Database) :
  active_path (messages d) →
  select_messages ks d = Some d' →
  active_path (messages d') ∧
  (well_ordered (messages d) → parents_in_tree (messages d) →
   selected_chain (messages d')).
Proof.
  intros Hinv Hrun.
  assert (Hinv' : active_path (messages d')).
  { revert Hinv Hrun. apply select_messages_ind. intros t k m. apply active_path_select. }
  split; [done|]. intros Hwo Hpt. apply active_path_selected_chain; [| |done].
  - revert Hwo Hrun. apply select_messages_ind. intros t k m Hk _ _.
    by apply well_ordered_set_selected.
  - revert Hpt Hrun. apply select_messages_ind. intros t k m Hk _ _.
    by apply parents_in_tree_set_selected.
Qed.

Lemma select_messages_active_path_witness :
  active_path (<[3 := ex_message true (Some 2)]>
                 (<[2 := ex_message true (Some 1)]>
                    (<[1 := ex_message true None]> ex_chain))) ∧
  selected_chain (<[3 := ex_message true (Some 2)]>
                    (<[2 := ex_message true (Some 1)]>
                       (<[1 := ex_message true None]> ex_chain))).
Proof.
  destruct (select_messages_active_path [1; 2; 3] (mkDatabase ex_chain 4 [])
              (mkDatabase (<[3 := ex_message true (Some 2)]>
                 (<[2 := ex_message true (Some 1)]>
                    (<[1 := ex_message true None]> ex_chain))) 4 [])) as [Hap Hchain].
  - apply (bool_decide_unpack _). by vm_compute.
  - by vm_compute.
  - split; [exact Hap|]. apply Hchain.
    + apply (bool_decide_unpack (well_ordered ex_chain)). by vm_compute.
    + apply (bool_decide_unpack (parents_in_tree ex_chain)). by vm_compute.
Defined.

(** * Further properties *)

(** ** Selection never clears a flag *)

Lemma flags_raised_refl (t : table) : flags_raised t t.
Proof. split; [done|]. intros k m Hk. exists m. by repeat split. Qed.

Lemma flags_raised_select (t0 t : table) k m :
  t !! k = Some m → flags_raised t0 t →
  flags_raised t0 (<[k := set_selected true m]> t).
Proof.
  intros Hk [Hdom Hrows]. split.
  - intros k'. rewrite <- Hdom. destruct (decide (k' = k)) as [->|Hne].
    + rewrite lookup_insert_eq, Hk. split; eauto.
    + by rewrite lookup_insert_ne.
  - intros k' m0 Hk'. destruct (Hrows k' m0 Hk') as (m' & Hm' & Hcols & Hsel).
    destruct (decide (k' = k)) as [->|Hne].
    + rewrite lookup_insert_eq. eexists. split; [done|].
      rewrite Hk in Hm'. injection Hm' as ->. done.
    + rewrite lookup_insert_ne by done. eauto.
Qed.

(** X1.  Along any sequence of [select] calls that all succeed, the store
    keeps the same rows with the same content, role, simulation and parent,
    and every row that was selected stays selected: selecting never
    unselects. *)
Theorem select_messages_flags_raised (ks : list Z) (d d' : Database) :
  select_messages ks d = Some d' → flags_raised (messages d) (messages d').
Proof.
  intros Hrun.
  apply (select_messages_ind (flags_raised (messages d)) ) with (ks := ks) (d := d);
    [|apply flags_raised_refl|done].
  intros t k m Hk _ _. by apply flags_raised_select.
Qed.

Lemma select_messages_flags_raised_witness :
  flags_raised ex_chain
    (<[2 := ex_message true (Some 1)]> (<[1 := ex_message true None]> ex_chain)).
Proof.
  assert (Hrun : select_messages [1; 2] (mkDatabase ex_chain 4 []) =
                 Some (mkDatabase (<[2 := ex_message true (Some 1)]>
                          (<[1 := ex_message true None]> ex_chain)) 4 []))
    by by vm_compute.
  exact (select_messages_flags_raised _ _ _ Hrun).
Defined.

Lemma select_message_sibling_rejected (d : Database) (k k' : Z) (m m' : Message) :
  messages d !! k = Some m → selected m = true →
  messages d !! k' = Some m' → k' ≠ k →
  parent_id m' = parent_id m → simulation_id m' = simulation_id m →
  ∃ detail, select_message k' d = (Raise (HTTPException 400 detail), d).
Proof.
  intros Hk Hsel Hk' Hne Hp Hs. unfold select_message, request.
  assert (Hcl : close_session (open_session d) = d) by by destruct d.
  destruct (decide (parent_is_selected (messages d) m')) as [Hpar|Hpar].
  - destruct (update_message_selected_sibling (open_session d) k' m' Hk' Hpar)
      as (k2 & m2 & _ & _ & E).
    { intros Hno. rewrite (Hno k m) in Hsel; done. }
    rewrite E, Hcl. by eexists.
  - rewrite (update_message_selected_parent (open_session d) k' m' Hk' Hpar), Hcl.
    by eexists.
Qed.

(** X2.  Once a message is selected, no sibling of it (same parent, same
    simulation) can be selected: [select] on the sibling is rejected with a
    400 and changes nothing, now and after any sequence of successful
    selects; so no successful sequence contains the sibling. *)
Theorem selected_sibling_locked (ks : list Z) (d d' : Database) (k k' : Z)
    (m m' : Message) :
  messages d !! k = Some m → selected m = true →
  messages d !! k' = Some m' → k' ≠ k →
  parent_id m' = parent_id m → simulation_id m' = simulation_id m →
  select_messages ks d = Some d' →
  (k' ∉ ks) ∧
  (∃ detail, select_message k' d' = (Raise (HTTPException 400 detail), d')).
Proof.
  intros Hk Hsel Hk' Hne Hp Hs Hrun. split.
  - revert d Hk Hsel Hk' Hp Hs Hrun Hne. revert m m'.
    induction ks as [|k0 ks IH]; intros m m' d Hk Hsel Hk' Hp Hs Hrun Hne.
    { apply not_elem_of_nil. }
    simpl in Hrun.
    destruct (select_message k0 d) as [[r| |] d1] eqn:E; [|done..].
    intros [E0|Hin]%elem_of_cons.
    + subst k0. destruct (select_message_sibling_rejected d k k' m m') as [detail E']; [done..|].
      by rewrite E' in E.
    + assert (Hfl : flags_raised (messages d) (messages d1)).
      { apply (select_messages_flags_raised [k0] d d1). simpl. by rewrite E. }
      destruct Hfl as [_ Hrows].
      destruct (Hrows k m Hk) as (m1 & Hm1 & (_ & _ & Hs1 & Hp1) & Hsel1).
      destruct (Hrows k' m' Hk') as (m1' & Hm1' & (_ & _ & Hs1' & Hp1') & _).
      apply (IH m1 m1' d1); [done|by apply Hsel1|done|congruence|congruence|done..].
  - destruct (select_messages_flags_raised ks d d' Hrun) as [_ Hrows].
    destruct (Hrows k m Hk) as (m1 & Hm1 & (_ & _ & Hs1 & Hp1) & Hsel1).
    destruct (Hrows k' m' Hk') as (m1' & Hm1' & (_ & _ & Hs1' & Hp1') & _).
    apply (select_message_sibling_rejected d' k k' m1 m1'); [done|by apply Hsel1|done..| |];
      congruence.
Qed.

Lemma selected_sibling_locked_witness :
  (3 ∉ [1; 2]) ∧
  (∃ detail, select_message 3 ex_db = (Raise (HTTPException 400 detail), ex_db)).
Proof.
  apply (selected_sibling_locked [1; 2] ex_db ex_db 2 3
           (ex_message true (Some 1)) (ex_message false (Some 1)));
    [done..|by vm_compute].
Defined.

(** ** One commit: all or nothing *)

Lemma delete_messages_after_children_commit_fails (s : Session) (n : Z) (target : Message) :
  view s !! n = Some target → ¬ commit_works s →
  ∃ s', delete_messages_after_children n s = (Raise SQLAlchemyError, s') ∧
        durable s' = durable s.
Proof.
  intros Hn Hc. unfold delete_messages_after_children, bind, session_get. simpl.
  rewrite Hn. simpl. unfold session_commit, commit_works in *. simpl.
  destruct (outages s) as [|[] o]; simpl in *;
    [by destruct Hc | by eexists | by destruct Hc].
Qed.

Lemma add_commit_refresh_commit_fails (s : Session) (m : Message) :
  ¬ commit_works s →
  ∃ s', add_commit_refresh m s = (Raise SQLAlchemyError, s') ∧ durable s' = durable s.
Proof.
  intros Hc. unfold add_commit_refresh, bind, session_add, session_commit. simpl.
  unfold commit_works in Hc.
  destruct (outages s) as [|[] o]; simpl in *;
    [by destruct Hc | by eexists | by destruct Hc].
Qed.

(** X3.  [select], [trim-after] and [create_message] commit once, at their
    end: whatever the store does to that commit, each of them either returns
    or raises with every row of the store as it was.  None of them ends
    without a result. *)
Theorem single_commit_all_or_nothing (d : Database) :
  (∀ k, (∃ r d', select_message k d = (Return r, d')) ∨
        (∃ e d', select_message k d = (Raise e, d') ∧ messages d' = messages d)) ∧
  (∀ n, (∃ r d', trim_messages_after_children n d = (Return r, d')) ∨
        (∃ e d', trim_messages_after_children n d = (Raise e, d') ∧
                 messages d' = messages d)) ∧
  (∀ simulation parent text speaker_role,
        (∃ r d', create_message simulation parent text speaker_role d = (Return r, d')) ∨
        (∃ e d', create_message simulation parent text speaker_role d = (Raise e, d') ∧
                 messages d' = messages d)).
Proof.
  split_and!.
  - intros k. unfold select_message, request.
    destruct (messages d !! k) as [m|] eqn:Hk.
    2:{ right. rewrite (update_message_selected_missing (open_session d) k Hk). eauto. }
    destruct (decide (parent_is_selected (messages d) m)) as [Hpar|Hpar].
    2:{ right. rewrite (update_message_selected_parent (open_session d) k m Hk Hpar). eauto. }
    destruct (decide (no_selected_sibling (messages d) k m)) as [Hsib|Hsib].
    2:{ right. destruct (update_message_selected_sibling (open_session d) k m Hk Hpar Hsib)
          as (k' & m' & _ & _ & E). rewrite E. eauto. }
    destruct (decide (commit_works (open_session d))) as [Hc|Hc].
    + left. rewrite (update_message_selected_ok (open_session d) k m Hk Hpar Hsib Hc). eauto.
    + right. destruct (update_message_selected_commit_fails (open_session d) k m Hk Hpar Hsib Hc)
        as (s' & E & Hd). rewrite E. eauto.
  - intros n. unfold trim_messages_after_children, request, bind, try_except.
    destruct (messages d !! n) as [target|] eqn:Hn.
    2:{ right. rewrite (delete_messages_after_children_missing (open_session d) n Hn).
        simpl. eauto. }
    destruct (decide (commit_works (open_session d))) as [Hc|Hc].
    + left. rewrite (delete_messages_after_children_ok (open_session d) n target Hn Hc).
      simpl. eauto.
    + right. destruct (delete_messages_after_children_commit_fails (open_session d) n target Hn Hc)
        as (s' & E & Hd). rewrite E. simpl. eauto.
  - intros simulation parent text speaker_role. unfold create_message, request.
    destruct (decide (commit_works (open_session d))) as [Hc|Hc].
    + left. rewrite (add_commit_refresh_ok (open_session d) _ Hc). eauto.
    + right. destruct (add_commit_refresh_commit_fails (open_session d)
                         (mkMessage text speaker_role true simulation parent) Hc)
        as (s' & E & Hd). rewrite E. eauto.
Qed.

(** ** Trimming twice *)

Lemma is_cutoff_after_trim (t : table) (n c : Z) (target : Message) :
  is_cutoff t n c → is_cutoff (filter (λ r, ¬ doomed target c r) t) n c.
Proof.
  intros [(m & Hc & Hp & Hle)|[Hno ->]].
  - left. exists m. split_and!; [|done|].
    + apply map_lookup_filter_Some. split; [done|]. unfold doomed, id. simpl. lia.
    + intros k' m' [Hk' _]%map_lookup_filter_Some Hp'. by apply (Hle k' m').
  - right. split; [|done]. intros k' m' [Hk' _]%map_lookup_filter_Some.
    by apply (Hno k' m').
Qed.

(** X4.  [trim-after] is idempotent: on a store that answers, when the
    children of message [n] are newer than [n], a second [trim-after] of [n]
    deletes no row and leaves the store as the first one left it. *)
Theorem trim_after_idempotent (d : Database) (n : Z) (target : Message) :
  faults d = [] → messages d !! n = Some target →
  (∀ k m, messages d !! k = Some m → parent_id m = Some n → n < k) →
  ∃ msg d1,
    trim_messages_after_children n d = (Return msg, d1) ∧
    trim_messages_after_children n d1 =
      (Return ("Deleted 0 messages after message " +:+ pretty n +:+ " and its children."),
       d1).
Proof.
  intros Hf Hn Hnew.
  set (c := cutoff (messages d) n).
  set (t1 := filter (λ r, ¬ doomed target c r) (messages d)).
  pose proof (cutoff_is_cutoff (messages d) n) as Hc. fold c in Hc.
  assert (Hn1 : t1 !! n = Some target).
  { apply map_lookup_filter_Some. split; [done|]. unfold doomed, id. simpl.
    destruct (is_cutoff_bounds _ _ _ Hc) as [_ Hself]. specialize (Hself Hnew). lia. }
  assert (Hc1 : cutoff t1 n = c).
  { apply (is_cutoff_unique t1 n); [apply cutoff_is_cutoff|by apply is_cutoff_after_trim]. }
  assert (Hkeep : filter (λ r, ¬ doomed target c r) t1 = t1).
  { apply map_eq. intros k. apply option_eq. intros m.
    rewrite map_lookup_filter_Some. split; [by intros [? _]|].
    intros Hk. split; [done|]. by apply map_lookup_filter_Some in Hk as [_ ?]. }
  assert (Hnone : filter (doomed target c) t1 = ∅).
  { apply map_eq. intros k. rewrite lookup_empty. apply map_lookup_filter_None. right.
    intros m Hk. by apply map_lookup_filter_Some in Hk as [_ ?]. }
  eexists _, (mkDatabase t1 (message_id_seq d) []). split.
  - unfold trim_messages_after_children, request, bind, try_except.
    rewrite (delete_messages_after_children_ok (open_session d) n target Hn)
      by (unfold commit_works; simpl; by rewrite Hf).
    simpl. fold c. fold t1. by rewrite Hf.
  - unfold trim_messages_after_children, request, bind, try_except.
    rewrite (delete_messages_after_children_ok
               (open_session (mkDatabase t1 (message_id_seq d) [])) n target Hn1)
      by done.
    cbn [open_session view messages message_id_seq faults seq outages tail].
    rewrite Hc1, Hkeep, Hnone. by vm_compute.
Qed.

Lemma trim_after_idempotent_witness :
  ∃ msg d1,
    trim_messages_after_children 1 (mkDatabase ex_chain 4 []) = (Return msg, d1) ∧
    trim_messages_after_children 1 d1 =
      (Return "Deleted 0 messages after message 1 and its children.", d1).
Proof.
  apply (trim_after_idempotent (mkDatabase ex_chain 4 []) 1 (ex_message false None));
    [done|done|].
  assert (Hall : map_Forall (λ k m, parent_id m = Some 1 → 1 < k) ex_chain)
    by (apply (bool_decide_unpack _); by vm_compute).
  intros k m Hk. by apply (Hall k m).
Defined.

(** ** Generation: which attempt wins *)

Lemma first_valid_Some (results : list (option TreeData)) (result : TreeData) :
  first_valid results = Some result ↔
  ∃ before after, results = before ++ Some result :: after ∧ Forall (.= None) before.
Proof.
  induction results as [|[r|] results IH]; simpl.
  - split; [done|]. intros (before & after & E & _). by destruct before.
  - split.
    + intros [= ->]. by exists [], results.
    + intros (before & after & E & Hb). destruct before as [|b before]; simpl in E.
      * by injection E as ->.
      * injection E as <- _. by apply Forall_cons in Hb as [? _].
  - rewrite IH. split.
    + intros (before & after & -> & Hb). exists (None :: before), after. split; [done|].
      by constructor.
    + intros (before & after & E & Hb). destruct before as [|b before]; [done|].
      injection E as _ ->. apply Forall_cons in Hb as [_ Hb]. by exists before, after.
Qed.

Lemma first_valid_None_inv (results : list (option TreeData)) :
  first_valid results = None → Forall (.= None) results.
Proof.
  induction results as [|[r|] results IH]; simpl; [constructor|done|].
  intros E. constructor; [done|by apply IH].
Qed.

(** X5.  With the API key configured [create_tree] always returns: the result
    of the first attempt, in the order in which the attempts complete, that
    gave a valid tree, whatever the attempts that complete later give; and the
    error tree when no attempt gave one. *)
Theorem create_tree_first_completed (attempt : nat → option TreeData)
    (completion_order : list nat) :
  (∃ before j after result,
      completion_order = before ++ j :: after ∧
      Forall (λ j', attempt j' = None) before ∧
      attempt j = Some result ∧
      create_tree true attempt completion_order = Return result) ∨
  (Forall (λ j, attempt j = None) completion_order ∧
   create_tree true attempt completion_order = Return error_tree).
Proof.
  unfold create_tree.
  destruct (first_valid (attempt <$> completion_order)) as [result|] eqn:E.
  - left. apply first_valid_Some in E as (before & after & E & Hb).
    apply fmap_app_inv in E as (before' & rest & -> & E & ->).
    symmetry in E. apply fmap_cons_inv in E as (j & after' & Hj & -> & ->).
    exists before', j, after', result. split_and!; [done| |done..].
    by apply Forall_fmap in Hb.
  - right. split; [|done]. apply first_valid_None_inv in E.
    by apply Forall_fmap in E.
Qed.

(** ** The selected range *)

Lemma id_lt_sorted (t : table) (l : list Row) :
  NoDup l → (∀ r, r ∈ l → t !! r.1 = Some r.2) →
  StronglySorted id_le l → StronglySorted id_lt l.
Proof.
  intros Hnd Hin Hs.
  induction Hs as [|a l Hs IH Hall]; [constructor|].
  apply NoDup_cons in Hnd as [Ha Hnd]. constructor.
  - apply IH; [done|]. intros r Hr. apply Hin. by right.
  - apply Forall_forall. intros b Hb.
    rewrite Forall_forall in Hall. specialize (Hall b Hb). unfold id_le in Hall.
    unfold id_lt. destruct (decide (id a = id b)) as [E|]; [|lia].
    destruct Ha. rewrite (row_eq t a b); [done|..|done].
    + apply Hin. left.
    + apply Hin. by right.
Qed.

Lemma merge_sort_id_lt (t : table) (l : list Row) :
  NoDup l → (∀ r, r ∈ l → t !! r.1 = Some r.2) →
  StronglySorted id_lt (merge_sort id_le l).
Proof.
  intros Hnd Hin. apply (id_lt_sorted t).
  - by rewrite merge_sort_Permutation.
  - intros r. rewrite merge_sort_Permutation. apply Hin.
  - apply StronglySorted_merge_sort; apply _.
Qed.

Lemma id_lt_NoDup (l : list Row) : StronglySorted id_lt l → NoDup l.
Proof.
  induction 1 as [|a l _ IH Hall]; constructor; [|done].
  intros Ha. rewrite Forall_forall in Hall. specialize (Hall a Ha). unfold id_lt in Hall. lia.
Qed.

(** A list of rows is determined by its elements once it ascends by id. *)
Lemma id_lt_unique (l1 l2 : list Row) :
  StronglySorted id_lt l1 → StronglySorted id_lt l2 →
  (∀ r, r ∈ l1 ↔ r ∈ l2) → l1 = l2.
Proof.
  intros H1 H2 Hiff.
  assert (Htr : Transitive id_lt) by (intros a b c; unfold id_lt; lia).
  assert (Has : AntiSymm (=) id_lt) by (intros a b; unfold id_lt; lia).
  apply (StronglySorted_unique id_lt); [done..|].
  apply NoDup_Permutation; [by apply id_lt_NoDup..|done].
Qed.

Lemma rows_sorted (t : table) : StronglySorted id_lt (rows t).
Proof.
  apply (merge_sort_id_lt t); [apply NoDup_map_to_list|].
  intros [k m]. by rewrite elem_of_map_to_list.
Qed.

Lemma filter_sorted {A} (R : relation A) (P : A → Prop) `{!∀ x, Decision (P x)} (l : list A) :
  StronglySorted R l → StronglySorted R (filter P l).
Proof.
  induction 1 as [|a l _ IH Hall]; [constructor|].
  rewrite filter_cons. destruct (decide (P a)); [|done].
  constructor; [done|]. apply Forall_forall. intros b [_ Hb]%list_elem_of_filter.
  rewrite Forall_forall in Hall. by apply Hall.
Qed.

Lemma select_where_sorted (P : Row → Prop) `{!∀ r, Decision (P r)} (t : table) :
  StronglySorted id_lt (select_where P t).
Proof. apply filter_sorted, rows_sorted. Qed.

(** [order_by(Message.id)] on a query leaves the rows as the store hands
    them out. *)
Lemma merge_sort_select_where (P : Row → Prop) `{!∀ r, Decision (P r)} (t : table) :
  merge_sort id_le (select_where P t) = select_where P t.
Proof.
  apply id_lt_unique; [|apply select_where_sorted|].
  - apply (merge_sort_id_lt t); [apply NoDup_filter, NoDup_rows|].
    intros r Hr. by apply elem_of_select_where in Hr as [_ ?].
  - intros r. by rewrite merge_sort_Permutation.
Qed.

Lemma request_read {A} (m : M A) (d : Database) (a : outcome A) :
  m (open_session d) = (a, open_session d) → request m d = (a, d).
Proof. unfold request. intros ->. by destruct d. Qed.

(** X6.  The selected-path endpoint never writes.  It answers 400 when
    [end_id] is below [start_id]; otherwise it returns the selected rows whose
    id lies in the range, those of every simulation alike, ascending by id,
    and answers 404 exactly when there is none. *)
Theorem get_selected_messages_path_spec (d : Database) (start_id end_id : Z) :
  let hit (k : Z) (m : Message) := selected m = true ∧ start_id ≤ k ∧ k ≤ end_id in
  ∃ r, get_selected_messages_path start_id end_id d = (r, d) ∧
    if decide (end_id < start_id)
    then r = Raise (HTTPException 400 "start_id must be <= end_id")
    else
      (r = Raise (HTTPException 404 "No selected messages found in this range") ∧
       ∀ k m, messages d !! k = Some m → ¬ hit k m) ∨
      (∃ msgs, r = Return msgs ∧ msgs ≠ [] ∧
         StronglySorted (λ a b, id a < id b) msgs ∧
         ∀ x, x ∈ msgs ↔ messages d !! x.1 = Some x.2 ∧ hit x.1 x.2).
Proof.
  intros hit. unfold get_selected_messages_path.
  destruct (decide (end_id < start_id)) as [Hlt|Hge].
  - eexists. split; [by apply request_read|done].
  - set (Q := λ r : Row, selected r.2 = true ∧ start_id ≤ id r ∧ id r ≤ end_id).
    assert (Hrun : get_selected_messages_between start_id end_id (open_session d)
                   = (Return (select_where Q (messages d)), open_session d)).
    { unfold get_selected_messages_between. simpl. by rewrite merge_sort_select_where. }
    destruct (select_where Q (messages d)) as [|x msgs] eqn:E in |- *.
    + eexists. split.
      { apply request_read. unfold bind. rewrite Hrun, E. done. }
      left. split; [done|]. intros k m Hk Hhit.
      assert (Hin : (k, m) ∈ select_where Q (messages d))
        by (apply elem_of_select_where; done).
      rewrite E in Hin. by apply not_elem_of_nil in Hin.
    + eexists. split.
      { apply request_read. unfold bind. rewrite Hrun, E. done. }
      right. exists (x :: msgs). split_and!; [done|done| |].
      * rewrite <- E. apply select_where_sorted.
      * intros y. rewrite <- E, elem_of_select_where. unfold Q, hit, id. tauto.
Qed.

(** ** Deleting a subtree on a healthy store *)

Section below.
Variable t : table.
Hypothesis Hwo : well_ordered t.

Lemma below_lt a k : below t a k → a < k.
Proof.
  induction 1 as [a k m Hk Hp|a q k m Hk Hp _ IH].
  - by eapply parent_lt.
  - pose proof (parent_lt t Hwo k m q Hk Hp). lia.
Qed.

Lemma below_parent a k :
  below t a k →
  ∃ m q, t !! k = Some m ∧ parent_id m = Some q ∧ (q = a ∨ below t a q).
Proof. destruct 1 as [a k m Hk Hp|a q k m Hk Hp Hq]; eauto 10. Qed.

Lemma below_left_inv a k :
  below t a k →
  ∃ c m, t !! c = Some m ∧ parent_id m = Some a ∧ (c = k ∨ below t c k).
Proof.
  induction 1 as [a k m Hk Hp|a q k m Hk Hp _ (c & mc & Hc & Hpc & Hcq)].
  - exists k, m. eauto.
  - exists c, mc. split_and!; [done..|]. right.
    destruct Hcq as [->|Hcq]; [by eapply below_child|by eapply below_up].
Qed.

Lemma below_trans a q k : below t a q → below t q k → below t a k.
Proof.
  intros Haq. induction 1 as [q k m Hk Hp|q q' k m Hk Hp _ IH].
  - by eapply below_up.
  - eapply below_up; [done..|]. by apply IH.
Qed.

(** A row is not below one of its siblings. *)
Lemma sibling_not_below kid mk g mg :
  t !! kid = Some mk → t !! g = Some mg → parent_id mg = parent_id mk →
  ¬ below t kid g.
Proof.
  intros Hkid Hg Hpar (m & q & Hg' & Hq & Hdq)%below_parent.
  rewrite Hg in Hg'. injection Hg' as <-. rewrite Hq in Hpar.
  pose proof (parent_lt t Hwo kid mk q Hkid (eq_sym Hpar)).
  destruct Hdq as [->|Hdq%below_lt]; lia.
Qed.

(** Two different siblings have no row below both. *)
Lemma no_common_below kid mk g mg x :
  t !! kid = Some mk → t !! g = Some mg → parent_id mg = parent_id mk → kid ≠ g →
  below t kid x → below t g x → False.
Proof.
  intros Hkid Hg Hpar Hne Hx. revert Hkid.
  induction Hx as [kid x m Hx Hp|kid q x m Hx Hp Hq IH]; intros Hkid Hgx.
  - apply below_parent in Hgx as (m' & q' & Hx' & Hq' & Hd).
    rewrite Hx in Hx'. injection Hx' as <-. rewrite Hp in Hq'. injection Hq' as <-.
    destruct Hd as [->|Hd]; [done|].
    eapply (sibling_not_below g mg kid mk); eauto.
  - apply below_parent in Hgx as (m' & q' & Hx' & Hq' & Hd).
    rewrite Hx in Hx'. injection Hx' as <-. rewrite Hp in Hq'. injection Hq' as <-.
    destruct Hd as [->|Hd]; [|by apply IH].
    eapply (sibling_not_below kid mk g mg); eauto.
Qed.
End below.

Lemma below_mono (t t' : table) (a k : Z) :
  (∀ x m, t' !! x = Some m → t !! x = Some m) → below t' a k → below t a k.
Proof.
  intros Hsub. induction 1 as [a k m Hk Hp|a q k m Hk Hp _ IH].
  - eapply below_child; eauto.
  - eapply below_up; eauto.
Qed.

Lemma below_restrict (t t' : table) (a k : Z) :
  (∀ x, below t a x → t' !! x = t !! x) → below t a k → below t' a k.
Proof.
  intros Hsame. induction 1 as [a k m Hk Hp|a q k m Hk Hp Hq IH].
  - eapply below_child; [|done]. rewrite Hsame; [done|]. by eapply below_child.
  - eapply below_up; [|done|by apply IH]. rewrite Hsame; [done|]. by eapply below_up.
Qed.

Lemma well_ordered_sub (t t' : table) :
  (∀ x m, t' !! x = Some m → t !! x = Some m) → well_ordered t → well_ordered t'.
Proof. intros Hsub Hwo k m Hk. apply (Hwo k m). by apply Hsub. Qed.

Lemma size_newer_sub (t t' : table) (n : Z) :
  (∀ x m, t' !! x = Some m → t !! x = Some m) →
  (size (filter (λ r : Row, (n < r.1)%Z) t') ≤ size (filter (λ r : Row, (n < r.1)%Z) t))%nat.
Proof.
  intros Hsub. apply map_subseteq_size, map_subseteq_spec. intros k m.
  rewrite !map_lookup_filter_Some. intros [Hk Hlt]. split; [by apply Hsub|done].
Qed.

Lemma size_newer_child (t : table) (n c : Z) (m : Message) :
  t !! c = Some m → n < c →
  (size (filter (λ r : Row, (c < r.1)%Z) t) < size (filter (λ r : Row, (n < r.1)%Z) t))%nat.
Proof.
  intros Hc Hlt. apply map_subset_size, map_subset_alt. split.
  - apply map_subseteq_spec. intros k mk. rewrite !map_lookup_filter_Some. simpl.
    intros [Hk Hck]. split; [done|lia].
  - exists c. split.
    + apply map_lookup_filter_None. right. intros m' _. simpl. lia.
    + exists m. apply map_lookup_filter_Some. done.
Qed.

Section delete_loop.
Variable fuel : nat.
Hypothesis IHfuel : ∀ (n : Z) (s : Session),
  outages s = [] → well_ordered (view s) →
  (size (filter (λ r : Row, (n < r.1)%Z) (view s)) < fuel)%nat →
  ∃ s', delete_descendants fuel n s = (Return true, s') ∧
        outages s' = [] ∧ seq s' = seq s ∧
        ∀ k m, view s' !! k = Some m ↔ view s !! k = Some m ∧ ¬ below (view s) n k.

Lemma delete_loop_ok (n : Z) (l : list Row) (s : Session) :
  outages s = [] → well_ordered (view s) →
  (size (filter (λ r : Row, (n < r.1)%Z) (view s)) < S fuel)%nat →
  NoDup l → (∀ c, c ∈ l → view s !! c.1 = Some c.2 ∧ parent_id c.2 = Some n) →
  ∃ ys s',
    for_each l (λ child, delete_descendants fuel (id child) ;;; session_delete (id child)) s
      = (Return ys, s') ∧
    outages s' = [] ∧ seq s' = seq s ∧
    ∀ k m, view s' !! k = Some m ↔
           view s !! k = Some m ∧ ¬ ∃ c, c ∈ l ∧ (k = c.1 ∨ below (view s) c.1 k).
Proof.
  revert s. induction l as [|c l IH]; intros s Ho Hwo Hsz Hnd Hl.
  - exists [], s. split_and!; [done..|]. intros k m. split; [|by intros [? _]].
    intros Hk. split; [done|]. by intros (c & ?%not_elem_of_nil & _).
  - destruct (Hl c) as [Hc Hpc]; [left|].
    pose proof (parent_lt _ Hwo _ _ _ Hc Hpc) as Hnc.
    destruct (IHfuel c.1 s Ho Hwo) as (s1 & Hrun1 & Ho1 & Hq1 & Hv1).
    { pose proof (size_newer_child (view s) n c.1 c.2 Hc Hnc). lia. }
    set (s2 := mkSession (durable s1) (delete c.1 (view s1)) (seq s1) (outages s1)).
    assert (Hv2 : ∀ k m, view s2 !! k = Some m ↔
                    view s !! k = Some m ∧ k ≠ c.1 ∧ ¬ below (view s) c.1 k).
    { intros k m. simpl. rewrite lookup_delete_Some, Hv1. split; [intros [? [? ?]]|intros (? & ? & ?)]; split_and!; done. }
    assert (Hsub : ∀ x m, view s2 !! x = Some m → view s !! x = Some m).
    { intros x m Hx. by apply Hv2 in Hx as [? _]. }
    apply NoDup_cons in Hnd as [Hcl Hnd].
    assert (Hne : ∀ c', c' ∈ l → c'.1 ≠ c.1).
    { intros c' Hc' E. destruct (Hl c') as [Hc1 _]; [by right|].
      destruct Hcl. by rewrite <- (row_eq (view s) c' c). }
    assert (Hkeep : ∀ c' x, c' ∈ l → below (view s) c'.1 x → view s2 !! x = view s !! x).
    { intros c' x Hc' Hbx. destruct (Hl c') as [Hc1 Hp1]; [by right|].
      apply option_eq. intros m. rewrite Hv2. split; [by intros [? _]|].
      intros Hx. split_and!; [done| |].
      - intros ->. eapply (sibling_not_below (view s) Hwo c'.1 c'.2 c.1 c.2); eauto.
        congruence.
      - intros Hcx.
        eapply (no_common_below (view s) Hwo c.1 c.2 c'.1 c'.2 x); eauto; [congruence|].
        intros E. by apply (Hne c'). }
    destruct (IH s2) as (ys & s' & Hrun & Ho' & Hq' & Hv').
    + done.
    + by apply (well_ordered_sub (view s)).
    + pose proof (size_newer_sub (view s) (view s2) n Hsub). lia.
    + done.
    + intros c' Hc'. destruct (Hl c') as [Hc1 Hp1]; [by right|]. split; [|done].
      apply Hv2. split_and!; [done|by apply Hne|].
      eapply (sibling_not_below (view s) Hwo); eauto. congruence.
    + eexists _, s'. split_and!.
      * simpl. unfold bind at 1. unfold bind at 1. unfold id at 1. rewrite Hrun1.
        unfold session_delete at 1.
        change (mkSession _ (delete (id c) (view s1)) _ _) with s2.
        unfold bind at 1. rewrite Hrun. done.
      * done.
      * by rewrite Hq', <- Hq1.
      * intros k m. rewrite Hv', Hv2. split.
        -- intros [(Hk & Hkc & Hnb) Hno]. split; [done|].
           intros (c0 & [->|Hc0]%elem_of_cons & Hc0k).
           { destruct Hc0k; done. }
           apply Hno. exists c0. split; [done|].
           destruct Hc0k as [->|Hb]; [by left|]. right.
           apply (below_restrict (view s)); [|done].
           intros x Hx. by apply (Hkeep c0).
        -- intros [Hk Hno]. split_and!; [done|..].
           ++ intros ->. apply Hno. exists c. split; [left|by left].
           ++ intros Hb. apply Hno. exists c. split; [left|by right].
           ++ intros (c0 & Hc0 & Hc0k). apply Hno. exists c0. split; [by right|].
              destruct Hc0k as [->|Hb]; [by left|]. right.
              by apply (below_mono (view s) (view s2)).
Qed.
End delete_loop.

Lemma delete_descendants_ok (fuel : nat) (n : Z) (s : Session) :
  outages s = [] → well_ordered (view s) →
  (size (filter (λ r : Row, (n < r.1)%Z) (view s)) < fuel)%nat →
  ∃ s', delete_descendants fuel n s = (Return true, s') ∧
        outages s' = [] ∧ seq s' = seq s ∧
        ∀ k m, view s' !! k = Some m ↔ view s !! k = Some m ∧ ¬ below (view s) n k.
Proof.
  revert n s. induction fuel as [|fuel IH]; intros n s Ho Hwo Hsz; [lia|].
  destruct (delete_loop_ok fuel IH n
              (select_where (λ r : Row, parent_id r.2 = Some n) (view s)) s)
    as (ys & s1 & Hrun & Ho1 & Hq1 & Hv1); [done..| | |].
  { apply NoDup_filter, NoDup_rows. }
  { intros c Hc. apply elem_of_select_where in Hc as [? ?]. done. }
  exists (mkSession (view s1) (view s1) (seq s1) []). split_and!; [|done|done|].
  - simpl. unfold bind at 1. unfold session_exec at 1. unfold bind at 1.
    rewrite Hrun. unfold try_except, bind, session_commit. by rewrite Ho1.
  - intros k m. simpl. rewrite Hv1. split.
    + intros [Hk Hno]. split; [done|].
      intros (c & mc & Hc & Hpc & Hck)%below_left_inv. apply Hno.
      exists (c, mc). split; [by apply elem_of_select_where|]. simpl.
      destruct Hck as [->|?]; [by left|by right].
    + intros [Hk Hno]. split; [done|]. intros (c & Hc & Hck). apply Hno.
      apply elem_of_select_where in Hc as [Hpc Hc].
      assert (Hbc : below (view s) n c.1) by by eapply below_child.
      destruct Hck as [->|Hb]; [done|]. by eapply below_trans.
Qed.

Lemma delete_subtree_run (d : Database) (n : Z) :
  faults d = [] → well_ordered (messages d) →
  ∃ d', request (delete_messages_including_children n) d = (Return true, d') ∧
        message_id_seq d' = message_id_seq d ∧ faults d' = [] ∧
        ∀ k m, messages d' !! k = Some m ↔
               messages d !! k = Some m ∧ ¬ below (messages d) n k.
Proof.
  intros Hf Hwo.
  destruct (delete_descendants_ok (S (size (messages d))) n (open_session d) Hf Hwo)
    as (s' & Hrun & Ho & Hq & Hv).
  { pose proof (map_size_filter (λ r : Row, (n < r.1)%Z) (messages d)). simpl. lia. }
  assert (Hd : durable s' = view s').
  { revert Hrun. simpl. unfold bind at 1. unfold session_exec at 1. unfold bind at 1.
    destruct (for_each _ _ _) as [[ys| |] s1]; [|done..].
    unfold try_except, bind, session_commit.
    destruct (outages s1) as [|[] ?]; simpl; [|done|]; by intros [= <-]. }
  exists (close_session s'). split_and!.
  - unfold request, delete_messages_including_children.
    change (size (view (open_session d))) with (size (messages d)).
    by rewrite Hrun.
  - done.
  - done.
  - intros k m. simpl. rewrite Hd. apply Hv.
Qed.

(** X7.  On a store that answers and whose parents are older than their
    children, [delete_messages_including_children] returns [True] and removes
    exactly the rows below the message, at every depth and whatever simulation
    they carry: the message itself and every other row stay as they were, and
    the message is left without children. *)
Theorem delete_messages_including_children_spec (d : Database) (n : Z) :
  faults d = [] → well_ordered (messages d) →
  ∃ d', request (delete_messages_including_children n) d = (Return true, d') ∧
        message_id_seq d' = message_id_seq d ∧
        (∀ k m, messages d' !! k = Some m ↔
                messages d !! k = Some m ∧ ¬ below (messages d) n k) ∧
        messages d' !! n = messages d !! n ∧
        (∀ k m, messages d' !! k = Some m → parent_id m ≠ Some n).
Proof.
  intros Hf Hwo.
  destruct (delete_subtree_run d n Hf Hwo) as (d' & Hrun & Hq & _ & Hv).
  exists d'. split_and!; [done..| |].
  - apply option_eq. intros m. rewrite Hv.
    split; [by intros [? _]|]. intros Hn. split; [done|].
    intros Hb%(below_lt _ Hwo). lia.
  - intros k m. rewrite Hv. intros [Hk Hnb] Hp.
    apply Hnb. by eapply below_child.
Qed.

Lemma delete_messages_including_children_spec_witness :
  ∃ d', request (delete_messages_including_children 1) (mkDatabase ex_forest 8 [])
          = (Return true, d') ∧
        message_id_seq d' = 8 ∧
        (∀ k m, messages d' !! k = Some m ↔
                ex_forest !! k = Some m ∧ ¬ below ex_forest 1 k) ∧
        messages d' !! 1 = ex_forest !! 1 ∧
        (∀ k m, messages d' !! k = Some m → parent_id m ≠ Some 1).
Proof.
  apply (delete_messages_including_children_spec (mkDatabase ex_forest 8 []) 1);
    [done|].
  apply (bool_decide_unpack _). by vm_compute.
Defined.

(** ** [get_tree] *)

Lemma ordered_messages_full_rows (t : table) (tree : Z) :
  well_ordered t → parents_in_tree t →
  ∃ out, ordered_messages t tree None = Some out ∧ NoDup out ∧
         ∀ x, x ∈ out ↔ t !! x.1 = Some x.2 ∧ simulation_id x.2 = tree.
Proof.
  intros Hwo Hpt. destruct (ordered_messages_full t tree Hwo) as (out & E & Hdf).
  exists out. split_and!; [done| |].
  - by apply (depth_first_NoDup t tree Hwo _ _ None Hdf), group_ok_siblings.
  - intros x. split.
    + intros Hx.
      exact (depth_first_rows t tree _ _ None x Hdf (group_ok_siblings t tree None) Hx).
    + intros [Hx Hs]. apply (depth_first_elem_of t tree _ _ Hdf).
      { intros g Hg. by apply elem_of_siblings in Hg as (? & _). }
      split; [done|].
      destruct (every_row_rooted t tree Hwo Hpt x.1 x.2 Hx Hs) as (r & Hr & Hrx).
      exists r. split; [done|]. destruct Hrx as [<-|Hd]; [left; by destruct x|by right].
Qed.

Lemma get_tree_rows (s : Session) (tree : Z) :
  well_ordered (view s) → parents_in_tree (view s) →
  get_tree tree s = (Return (select_where (λ r, simulation_id r.2 = tree) (view s)), s).
Proof.
  intros Hwo Hpt. unfold get_tree.
  destruct (ordered_messages_full_rows (view s) tree Hwo Hpt) as (out & E & Hnd & Hin).
  unfold ordered_messages in E.
  destruct (select_where _ (view s)) as [|x msgs] eqn:Em; [done|].
  rewrite E. do 2 f_equal. rewrite <- Em. apply id_lt_unique.
  - apply (merge_sort_id_lt (view s)); [done|]. intros r Hr. by apply Hin in Hr as [? _].
  - apply select_where_sorted.
  - intros r. rewrite merge_sort_Permutation, Hin, elem_of_select_where. tauto.
Qed.

(** X8.  In a store where parents are older than their children and every
    parent reference stays inside its simulation, the depth-first traversal of
    [get_tree] reaches every row of the simulation and its final sort undoes
    the depth-first order: [get_tree] returns exactly the rows of the
    simulation, ascending by id, and does not touch the session. *)
Theorem get_tree_by_id (s : Session) (tree : Z) :
  well_ordered (view s) → parents_in_tree (view s) →
  ∃ ordered,
    get_tree tree s = (Return ordered, s) ∧
    StronglySorted (λ a b, id a < id b) ordered ∧
    ∀ x, x ∈ ordered ↔ view s !! x.1 = Some x.2 ∧ simulation_id x.2 = tree.
Proof.
  intros Hwo Hpt. eexists. split; [by apply get_tree_rows|]. split.
  - apply select_where_sorted.
  - intros x. rewrite elem_of_select_where. tauto.
Qed.

Lemma get_tree_by_id_witness :
  ∃ ordered,
    get_tree 1 (open_session (mkDatabase ex_forest 8 []))
      = (Return ordered, open_session (mkDatabase ex_forest 8 [])) ∧
    StronglySorted (λ a b, id a < id b) ordered ∧
    ∀ x, x ∈ ordered ↔ ex_forest !! x.1 = Some x.2 ∧ simulation_id x.2 = 1.
Proof.
  apply (get_tree_by_id (open_session (mkDatabase ex_forest 8 [])) 1).
  - apply (bool_decide_unpack (well_ordered ex_forest)). by vm_compute.
  - apply (bool_decide_unpack (parents_in_tree ex_forest)). by vm_compute.
Defined.

(** ** The nested tree *)

Lemma document_order_unfold (j : TreeJson) :
  document_order j
  = (json_id j, json_role j, json_content j) :: document_order_list (json_children j).
Proof.
  destruct j as [i r c l]. simpl. f_equal. unfold document_order_list.
  induction l as [|x l IH]; [done|]. simpl. by rewrite IH.
Qed.

Lemma document_order_list_cons (j : TreeJson) (l : list TreeJson) :
  document_order_list (j :: l) = document_order j ++ document_order_list l.
Proof. done. Qed.

Lemma build_tree_dfs (fuel : nat) (cm : gmap (option Z) (list Row)) (p : option Z)
    (out : list Row) :
  dfs fuel cm p = Some out →
  ∃ tree_json, build_tree fuel cm p = Some tree_json ∧
               document_order_list tree_json = entry <$> out.
Proof.
  revert p out. induction fuel as [|fuel IH]; intros p out; [done|].
  simpl. generalize (default [] (cm !! p)). intros group. revert out.
  induction group as [|kid group IHg]; intros out.
  - simpl. intros [= <-]. by exists [].
  - simpl.
    destruct (dfs fuel cm (Some (id kid))) as [branch|] eqn:Eb; [|done].
    destruct (IH _ _ Eb) as (kids & Ek & Hk). rewrite Ek. simpl.
    destruct (mapM _ group) as [ls|] eqn:El; [|done].
    destruct (IHg (mjoin ls)) as (rest & Er & Hr); [done|].
    simpl. intros [= <-]. rewrite Er. simpl. eexists. split; [done|].
    rewrite document_order_list_cons, document_order_unfold, Hr. simpl. rewrite Hk.
    unfold entry at 3. f_equal. symmetry. apply (fmap_app entry).
Qed.

(** X9.  In a store where parents are older than their children and parent
    references stay inside their simulation, the hierarchy endpoint answers
    404 exactly when the simulation has no row; otherwise the hierarchy it
    returns, read in document order, lists the ids, roles and contents of the
    rows of the simulation in the order of the full-tree traversal.  It never
    writes. *)
Theorem get_tree_messages_endpoint_spec (d : Database) (simulation : Z) :
  well_ordered (messages d) → parents_in_tree (messages d) →
  ((∀ k m, messages d !! k = Some m → simulation_id m ≠ simulation) ∧
   get_tree_messages_endpoint simulation d
     = (Raise (HTTPException 404 "No messages found for this simulation_id"), d)) ∨
  (∃ tree_json out,
     get_tree_messages_endpoint simulation d = (Return tree_json, d) ∧
     get_messages_by_tree_endpoint simulation None d
       = (Return (Dicts (message_dict <$> out)), d) ∧
     (∃ k m, messages d !! k = Some m ∧ simulation_id m = simulation) ∧
     document_order_list tree_json = entry <$> out).
Proof.
  intros Hwo Hpt.
  pose proof (get_tree_rows (open_session d) simulation Hwo Hpt) as Hget.
  destruct (ordered_messages_full (messages d) simulation Hwo) as (out & E & _).
  cbn [open_session view] in Hget.
  unfold get_tree_messages_endpoint.
  destruct (select_where (λ r : Row, simulation_id r.2 = simulation) (messages d))
    as [|x msgs] eqn:Em.
  - left. split.
    + intros k m Hk Hs.
      assert (Hin : (k, m) ∈ select_where (λ r : Row, simulation_id r.2 = simulation)
                                          (messages d))
        by by apply elem_of_select_where.
      rewrite Em in Hin. by apply not_elem_of_nil in Hin.
    + apply request_read. unfold bind. by rewrite Hget.
  - right. unfold ordered_messages in E. rewrite Em in E.
    destruct (build_tree_dfs _ _ _ _ E) as (tree_json & Eb & Hdoc).
    exists tree_json, out. split_and!.
    + apply request_read. unfold bind. rewrite Hget. by rewrite Eb.
    + rewrite get_messages_by_tree_endpoint_unfold. unfold ordered_messages.
      by rewrite Em, E.
    + assert (Hin : x ∈ select_where (λ r : Row, simulation_id r.2 = simulation)
                                     (messages d)) by (rewrite Em; left).
      apply elem_of_select_where in Hin as [Hs Hx]. by exists x.1, x.2.
    + done.
Qed.

Lemma get_tree_messages_endpoint_spec_witness :
  ∃ tree_json,
    get_tree_messages_endpoint 1 (mkDatabase ex_forest 8 [])
      = (Return tree_json, mkDatabase ex_forest 8 []) ∧
    fst <$> (fst <$> document_order_list tree_json) = [1; 2; 4; 7; 3; 5; 6].
Proof.
  destruct (get_tree_messages_endpoint_spec (mkDatabase ex_forest 8 []) 1)
    as [[Hnone _]|(tree_json & out & Hrun & Hflat & _ & Hdoc)].
  - apply (bool_decide_unpack (well_ordered ex_forest)). by vm_compute.
  - apply (bool_decide_unpack (parents_in_tree ex_forest)). by vm_compute.
  - by destruct (Hnone 1 (ex_message false None)).
  - exists tree_json. split; [exact Hrun|]. rewrite Hdoc.
    assert (Hc : get_messages_by_tree_endpoint 1 None (mkDatabase ex_forest 8 [])
               = (Return (Dicts (message_dict <$>
                    [(1, ex_message false None); (2, ex_message false (Some 1));
                     (4, ex_message false (Some 2)); (7, ex_message false (Some 2));
                     (3, ex_message false (Some 1)); (5, ex_message false (Some 3));
                     (6, ex_message false None)])), mkDatabase ex_forest 8 []))
      by by vm_compute.
    rewrite Hflat in Hc. injection Hc as Hc.
    assert (Hids : fst <$> (fst <$> (entry <$> out)) = dict_id <$> (message_dict <$> out)).
    { rewrite <- !list_fmap_compose. by apply list_fmap_ext. }
    rewrite Hids, Hc. done.
Defined.

(** ** Selecting twice *)

(** X10.  [select] is idempotent: when a [select] of message [k] has
    succeeded and the store still answers, a second [select] of [k] succeeds
    too, returns the same row and leaves the store as it is. *)
Theorem select_message_idempotent (d d' : Database) (k : Z) (r : Row) :
  select_message k d = (Return r, d') → faults d' = [] →
  select_message k d' = (Return r, d').
Proof.
  unfold select_message, request.
  destruct (update_message_selected k (open_session d)) as [o s'] eqn:E.
  intros [= -> <-] Hf.
  apply update_message_selected_Return in E
    as (m & Hk & Hpar & Hsib & -> & Hv & Hd & Hq).
  simpl in Hf. simpl in Hk, Hpar, Hsib, Hv.
  set (t' := <[k := set_selected true m]> (messages d)).
  assert (Hk' : view (open_session (close_session s')) !! k = Some (set_selected true m)).
  { simpl. rewrite Hd, Hv. apply lookup_insert_eq. }
  rewrite (update_message_selected_ok _ k (set_selected true m) Hk').
  - simpl. rewrite Hf, Hd, Hv. fold t'. unfold close_session. simpl.
    replace (<[k := set_selected true (set_selected true m)]> t') with t'.
    + by rewrite Hd, Hv, Hf.
    + unfold t'. by rewrite insert_insert_eq.
  - intros p Hp. simpl in Hp. simpl. rewrite Hd, Hv.
    destruct (Hpar p Hp) as (pm & Hpm & Hsel).
    destruct (decide (p = k)) as [->|Hne].
    + rewrite lookup_insert_eq. by eexists.
    + rewrite lookup_insert_ne by done. eauto.
  - intros k2 m2. simpl. rewrite Hd, Hv. intros Hk2 Hne Hp Hs.
    rewrite lookup_insert_ne in Hk2 by done. by apply (Hsib k2 m2).
  - unfold commit_works. simpl. by rewrite Hf.
Qed.

Lemma select_message_idempotent_witness :
  select_message 2 (mkDatabase (<[2 := ex_message true (Some 1)]>
                                  (<[1 := ex_message true None]> ex_chain)) 4 [])
  = (Return (2, ex_message true (Some 1)),
     mkDatabase (<[2 := ex_message true (Some 1)]>
                   (<[1 := ex_message true None]> ex_chain)) 4 []).
Proof.
  apply (select_message_idempotent
           (mkDatabase (<[1 := ex_message true None]> ex_chain) 4 [])
           _ 2 (2, ex_message true (Some 1))).
  - by vm_compute.
  - done.
Defined.

(** ** Deletions leave no orphan *)

(** A part of a table that holds, with every row it keeps, the parent of that
    row, inherits the shape of the table. *)
Lemma closed_part_healthy (t t' : table) :
  (∀ k m, t' !! k = Some m → t !! k = Some m) →
  (∀ k m p, t' !! k = Some m → parent_id m = Some p → t' !! p = t !! p) →
  (well_ordered t → well_ordered t') ∧
  (parents_in_tree t → parents_in_tree t') ∧
  (active_path t → active_path t').
Proof.
  intros Hsub Hup. split_and!.
  - by apply well_ordered_sub.
  - intros Hpt k m Hk. specialize (Hpt k m (Hsub k m Hk)). simpl in *.
    destruct (parent_id m) as [p|] eqn:Hp; [|done]. by rewrite (Hup k m p).
  - intros [Huniq Hconn]. split.
    + intros k1 m1 k2 m2 H1 H2. apply Huniq; by apply Hsub.
    + intros k m p Hk Hsel Hp. rewrite (Hup k m p Hk Hp).
      apply (Hconn k m p); [by apply Hsub|done..].
Qed.

Lemma trim_messages_after_children_rows (d d' : Database) (n : Z) (r : outcome string) :
  trim_messages_after_children n d = (r, d') →
  messages d' = messages d ∨
  ∃ target c, messages d !! n = Some target ∧
              messages d' = filter (λ row, ¬ doomed target c row) (messages d).
Proof.
  unfold trim_messages_after_children, request, bind, try_except.
  destruct (messages d !! n) as [target|] eqn:Hn.
  2:{ rewrite (delete_messages_after_children_missing (open_session d) n Hn).
      simpl. intros [= _ <-]. by left. }
  destruct (decide (commit_works (open_session d))) as [Hc|Hc].
  - rewrite (delete_messages_after_children_ok (open_session d) n target Hn Hc).
    simpl. intros [= _ <-]. right. by exists target, (cutoff (messages d) n).
  - destruct (delete_messages_after_children_commit_fails (open_session d) n target Hn Hc)
      as (s' & E & Hd). rewrite E. simpl. intros [= _ <-]. by left.
Qed.

(** X11.  [trim-after] leaves no orphan.  In a store where parents are older
    than their children and belong to the simulation of their children, the
    rows that survive a [trim-after] still have their parents, whatever its
    outcome: the store keeps that shape, and an active path stays one. *)
Theorem trim_after_keeps_parents (d d' : Database) (n : Z) (r : outcome string) :
  trim_messages_after_children n d = (r, d') →
  well_ordered (messages d) → parents_in_tree (messages d) →
  (∀ k m p, messages d' !! k = Some m → parent_id m = Some p →
            is_Some (messages d' !! p)) ∧
  well_ordered (messages d') ∧ parents_in_tree (messages d') ∧
  (active_path (messages d) → active_path (messages d')).
Proof.
  intros Hrun Hwo Hpt.
  assert (Hparent : ∀ t', parents_in_tree t' →
            ∀ k m p, t' !! k = Some m → parent_id m = Some p → is_Some (t' !! p)).
  { intros t' Hpt' k m p Hk Hp. specialize (Hpt' k m Hk). simpl in Hpt'.
    rewrite Hp in Hpt'. by destruct (t' !! p). }
  apply trim_messages_after_children_rows in Hrun as [->|(target & c & Hn & ->)].
  { split_and!; [by apply Hparent|done..]. }
  destruct (closed_part_healthy (messages d)
              (filter (λ row, ¬ doomed target c row) (messages d)))
    as (Hwo' & Hpt' & Hap').
  - intros k m. by intros [? _]%map_lookup_filter_Some.
  - intros k m p [Hk Hkeep]%map_lookup_filter_Some Hp.
    pose proof (parent_lt _ Hwo k m p Hk Hp) as Hlt.
    specialize (Hpt k m Hk). simpl in Hpt. rewrite Hp in Hpt.
    destruct (messages d !! p) as [pm|] eqn:Hpm; [|done]. injection Hpt as Hs.
    apply map_lookup_filter_Some. split; [done|].
    unfold doomed, id in *. simpl in *. intros [Hsim Hc]. apply Hkeep. split; [congruence|lia].
  - split_and!; [apply Hparent|..]; auto.
Qed.

Lemma trim_after_keeps_parents_witness :
  ∃ d', trim_messages_after_children 3 (mkDatabase ex_forest 8 [])
          = (Return "Deleted 2 messages after message 3 and its children.", d') ∧
        (∀ k m p, messages d' !! k = Some m → parent_id m = Some p →
                  is_Some (messages d' !! p)) ∧
        well_ordered (messages d') ∧ parents_in_tree (messages d').
Proof.
  eexists. split; [by vm_compute|].
  destruct (trim_after_keeps_parents (mkDatabase ex_forest 8 []) _ 3 _ eq_refl)
    as (Hp & Hwo & Hpt & _).
  - apply (bool_decide_unpack (well_ordered ex_forest)). by vm_compute.
  - apply (bool_decide_unpack (parents_in_tree ex_forest)). by vm_compute.
  - split_and!; [exact Hp|exact Hwo|exact Hpt].
Defined.

(** X12.  Deleting a subtree leaves no orphan either: on a store that
    answers, with parents older than their children and inside their
    simulation, the rows that survive [delete_messages_including_children]
    still have their parents; the store keeps that shape, and an active path
    stays one. *)
Theorem delete_subtree_keeps_parents (d d' : Database) (n : Z) (r : outcome bool) :
  request (delete_messages_including_children n) d = (r, d') →
  faults d = [] → well_ordered (messages d) → parents_in_tree (messages d) →
  (∀ k m p, messages d' !! k = Some m → parent_id m = Some p →
            is_Some (messages d' !! p)) ∧
  well_ordered (messages d') ∧ parents_in_tree (messages d') ∧
  (active_path (messages d) → active_path (messages d')).
Proof.
  intros Hrun Hf Hwo Hpt.
  destruct (delete_subtree_run d n Hf Hwo) as (d1 & Hrun' & _ & _ & Hv).
  rewrite Hrun' in Hrun. injection Hrun as _ <-.
  destruct (closed_part_healthy (messages d) (messages d1)) as (Hwo' & Hpt' & Hap').
  - intros k m. rewrite Hv. by intros [? _].
  - intros k m p [Hk Hnb]%Hv Hp. apply option_eq. intros pm. rewrite Hv.
    split; [by intros [? _]|]. intros Hpm. split; [done|].
    intros Hb. apply Hnb. by eapply below_up.
  - split_and!; auto. intros k m p Hk Hp. specialize (Hpt' Hpt k m Hk). simpl in Hpt'.
    rewrite Hp in Hpt'. by destruct (messages d1 !! p).
Qed.

Lemma delete_subtree_keeps_parents_witness :
  ∃ d', request (delete_messages_including_children 2) (mkDatabase ex_forest 8 [])
          = (Return true, d') ∧
        (∀ k m p, messages d' !! k = Some m → parent_id m = Some p →
                  is_Some (messages d' !! p)) ∧
        well_ordered (messages d') ∧ parents_in_tree (messages d').
Proof.
  eexists. split; [by vm_compute|].
  destruct (delete_subtree_keeps_parents (mkDatabase ex_forest 8 []) _ 2 _ eq_refl)
    as (Hp & Hwo & Hpt & _).
  - done.
  - apply (bool_decide_unpack (well_ordered ex_forest)). by vm_compute.
  - apply (bool_decide_unpack (parents_in_tree ex_forest)). by vm_compute.
  - split_and!; [exact Hp|exact Hwo|exact Hpt].
Defined.

(** ** The selected range and the path *)

Lemma below_row (t : table) (a k : Z) : below t a k → is_Some (t !! k).
Proof. destruct 1; eauto. Qed.

Lemma descends_below (t : table) (tree a k : Z) : descends t tree a k → below t a k.
Proof.
  induction 1 as [a k m Hk _ Hp|a q k m Hk _ Hp _ IH].
  - by eapply below_child.
  - by eapply below_up.
Qed.

(** The path of [k] holds [k] and the rows [k] is below. *)
Lemma climbs_elem_of (t : table) (current : option Z) (path : list Row) :
  climbs t current path →
  ∀ x, x ∈ path ↔
       t !! x.1 = Some x.2 ∧
       ∃ k, current = Some k ∧ (x.1 = k ∨ below t x.1 k).
Proof.
  induction 1 as [|k Hk|k m path Hk Hc IH]; intros x.
  - split; [by intros ?%not_elem_of_nil|]. by intros (_ & k & ? & _).
  - split; [by intros ?%not_elem_of_nil|]. intros (Hx & k' & [= <-] & [E|Hb]).
    + congruence.
    + apply below_row in Hb as [? ?]. congruence.
  - rewrite elem_of_app, list_elem_of_singleton, IH. split.
    + intros [(Hx & p & Hp & Hxp)| ->].
      * split; [done|]. exists k. split; [done|]. right.
        destruct Hxp as [->|Hb]; [by eapply below_child|by eapply below_up].
      * split; [done|]. exists k. split; [done|]. by left.
    + intros (Hx & k' & [= <-] & [E|Hb]).
      * right. destruct x as [kx mx]. simpl in *. subst kx. congruence.
      * left. split; [done|].
        apply below_parent in Hb as (m' & q & Hk' & Hq & Hxq).
        rewrite Hk in Hk'. injection Hk' as <-. exists q. split; [done|].
        destruct Hxq as [->|?]; [by left|by right].
Qed.

Lemma sorted_snoc {A} (R : relation A) (l : list A) (y : A) :
  StronglySorted R l → Forall (λ x, R x y) l → StronglySorted R (l ++ [y]).
Proof.
  induction 1 as [|a l _ IH Hall]; intros Hy; simpl; [repeat constructor|].
  apply Forall_cons in Hy as [Hay Hy]. constructor; [by apply IH|].
  apply Forall_app. split; [done|]. by repeat constructor.
Qed.

Lemma climbs_sorted (t : table) (current : option Z) (path : list Row) :
  well_ordered t → climbs t current path → StronglySorted id_lt path.
Proof.
  intros Hwo Hc. pose proof (climbs_elem_of t current path Hc) as Hin.
  induction Hc as [|k Hk|k m path Hk Hc IH]; [constructor..|].
  specialize (IH (climbs_elem_of _ _ _ Hc)).
  assert (Hlt : ∀ x, x ∈ path → id x < k).
  { intros x Hx. assert (Hx' : x ∈ path ++ [(k, m)]) by (apply elem_of_app; by left).
    apply Hin in Hx' as (Hrow & k' & [= <-] & [E|Hb]).
    - apply (climbs_elem_of _ _ _ Hc) in Hx as (_ & p & Hp & Hxp).
      pose proof (parent_lt _ Hwo _ _ _ Hk Hp) as Hpk. unfold id.
      destruct Hxp as [E'|Hb%(below_lt _ Hwo)]; lia.
    - by apply (below_lt _ Hwo). }
  apply sorted_snoc; [done|]. apply Forall_forall. intros x Hx. by apply Hlt.
Qed.

(** Ancestors of a selected row on an active path are selected. *)
Lemma climbs_selected (t : table) (current : option Z) (path : list Row) :
  active_path t → climbs t current path →
  (∀ k m, current = Some k → t !! k = Some m → selected m = true) →
  ∀ x, x ∈ path → selected x.2 = true.
Proof.
  intros [_ Hconn]. induction 1 as [|k Hk|k m path Hk Hc IH]; intros Hsel x;
    [by intros ?%not_elem_of_nil..|].
  pose proof (Hsel k m eq_refl Hk) as Hm.
  intros [Hx| ->%list_elem_of_singleton]%elem_of_app; [|done].
  apply IH; [|done]. intros p pm Hp Hpm.
  destruct (Hconn k m p Hk Hm Hp) as (pm' & Hpm' & Hs). congruence.
Qed.

(** X13.  On an active path the two ways to read the conversation agree.  In
    a store where parents are older than their children and inside their
    simulation, whose selected rows satisfy the active-path invariant and
    belong to one simulation, the selected-path endpoint asked for the range
    from [start_id] to a selected message [end_id] returns the rows that
    path-mode traversal returns for [end_id], without those older than
    [start_id]. *)
Theorem selected_path_is_path (d : Database) (tree start_id end_id : Z) (last : Message) :
  well_ordered (messages d) → parents_in_tree (messages d) → active_path (messages d) →
  messages d !! end_id = Some last → selected last = true →
  (∀ k m, messages d !! k = Some m → selected m = true →
          simulation_id m = simulation_id last) →
  start_id ≤ end_id →
  ∃ path,
    get_messages_by_tree_endpoint tree (Some end_id) d
      = (Return (Dicts (message_dict <$> path)), d) ∧
    get_selected_messages_path start_id end_id d
      = (Return (filter (λ r, start_id ≤ id r) path), d).
Proof.
  intros Hwo Hpt Hap Hlast Hsel Hone Hle.
  destruct (ordered_messages_path (messages d) tree end_id Hwo) as (path & E & Hc).
  exists path. split.
  { by rewrite get_messages_by_tree_endpoint_unfold, E. }
  pose proof (climbs_elem_of _ _ _ Hc) as Hin.
  set (Q := λ r : Row, selected r.2 = true ∧ start_id ≤ id r ∧ id r ≤ end_id).
  assert (Heq : select_where Q (messages d) = filter (λ r, start_id ≤ id r) path).
  { apply id_lt_unique.
    - apply select_where_sorted.
    - apply filter_sorted. by apply (climbs_sorted (messages d) (Some end_id)).
    - intros x. rewrite elem_of_select_where, list_elem_of_filter, Hin. unfold Q, id.
      split.
      + intros [(Hs & Ha & Hb) Hx]. split_and!; [done..|].
        exists end_id. split; [done|].
        destruct (decide (x.1 = end_id)) as [?|Hne]; [by left|right].
        apply (descends_below _ (simulation_id x.2)).
        apply (active_path_selected_chain (messages d) Hwo Hpt Hap
                 x.1 x.2 end_id last); [done..|by apply (Hone x.1 x.2)|lia].
      + intros (Ha & Hx & k & [= <-] & Hxk).
        assert (Hxin : x ∈ path) by (apply Hin; eauto).
        split_and!; [|done| |done].
        * apply (climbs_selected _ _ _ Hap Hc); [|done].
          intros k m [= <-] Hk. congruence.
        * destruct Hxk as [->|Hb%(below_lt _ Hwo)]; lia. }
  unfold get_selected_messages_path.
  rewrite decide_False by lia.
  apply request_read. unfold bind, get_selected_messages_between.
  cbn [open_session view]. fold Q. rewrite merge_sort_select_where, Heq.
  destruct (filter _ path) as [|x l] eqn:Ef; [|done].
  assert (Hend : (end_id, last) ∈ filter (λ r, start_id ≤ id r) path).
  { apply list_elem_of_filter. split; [done|]. apply Hin. eauto. }
  rewrite Ef in Hend. by apply not_elem_of_nil in Hend.
Qed.

Lemma selected_path_is_path_witness :
  ∃ path,
    get_messages_by_tree_endpoint 1 (Some 2) ex_db
      = (Return (Dicts (message_dict <$> path)), ex_db) ∧
    get_selected_messages_path 2 2 ex_db
      = (Return (filter (λ r, 2 ≤ id r) path), ex_db).
Proof.
  apply (selected_path_is_path ex_db 1 2 2 (ex_message true (Some 1))).
  - apply (bool_decide_unpack (well_ordered ex_table)). by vm_compute.
  - apply (bool_decide_unpack (parents_in_tree ex_table)). by vm_compute.
  - apply (bool_decide_unpack (active_path ex_table)). by vm_compute.
  - done.
  - done.
  - assert (Hall : map_Forall (λ _ m, selected m = true → simulation_id m = 1) ex_table)
      by (apply (bool_decide_unpack _); by vm_compute).
    intros k m Hk. by apply (Hall k m).
  - done.
Defined.

(** ** A created message and its path *)

Lemma climbs_det (t : table) (current : option Z) (p1 p2 : list Row) :
  climbs t current p1 → climbs t current p2 → p1 = p2.
Proof.
  intros H1. revert p2. induction H1 as [|k Hk|k m path Hk Hc IH]; intros p2 H2.
  - by inversion H2.
  - inversion H2 as [|k' Hk'|k' m' path' Hk' Hc']; subst; [done|congruence].
  - inversion H2 as [|k' Hk'|k' m' path' Hk' Hc']; subst; [congruence|].
    rewrite Hk in Hk'. injection Hk' as <-. by rewrite (IH path').
Qed.

(** A row stored under an id above every id and reference of the table
    changes no path of the table. *)
Lemma climbs_insert_new (t : table) (sq : Z) (new : Message)
    (current : option Z) (path : list Row) :
  well_ordered t → climbs t current path →
  (∀ k, current = Some k → k < sq) →
  climbs (<[sq := new]> t) current path.
Proof.
  intros Hwo. induction 1 as [|k Hk|k m path Hk Hc IH]; intros Hlt.
  - constructor.
  - constructor. rewrite lookup_insert_ne; [done|]. specialize (Hlt k eq_refl). lia.
  - specialize (Hlt k eq_refl). constructor.
    + rewrite lookup_insert_ne; [done|lia].
    + apply IH. intros p Hp. pose proof (parent_lt _ Hwo _ _ _ Hk Hp). lia.
Qed.

(** X14.  A message created under an existing message continues the path of
    that message.  On a store that answers, whose ids were handed out by the
    sequence and whose parents are older than their children,
    [create_message] under message [p] returns a row with the next id of the
    sequence, and path-mode traversal from that row then returns the path of
    [p] followed by the new row. *)
Theorem create_message_extends_path (d : Database) (simulation tree p : Z)
    (text speaker_role : string) (parent : Message) :
  faults d = [] → fresh_ids d → well_ordered (messages d) →
  messages d !! p = Some parent →
  ∃ row d' path,
    create_message simulation (Some p) text speaker_role d = (Return row, d') ∧
    row = (message_id_seq d, mkMessage text speaker_role true simulation (Some p)) ∧
    get_messages_by_tree_endpoint tree (Some p) d
      = (Return (Dicts (message_dict <$> path)), d) ∧
    get_messages_by_tree_endpoint tree (Some (id row)) d'
      = (Return (Dicts (message_dict <$> (path ++ [row]))), d').
Proof.
  intros Hf Hfresh Hwo Hp.
  set (new := mkMessage text speaker_role true simulation (Some p)).
  set (sq := message_id_seq d).
  set (t' := <[sq := new]> (messages d)).
  pose proof (Hfresh p parent Hp) as Hpsq. simpl in Hpsq. fold sq in Hpsq.
  assert (Hnone : messages d !! sq = None).
  { destruct (messages d !! sq) as [m|] eqn:E; [|done].
    pose proof (Hfresh sq m E) as Hlt. simpl in Hlt. unfold sq in Hlt. lia. }
  assert (Hwo' : well_ordered t').
  { apply map_Forall_insert; [done|]. split; [simpl; lia|done]. }
  destruct (ordered_messages_path (messages d) tree p Hwo) as (path & E & Hc).
  destruct (ordered_messages_path t' tree sq Hwo') as (path' & E' & Hc').
  assert (Hpath : path' = path ++ [(sq, new)]).
  { apply (climbs_det t' (Some sq)); [done|]. constructor.
    - apply lookup_insert_eq.
    - simpl. apply climbs_insert_new; [done..|]. intros k [= <-]. done. }
  exists (sq, new), (mkDatabase t' (sq + 1) []), path. split_and!.
  - unfold create_message, request. fold new.
    rewrite (add_commit_refresh_ok (open_session d) new)
      by (unfold commit_works; simpl; by rewrite Hf).
    simpl. by rewrite Hf.
  - done.
  - by rewrite get_messages_by_tree_endpoint_unfold, E.
  - rewrite get_messages_by_tree_endpoint_unfold.
    change (ordered_messages _ tree _) with (ordered_messages t' tree (Some sq)).
    by rewrite E', Hpath.
Qed.

Lemma create_message_extends_path_witness :
  ∃ row d' path,
    create_message 1 (Some 2) "reply" "B" ex_db = (Return row, d') ∧
    row = (5, mkMessage "reply" "B" true 1 (Some 2)) ∧
    get_messages_by_tree_endpoint 1 (Some 2) ex_db
      = (Return (Dicts (message_dict <$> path)), ex_db) ∧
    get_messages_by_tree_endpoint 1 (Some (id row)) d'
      = (Return (Dicts (message_dict <$> (path ++ [row]))), d').
Proof.
  apply (create_message_extends_path ex_db 1 1 2 "reply" "B" (ex_message true (Some 1))).
  - done.
  - apply (bool_decide_unpack (fresh_ids ex_db)). by vm_compute.
  - apply (bool_decide_unpack (well_ordered ex_table)). by vm_compute.
  - done.
Defined.

(** ** The children a generation call leaves *)

Lemma sorted_app {A} (R : relation A) (l1 l2 : list A) :
  StronglySorted R l1 → StronglySorted R l2 →
  (∀ x y, x ∈ l1 → y ∈ l2 → R x y) → StronglySorted R (l1 ++ l2).
Proof.
  induction 1 as [|a l _ IH Hall]; intros H2 Hlt; simpl; [done|].
  constructor.
  - apply IH; [done|]. intros x y Hx. apply Hlt. by right.
  - apply Forall_app. split; [done|]. apply Forall_forall. intros y Hy.
    apply Hlt; [left|done].
Qed.

Lemma imap_rows_sorted {A} (f : A → Message) (sq : Z) (l : list A) :
  StronglySorted id_lt (imap (λ i x, (sq + Z.of_nat i, f x)) l).
Proof.
  revert sq. induction l as [|a l IH]; intros sq; [constructor|].
  rewrite imap_cons. constructor.
  - assert (E : imap ((λ i x, (sq + Z.of_nat i, f x)) ∘ S) l
                = imap (λ i x, (sq + 1 + Z.of_nat i, f x)) l).
    { apply imap_ext. intros i x _. simpl. f_equal. lia. }
    rewrite E. apply IH.
  - apply Forall_forall. intros y (i & x & -> & _)%elem_of_lookup_imap.
    unfold id_lt, id. simpl. lia.
Qed.

Lemma children_after_continue (t : table) (tree last sq : Z) (scenarios : TreeNode) :
  (∀ k, is_Some (t !! k) → k < sq) → last < sq →
  select_where (λ r : Row, parent_id r.2 = Some last)
    (insert_rows sq (level2_rows tree last scenarios ++ level3_rows tree sq scenarios) t)
  = select_where (λ r : Row, parent_id r.2 = Some last) t
    ++ imap (λ i level2, (sq + Z.of_nat i,
                          mkMessage (line level2) (speaker level2) false tree (Some last)))
            (responses scenarios).
Proof.
  intros Hlt Hlast.
  set (added := level2_rows tree last scenarios ++ level3_rows tree sq scenarios).
  set (t' := insert_rows sq added t).
  destruct (insert_rows_persisted t tree last sq scenarios Hlt Hlast)
    as (Hkeep & _ & Hnew & Hinv).
  fold added in Hkeep, Hnew, Hinv. fold t' in Hkeep, Hnew, Hinv.
  set (Q := λ r : Row, parent_id r.2 = Some last).
  apply id_lt_unique.
  - apply select_where_sorted.
  - apply sorted_app; [apply select_where_sorted|apply imap_rows_sorted|].
    intros x y [_ Hx]%elem_of_select_where (i & level2 & -> & _)%elem_of_lookup_imap.
    unfold id_lt, id. simpl. assert (x.1 < sq) by (apply Hlt; by eexists). lia.
  - intros x. rewrite elem_of_app, !elem_of_select_where. unfold Q. split.
    + intros [Hp Hx]. destruct (t !! x.1) as [m|] eqn:Ex.
      * left. split; [done|]. rewrite (Hkeep _ _ Ex) in Hx. by injection Hx as <-.
      * right. destruct (Hinv _ _ Hx Ex) as [(i & level2 & Hi & Hk & Hm)|
                                               (i & level2 & level3 & Hi & _ & Hk & Hm)].
        -- apply elem_of_lookup_imap. exists i, level2. split; [|done].
           destruct x as [k m]. simpl in *. by subst.
        -- rewrite Hm in Hp. simpl in Hp. injection Hp as Hp. lia.
    + intros [[Hp Hx]|(i & level2 & -> & Hi)%elem_of_lookup_imap].
      * split; [done|]. by apply Hkeep.
      * simpl. split; [done|]. by destruct (Hnew i level2 Hi) as (_ & _ & ? & _).
Qed.

(** X15.  What a continuation stores is what [get_children] then offers.  On
    a store that answers and whose ids were handed out by the sequence, after
    [save_messages_to_tree] has stored a generated tree under an existing
    message, [get_children] of that message returns the children it had
    before followed by the level-2 responses of the tree, in the order of the
    tree, each unselected and in the simulation that was passed; the level-3
    responses are not among them. *)
Theorem get_children_after_save (d : Database) (tree_data : TreeData)
    (tree last : Z) (last_message : Message) :
  faults d = [] → fresh_ids d → messages d !! last = Some last_message →
  ∃ d' before,
    request (save_messages_to_tree tree_data tree (Some last)) d = (Return true, d') ∧
    get_children last d = (Return before, d) ∧
    get_children last d' =
      (Return (before ++
               imap (λ i level2, (message_id_seq d + Z.of_nat i,
                                  mkMessage (line level2) (speaker level2) false tree
                                            (Some last)))
                    (responses (scenarios_tree tree_data))),
       d').
Proof.
  intros Hf Hfresh Hl.
  assert (Hlt : ∀ k, is_Some (messages d !! k) → k < message_id_seq d).
  { intros k [m Hk]. apply (Hfresh k m Hk). }
  assert (Hlast : last < message_id_seq d) by (apply Hlt; by eexists).
  eexists _, _. split_and!.
  - by apply (save_messages_to_tree_continue d tree_data tree last last_message).
  - unfold get_children. by apply request_read.
  - unfold get_children. apply request_read.
    unfold get_message_children, session_exec. cbn [open_session view messages].
    by rewrite children_after_continue.
Qed.

Lemma get_children_after_save_witness :
  ∃ d',
    request (save_messages_to_tree ex_tree 1 (Some 2)) ex_db = (Return true, d') ∧
    get_children 2 ex_db = (Return [], ex_db) ∧
    get_children 2 d' = (Return [(5, mkMessage "reply" "B" false 1 (Some 2))], d').
Proof.
  destruct (get_children_after_save ex_db ex_tree 1 2 (ex_message true (Some 1)))
    as (d' & before & Hsave & Hbefore & Hafter).
  - done.
  - apply (bool_decide_unpack (fresh_ids ex_db)). by vm_compute.
  - done.
  - assert (Hb : get_children 2 ex_db = (Return [], ex_db)) by by vm_compute.
    rewrite Hb in Hbefore. injection Hbefore as <-.
    exists d'. split_and!; [exact Hsave|done|exact Hafter].
Defined.

(** ** A failed generation, saved *)

(** X16.  [save_messages_to_tree] does not look at the [error] field.  When
    every attempt of [create_tree] failed, saving what it returned succeeds:
    as a continuation under an existing message it stores nothing, and as a
    new tree it stores the error text as the selected root message of the
    simulation. *)
Theorem failed_generation_is_saved (d : Database) (attempt : nat → option TreeData)
    (completion_order : list nat) (tree last : Z) (last_message : Message) :
  (∀ j, j ∈ completion_order → attempt j = None) →
  faults d = [] → messages d !! last = Some last_message →
  ∃ tree_data,
    create_tree true attempt completion_order = Return tree_data ∧
    is_Some (error tree_data) ∧
    request (save_messages_to_tree tree_data tree (Some last)) d = (Return true, d) ∧
    request (save_messages_to_tree tree_data tree None) d =
      (Return true,
       mkDatabase
         (<[message_id_seq d :=
              mkMessage "Error: Could not generate proper dialogue tree" "A" true tree None]>
            (messages d))
         (message_id_seq d + 1) []).
Proof.
  intros Hall Hf Hl. exists error_tree. split_and!.
  - unfold create_tree. rewrite first_valid_None; [done|].
    intros r (j & -> & Hj)%list_elem_of_fmap. by apply Hall.
  - by eexists.
  - rewrite (save_messages_to_tree_continue d error_tree tree last last_message Hf Hl).
    simpl. rewrite Z.add_0_r. destruct d as [t sq fl]. simpl in *. by subst fl.
  - by rewrite (save_messages_to_tree_new d error_tree tree Hf).
Qed.

Lemma failed_generation_is_saved_witness :
  ∃ tree_data,
    create_tree true (λ _, None) [2; 0; 1]%nat = Return tree_data ∧
    is_Some (error tree_data) ∧
    request (save_messages_to_tree tree_data 1 (Some 2)) ex_db = (Return true, ex_db) ∧
    request (save_messages_to_tree tree_data 1 None) ex_db =
      (Return true,
       mkDatabase
         (<[5 := mkMessage "Error: Could not generate proper dialogue tree" "A" true 1 None]>
            ex_table)
         6 []).
Proof.
  apply (failed_generation_is_saved ex_db (λ _, None) [2; 0; 1]%nat 1 2
           (ex_message true (Some 1))); done.
Defined.

(** ** Selecting what was generated *)

(** X17.  Every level-2 response of a newly saved tree can be selected.  On
    a store that answers, whose ids were handed out by the sequence and whose
    parents are older than their children, after [save_messages_to_tree] has
    stored a tree as a new conversation, [select] of any one of its level-2
    rows succeeds and returns that row, now selected. *)
Theorem saved_responses_selectable (d : Database) (tree_data : TreeData) (tree : Z)
    (i : nat) (level2 : TreeNode) :
  faults d = [] → fresh_ids d → well_ordered (messages d) →
  responses (scenarios_tree tree_data) !! i = Some level2 →
  ∃ d' d'',
    request (save_messages_to_tree tree_data tree None) d = (Return true, d') ∧
    select_message (message_id_seq d + 1 + Z.of_nat i) d' =
      (Return (message_id_seq d + 1 + Z.of_nat i,
               mkMessage (line level2) (speaker level2) true tree
                         (Some (message_id_seq d))),
       d'').
Proof.
  intros Hf Hfresh Hwo Hi.
  set (scenarios := scenarios_tree tree_data).
  set (sq := message_id_seq d).
  set (root := mkMessage (line scenarios) (speaker scenarios) true tree None).
  set (t1 := <[sq := root]> (messages d)).
  set (added := level2_rows tree sq scenarios ++ level3_rows tree (sq + 1) scenarios).
  set (t' := insert_rows (sq + 1) added t1).
  assert (Hlt : ∀ k, is_Some (t1 !! k) → k < sq + 1).
  { intros k [m Hk]. destruct (decide (k = sq)) as [->|Hne]; [lia|].
    unfold t1 in Hk. rewrite lookup_insert_ne in Hk by done.
    pose proof (Hfresh k m Hk) as Hk'. simpl in Hk'. unfold sq. lia. }
  destruct (insert_rows_persisted t1 tree sq (sq + 1) scenarios Hlt)
    as (Hkeep & _ & Hnew & Hinv); [lia|].
  fold added in Hkeep, Hnew, Hinv. fold t' in Hkeep, Hnew, Hinv.
  destruct (Hnew i level2 Hi) as (_ & _ & Hrow & _).
  set (k := sq + 1 + Z.of_nat i) in *.
  set (d' := mkDatabase t' (sq + Z.of_nat (length (root :: added))) []).
  exists d'. eexists. split.
  { by rewrite (save_messages_to_tree_new d tree_data tree Hf). }
  unfold select_message, request.
  rewrite (update_message_selected_ok (open_session d') k
             (response_row tree sq level2) Hrow); [done|..|done].
  - intros p [= <-]. exists root. split; [|done]. apply Hkeep. apply lookup_insert_eq.
  - intros k' m' Hk' Hne Hp Hs. simpl in Hk', Hp.
    destruct (t1 !! k') as [m1|] eqn:E1.
    + rewrite (Hkeep _ _ E1) in Hk'. injection Hk' as ->.
      unfold t1 in E1. destruct (decide (k' = sq)) as [->|Hne'].
      * rewrite lookup_insert_eq in E1. injection E1 as <-. done.
      * rewrite lookup_insert_ne in E1 by done.
        pose proof (parent_lt _ Hwo _ _ _ E1 Hp) as Hlt1.
        pose proof (Hfresh k' m' E1) as Hlt2. simpl in Hlt2. unfold sq in Hlt1. lia.
    + destruct (Hinv _ _ Hk' E1) as [(? & ? & _ & _ & ->)|(? & ? & ? & _ & _ & _ & ->)];
        done.
Qed.

Lemma saved_responses_selectable_witness :
  ∃ d' d'',
    request (save_messages_to_tree ex_tree 7 None) ex_db = (Return true, d') ∧
    select_message 6 d' = (Return (6, mkMessage "reply" "B" true 7 (Some 5)), d'').
Proof.
  apply (saved_responses_selectable ex_db ex_tree 7 0
           (mkTreeNode "B" "reply" 2 "wary" [mkTreeNode "A" "follow-up" 3 "firm" []])).
  - done.
  - apply (bool_decide_unpack (fresh_ids ex_db)). by vm_compute.
  - apply (bool_decide_unpack (well_ordered ex_table)). by vm_compute.
  - done.
Defined.

(** ** Refreshing the children *)

(** X18.  The two store steps of a refresh replace the children of a
    message.  On a store that answers, whose ids were handed out by the
    sequence and whose parents are older than their children, deleting the
    subtree below a message and then saving a generated tree under it leaves
    the message with exactly the level-2 responses of that tree as children,
    in the order of the tree. *)
Theorem refresh_replaces_children (d : Database) (tree_data : TreeData)
    (tree n : Z) (message : Message) :
  faults d = [] → fresh_ids d → well_ordered (messages d) →
  messages d !! n = Some message →
  ∃ d1 d2,
    request (delete_messages_including_children n) d = (Return true, d1) ∧
    request (save_messages_to_tree tree_data tree (Some n)) d1 = (Return true, d2) ∧
    get_children n d2 =
      (Return (imap (λ i level2, (message_id_seq d + Z.of_nat i,
                                  mkMessage (line level2) (speaker level2) false tree
                                            (Some n)))
                    (responses (scenarios_tree tree_data))),
       d2).
Proof.
  intros Hf Hfresh Hwo Hn.
  destruct (delete_subtree_run d n Hf Hwo) as (d1 & Hrun & Hq & Hf1 & Hv).
  assert (Hn1 : messages d1 !! n = Some message).
  { apply Hv. split; [done|]. intros Hb%(below_lt _ Hwo). lia. }
  assert (Hlt : ∀ k, is_Some (messages d1 !! k) → k < message_id_seq d1).
  { intros k [m [Hk _]%Hv]. rewrite Hq. apply (Hfresh k m Hk). }
  assert (Hnone : select_where (λ r : Row, parent_id r.2 = Some n) (messages d1) = []).
  { destruct (select_where _ (messages d1)) as [|x l] eqn:E; [done|].
    assert (Hx : x ∈ select_where (λ r : Row, parent_id r.2 = Some n) (messages d1))
      by (rewrite E; left).
    apply elem_of_select_where in Hx as [Hp [Hx Hnb]%Hv].
    destruct Hnb. by eapply below_child. }
  eexists d1, _. split_and!.
  - done.
  - by apply (save_messages_to_tree_continue d1 tree_data tree n message).
  - unfold get_children. apply request_read.
    unfold get_message_children, session_exec. cbn [open_session view messages].
    rewrite children_after_continue; [|done|apply Hlt; by eexists].
    by rewrite Hnone, Hq.
Qed.

Lemma refresh_replaces_children_witness :
  ∃ d1 d2,
    request (delete_messages_including_children 1) ex_db = (Return true, d1) ∧
    request (save_messages_to_tree ex_tree 1 (Some 1)) d1 = (Return true, d2) ∧
    get_children 1 d2 = (Return [(5, mkMessage "reply" "B" false 1 (Some 1))], d2).
Proof.
  apply (refresh_replaces_children ex_db ex_tree 1 1 (ex_message true None)).
  - done.
  - apply (bool_decide_unpack (fresh_ids ex_db)). by vm_compute.
  - apply (bool_decide_unpack (well_ordered ex_table)). by vm_compute.
  - done.
Defined.

(** ** Reading back a saved tree *)

Lemma filter_all {A} (P : A → Prop) `{!∀ x, Decision (P x)} (l : list A) :
  Forall P l → filter P l = l.
Proof.
  induction 1 as [|x l Hx _ IH]; [done|]. by rewrite filter_cons_True, IH.
Qed.

Lemma filter_none {A} (P : A → Prop) `{!∀ x, Decision (P x)} (l : list A) :
  Forall (λ x, ¬ P x) l → filter P l = [].
Proof.
  induction 1 as [|x l Hx _ IH]; [done|]. by rewrite filter_cons_False.
Qed.

Lemma siblings_filter (t : table) (tree : Z) (p : option Z) :
  siblings t tree p
  = filter (λ r : Row, parent_id r.2 = p) (select_where (λ r, simulation_id r.2 = tree) t).
Proof.
  apply id_lt_unique.
  - apply siblings_sorted.
  - apply filter_sorted, select_where_sorted.
  - intros x. unfold siblings. by rewrite merge_sort_Permutation.
Qed.

(** The rows of a simulation that holds nothing but rows stored in one run
    of consecutive ids. *)
Lemma select_where_insert_rows (t : table) (tree sq : Z) (added : list Message) :
  (∀ k, is_Some (t !! k) → k < sq) →
  (∀ k m, t !! k = Some m → simulation_id m ≠ tree) →
  Forall (λ m, simulation_id m = tree) added →
  select_where (λ r, simulation_id r.2 = tree) (insert_rows sq added t)
  = imap (λ j m, (sq + Z.of_nat j, m)) added.
Proof.
  intros Hlt Hnone Hall. apply id_lt_unique.
  - apply select_where_sorted.
  - apply (imap_rows_sorted (λ m, m)).
  - intros [k m]. rewrite elem_of_select_where, elem_of_lookup_imap, lookup_insert_rows.
    simpl. split.
    + intros [Hs Hk]. case_decide as Hr.
      * exists (Z.to_nat (k - sq)), m. split; [f_equal; lia|done].
      * by destruct (Hnone k m).
    + intros (j & m' & [= -> ->] & Hj). pose proof (lookup_lt_Some _ _ _ Hj).
      rewrite Forall_forall in Hall. split; [by eapply Hall, list_elem_of_lookup_2|].
      rewrite decide_True by lia.
      by replace (Z.to_nat (sq + Z.of_nat j - sq)) with j by lia.
Qed.

Lemma depth_first_leaves (t : table) (tree : Z) (group out : list Row) :
  depth_first t tree group out →
  (∀ g, g ∈ group → siblings t tree (Some (id g)) = []) →
  out = group.
Proof.
  induction 1 as [|kid rest branch out Hb _ Ho IH]; intros Hleaf; [done|].
  rewrite (Hleaf kid) in Hb by left. inversion Hb; subst. simpl.
  rewrite IH; [done|]. intros g Hg. apply Hleaf. by right.
Qed.

Lemma depth_first_two_levels (t : table) (tree : Z) (group out : list Row) :
  depth_first t tree group out →
  (∀ g h, g ∈ group → h ∈ siblings t tree (Some (id g)) →
          siblings t tree (Some (id h)) = []) →
  out = mjoin ((λ g, g :: siblings t tree (Some (id g))) <$> group).
Proof.
  induction 1 as [|kid rest branch out Hb _ Ho IH]; intros Hleaf; [done|].
  apply depth_first_leaves in Hb; [|intros h Hh; apply (Hleaf kid h); [left|done]].
  subst branch. rewrite fmap_cons. cbn [mjoin list_join]. simpl. f_equal. f_equal.
  apply IH. intros g h Hg. apply Hleaf. by right.
Qed.

Lemma filter_level3 (tree base : Z) (l : list TreeNode) (i : nat) (level2 : TreeNode) :
  l !! i = Some level2 →
  filter (λ m, parent_id m = Some (base + Z.of_nat i))
         (mjoin (imap (λ i' level2', response_row tree (base + Z.of_nat i')
                                       <$> responses level2') l))
  = response_row tree (base + Z.of_nat i) <$> responses level2.
Proof.
  revert base i. induction l as [|x l IH]; intros base i Hi; [done|].
  rewrite imap_cons. cbn [mjoin list_join]. rewrite filter_app.
  assert (E : imap ((λ i' level2', response_row tree (base + Z.of_nat i')
                                     <$> responses level2') ∘ S) l
            = imap (λ i' level2', response_row tree (base + 1 + Z.of_nat i')
                                    <$> responses level2') l).
  { apply imap_ext. intros j y _. simpl. f_equal. f_equal. lia. }
  rewrite E. destruct i as [|i]; simpl in Hi.
  - injection Hi as ->. rewrite filter_all.
    2:{ apply Forall_fmap, Forall_forall. intros y _. simpl. f_equal. }
    rewrite filter_none; [by rewrite app_nil_r|].
    apply Forall_forall. intros m (ms & Hm & Hms)%list_elem_of_join.
    apply elem_of_lookup_imap in Hms as (j & y & -> & _).
    apply list_elem_of_fmap in Hm as (z & -> & _). simpl. intros [= ?]. lia.
  - rewrite filter_none.
    2:{ apply Forall_fmap, Forall_forall. intros y _. simpl. intros [= ?]. lia. }
    simpl. replace (base + Z.of_nat (S i)) with (base + 1 + Z.of_nat i) by lia.
    by apply IH.
Qed.

Lemma snd_filter_imap (Q : Message → Prop) `{!∀ m, Decision (Q m)}
    (g : nat → Z) (l : list Message) :
  snd <$> filter (λ r : Row, Q r.2) (imap (λ j m, (g j, m)) l) = filter Q l.
Proof.
  revert g. induction l as [|m l IH]; intros g; [done|].
  rewrite imap_cons, !filter_cons. simpl.
  destruct (decide (Q m)); simpl; [f_equal|]; exact (IH (g ∘ S)).
Qed.

Section saved_tree.
Variables (tree sq : Z) (scenarios : TreeNode).

Lemma saved_rows_split :
  saved_rows tree sq scenarios
  = (sq, mkMessage (line scenarios) (speaker scenarios) true tree None)
    :: imap (λ i level2, (sq + 1 + Z.of_nat i, response_row tree sq level2))
            (responses scenarios)
    ++ imap (λ j m, (sq + 1 + Z.of_nat (length (responses scenarios)) + Z.of_nat j, m))
            (level3_rows tree (sq + 1) scenarios).
Proof.
  unfold saved_rows, saved_messages. rewrite imap_cons, imap_app. f_equal.
  - f_equal. lia.
  - f_equal.
    + unfold level2_rows. rewrite imap_fmap. apply imap_ext. intros i x _. simpl.
      f_equal. lia.
    + apply imap_ext. intros j m _. simpl. unfold level2_rows. rewrite length_fmap.
      f_equal. lia.
Qed.

Lemma saved_roots (p : option Z) :
  p = None →
  filter (λ r : Row, parent_id r.2 = p) (saved_rows tree sq scenarios)
  = [(sq, mkMessage (line scenarios) (speaker scenarios) true tree None)].
Proof.
  intros ->. rewrite saved_rows_split, filter_cons_True by done. f_equal.
  apply filter_none, Forall_app. split; apply Forall_forall.
  - by intros r (i & x & -> & _)%elem_of_lookup_imap.
  - intros r (j & m & -> & Hm%list_elem_of_lookup_2)%elem_of_lookup_imap.
    apply elem_of_level3_rows in Hm as (? & ? & ? & _ & _ & ->). done.
Qed.

Lemma saved_level2 (p : option Z) :
  p = Some sq →
  filter (λ r : Row, parent_id r.2 = p) (saved_rows tree sq scenarios)
  = imap (λ i level2, (sq + 1 + Z.of_nat i, response_row tree sq level2))
         (responses scenarios).
Proof.
  intros ->. rewrite saved_rows_split, filter_cons_False by done. rewrite filter_app.
  rewrite filter_all.
  2:{ apply Forall_forall. by intros r (i & x & -> & _)%elem_of_lookup_imap. }
  rewrite filter_none; [by rewrite app_nil_r|]. apply Forall_forall.
  intros r (j & m & -> & Hm%list_elem_of_lookup_2)%elem_of_lookup_imap.
  apply elem_of_level3_rows in Hm as (? & ? & ? & _ & _ & ->). simpl.
  intros [= ?]. lia.
Qed.

Lemma saved_level3 (p : option Z) (i : nat) (level2 : TreeNode) :
  p = Some (sq + 1 + Z.of_nat i) →
  responses scenarios !! i = Some level2 →
  snd <$> filter (λ r : Row, parent_id r.2 = p) (saved_rows tree sq scenarios)
    = response_row tree (sq + 1 + Z.of_nat i) <$> responses level2 ∧
  ∀ h, h ∈ filter (λ r : Row, parent_id r.2 = p) (saved_rows tree sq scenarios) →
       sq + 1 + Z.of_nat (length (responses scenarios)) ≤ id h.
Proof.
  intros -> Hi. rewrite saved_rows_split, filter_cons_False by done. rewrite filter_app.
  rewrite filter_none.
  2:{ apply Forall_forall. intros r (i' & x & -> & _)%elem_of_lookup_imap. simpl.
      intros [= ?]. lia. }
  rewrite app_nil_l. split.
  - rewrite <- (filter_level3 tree (sq + 1) (responses scenarios) i level2 Hi).
    exact (snd_filter_imap (λ m, parent_id m = Some (sq + 1 + Z.of_nat i))
             (λ j, sq + 1 + Z.of_nat (length (responses scenarios)) + Z.of_nat j)
             (level3_rows tree (sq + 1) scenarios)).
  - intros h [_ (j & m & -> & _)%elem_of_lookup_imap]%list_elem_of_filter.
    unfold id. simpl. lia.
Qed.

Lemma saved_leaves (p : option Z) (k : Z) :
  p = Some k →
  sq + 1 + Z.of_nat (length (responses scenarios)) ≤ k →
  filter (λ r : Row, parent_id r.2 = p) (saved_rows tree sq scenarios) = [].
Proof.
  intros -> Hk. rewrite saved_rows_split, filter_cons_False by done.
  apply filter_none, Forall_app. split; apply Forall_forall.
  - intros r (i & x & -> & _)%elem_of_lookup_imap. simpl. intros [= ?]. lia.
  - intros r (j & m & -> & Hm%list_elem_of_lookup_2)%elem_of_lookup_imap.
    apply elem_of_level3_rows in Hm as (i & ? & ? & Hi%lookup_lt_Some & _ & ->). simpl.
    intros [= ?]. lia.
Qed.

Lemma saved_rows_parent_lt (r : Row) :
  r ∈ saved_rows tree sq scenarios →
  simulation_id r.2 = tree ∧ from_option (λ p, p < r.1) True (parent_id r.2).
Proof.
  rewrite saved_rows_split, elem_of_cons, elem_of_app.
  intros [->|[(i & x & -> & _)%elem_of_lookup_imap|
              (j & m & -> & Hm%list_elem_of_lookup_2)%elem_of_lookup_imap]].
  - done.
  - simpl. split; [done|lia].
  - apply elem_of_level3_rows in Hm as (i & ? & ? & Hi%lookup_lt_Some & _ & ->). simpl.
    split; [done|lia].
Qed.
End saved_tree.

Lemma saved_messages_simulation (tree sq : Z) (scenarios : TreeNode) :
  Forall (λ m, simulation_id m = tree) (saved_messages tree sq scenarios).
Proof.
  unfold saved_messages. constructor; [done|]. apply Forall_app. split.
  - by apply Forall_fmap, Forall_forall.
  - apply Forall_forall. intros m Hm.
    by apply elem_of_level3_rows in Hm as (? & ? & ? & _ & _ & ->).
Qed.

Lemma fmap_mjoin {A B} (f : A → B) (ls : list (list A)) :
  f <$> mjoin ls = mjoin (fmap f <$> ls).
Proof.
  induction ls as [|l ls IH]; [done|]. cbn [mjoin list_join fmap list_fmap].
  change (f <$> l ++ mjoin ls = (f <$> l) ++ mjoin (fmap f <$> ls)).
  by rewrite fmap_app, IH.
Qed.

(** X19.  A saved tree reads back as it was generated.  On a store that
    answers, whose ids were handed out by the sequence and whose parents are
    older than their children, after [save_messages_to_tree] has stored a
    generated tree as the first conversation of a simulation, full-tree
    traversal of the simulation returns the root, then each level-2 response
    followed at once by its level-3 responses, in the order of the generated
    tree, with their speakers as roles and their lines as contents; what the
    generated tree holds below level 3 is not stored. *)
Theorem saved_tree_reads_back (d : Database) (tree_data : TreeData) (tree : Z) :
  faults d = [] → fresh_ids d → well_ordered (messages d) →
  (∀ k m, messages d !! k = Some m → simulation_id m ≠ tree) →
  ∃ d' out,
    request (save_messages_to_tree tree_data tree None) d = (Return true, d') ∧
    get_messages_by_tree_endpoint tree None d'
      = (Return (Dicts (message_dict <$> out)), d') ∧
    row_turn <$> out = three_levels (scenarios_tree tree_data).
Proof.
  intros Hf Hfresh Hwo Hnone.
  set (scenarios := scenarios_tree tree_data).
  set (sq := message_id_seq d).
  set (t' := insert_rows sq (saved_messages tree sq scenarios) (messages d)).
  assert (Hlt : ∀ k, is_Some (messages d !! k) → k < sq).
  { intros k [m Hk]. apply (Hfresh k m Hk). }
  assert (Hsel : select_where (λ r, simulation_id r.2 = tree) t'
                 = saved_rows tree sq scenarios).
  { apply select_where_insert_rows; [done..|apply saved_messages_simulation]. }
  assert (Hsib : ∀ p, siblings t' tree p
                      = filter (λ r : Row, parent_id r.2 = p) (saved_rows tree sq scenarios)).
  { intros p. by rewrite siblings_filter, Hsel. }
  assert (Hwo' : well_ordered t').
  { intros k m Hk. unfold t' in Hk. rewrite lookup_insert_rows in Hk.
    case_decide as Hr; [|by apply (Hwo k m)].
    apply (saved_rows_parent_lt tree sq scenarios (k, m)).
    apply elem_of_lookup_imap. exists (Z.to_nat (k - sq)), m. split; [f_equal; lia|done]. }
  destruct (ordered_messages_full t' tree Hwo') as (out & E & Hdf).
  exists (mkDatabase t' (sq + Z.of_nat (length (saved_messages tree sq scenarios))) []), out.
  split_and!.
  - by rewrite (save_messages_to_tree_new d tree_data tree Hf).
  - rewrite get_messages_by_tree_endpoint_unfold.
    change (ordered_messages _ tree None) with (ordered_messages t' tree None).
    by rewrite E.
  - assert (H1 : siblings t' tree None
                 = [(sq, mkMessage (line scenarios) (speaker scenarios) true tree None)]).
    { rewrite Hsib. by apply saved_roots. }
    assert (H2 : ∀ m, siblings t' tree (Some (id (sq, m)))
                      = imap (λ i level2, (sq + 1 + Z.of_nat i, response_row tree sq level2))
                             (responses scenarios)).
    { intros m. rewrite Hsib. by apply saved_level2. }
    assert (H3 : ∀ i level2 m, responses scenarios !! i = Some level2 →
              snd <$> siblings t' tree (Some (id (sq + 1 + Z.of_nat i, m)))
                = response_row tree (sq + 1 + Z.of_nat i) <$> responses level2 ∧
              ∀ h, h ∈ siblings t' tree (Some (id (sq + 1 + Z.of_nat i, m))) →
                   siblings t' tree (Some (id h)) = []).
    { intros i level2 m Hi. rewrite Hsib.
      destruct (saved_level3 tree sq scenarios (Some (id (sq + 1 + Z.of_nat i, m)))
                  i level2 eq_refl Hi) as [Hsnd Hge].
      split; [done|]. intros h Hh%Hge. rewrite Hsib.
      by apply (saved_leaves tree sq scenarios _ (id h)). }
    rewrite H1 in Hdf.
    inversion Hdf as [|kid rest branch out0 Hb Ho]; subst.
    inversion Ho; subst. rewrite app_nil_r.
    rewrite H2 in Hb. apply depth_first_two_levels in Hb.
    2:{ intros g h (i & level2 & -> & Hi)%elem_of_lookup_imap Hh.
        by apply (H3 i level2 (response_row tree sq level2) Hi). }
    subst branch. unfold three_levels. rewrite fmap_cons. f_equal.
    rewrite fmap_mjoin. f_equal. rewrite <- list_fmap_compose, fmap_imap.
    rewrite <- (imap_const (λ level2, node_turn level2 :: (node_turn <$> responses level2))).
    apply imap_ext. intros i level2 Hi.
    cbn [compose const]. rewrite fmap_cons. f_equal.
    destruct (H3 i level2 (response_row tree sq level2) Hi) as [Hsnd _].
    change row_turn with ((λ m : Message, (role m, content m)) ∘ (snd : Row → Message)).
    rewrite list_fmap_compose, Hsnd, <- list_fmap_compose. by apply list_fmap_ext.
Qed.

Lemma saved_tree_reads_back_witness :
  ∃ d' out,
    request (save_messages_to_tree ex_tree 7 None) ex_db = (Return true, d') ∧
    get_messages_by_tree_endpoint 7 None d'
      = (Return (Dicts (message_dict <$> out)), d') ∧
    row_turn <$> out = [("A", "opening"); ("B", "reply"); ("A", "follow-up")].
Proof.
  apply (saved_tree_reads_back ex_db ex_tree 7).
  - done.
  - apply (bool_decide_unpack (fresh_ids ex_db)). by vm_compute.
  - apply (bool_decide_unpack (well_ordered ex_table)). by vm_compute.
  - assert (Hall : map_Forall (λ _ m, simulation_id m ≠ 7) ex_table)
      by (apply (bool_decide_unpack _); by vm_compute).
    intros k m Hk. by apply (Hall k m).
Defined.
